(** * dpkg (Electra fork): version strings, command execution and the
      filesystem-node hash, embedded from the C sources

    - [lib/dpkg/parsehelp.c]: [varbufversion], [versiondescribe],
      [parseversion], [parse_db_version];
    - [lib/dpkg/command.c]: [command_init], [command_grow_argv],
      [command_add_arg], [command_add_argl], [command_add_argv],
      [command_shell], [fixedCmd], [runcmd];
    - [lib/dpkg/fsys-hash.c]: [fsys_hash_init], [fsys_hash_reset],
      [fsys_hash_find_node];
    - further, from the same files: [parse_error_msg],
      [pkg_name_is_illegal], [find_field_info], [find_arbfield_info];
      [command_exec], [searchpath], [getInterpreter];
      [fsys_hash_entries], [fsys_hash_iter_new], [fsys_hash_iter_next];
    - [lib/dpkg/log.c]: [log_message], [statusfd_add], [statusfd_send].

    A C string is the list of its characters before the terminating NUL.
    Pointers into a string are offsets ([nat]) from its start. *)

From Stdlib Require Import ZArith Ascii String Lia.
From stdpp Require Import base list strings.

Local Open Scope Z_scope.

(** Literal C strings. *)
Definition lit (s : string) : list ascii := list_ascii_of_string s.

(* ===================================================================== *)
(** * C library and libdpkg character helpers                            *)
(* ===================================================================== *)

Module CType.

Definition code (c : ascii) : Z := Z.of_nat (nat_of_ascii c).

(** Modelled from the spec: [c_isdigit] of dpkg/c-ctype.h is not under
    src/; the spec speaks of "digits": the ASCII digits '0'..'9'. *)
Definition c_isdigit (c : ascii) : bool := (48 <=? code c) && (code c <=? 57).

(** Modelled from the spec: [c_isalpha] of dpkg/c-ctype.h is not under
    src/; the spec speaks of "letters": the ASCII letters. *)
Definition c_isalpha (c : ascii) : bool :=
  ((65 <=? code c) && (code c <=? 90)) || ((97 <=? code c) && (code c <=? 122)).

(** Modelled from the spec: [c_isblank] of dpkg/c-ctype.h is not under
    src/; the spec speaks of leading, trailing and embedded whitespace of
    a one-line field value: space and horizontal tab. *)
Definition c_isblank (c : ascii) : bool := (code c =? 32) || (code c =? 9).

(** [isspace] of the C locale, which [strtol] skips. *)
Definition isspace (c : ascii) : bool :=
  (code c =? 32) || ((9 <=? code c) && (code c <=? 13)).

Definition digit_val (c : ascii) : Z := code c - 48.
Definition digit_char (d : Z) : ascii := ascii_of_nat (Z.to_nat (48 + d)).

End CType.
Import CType.

Module CString.

(** The scanning loops [while ( *p && pred( *p)) p++]: how far [p] moves. *)
Fixpoint span_len (p : ascii -> bool) (s : list ascii) : nat :=
  match s with
  | c :: s' => if p c then S (span_len p s') else O
  | [] => O
  end.

(** [strchr(s, c)] for a non-NUL [c]: offset of the first occurrence. *)
Fixpoint strchr (s : list ascii) (c : ascii) : option nat :=
  match s with
  | [] => None
  | x :: s' => if Ascii.eqb x c then Some O else S <$> strchr s' c
  end.

(** [strrchr(s, c)] for a non-NUL [c]: offset of the last occurrence. *)
Fixpoint strrchr (s : list ascii) (c : ascii) : option nat :=
  match s with
  | [] => None
  | x :: s' =>
      match strrchr s' c with
      | Some i => Some (S i)
      | None => if Ascii.eqb x c then Some O else None
      end
  end.

Definition str_is_set (s : option (list ascii)) : bool :=
  match s with
  | Some (_ :: _) => true
  | _ => false
  end.

Definition str_is_unset (s : option (list ascii)) : bool := negb (str_is_set s).

Definition LONG_MAX : Z := 2 ^ 63 - 1.
Definition LONG_MIN : Z := - 2 ^ 63.
Definition INT_MAX : Z := 2 ^ 31 - 1.
Definition UINT_MAX : Z := 2 ^ 32 - 1.

(** Value of a run of decimal digits, most significant first. *)
Definition digits_value (ds : list ascii) : Z :=
  fold_left (fun acc d => 10 * acc + digit_val d) ds 0.

Record strtol_result := {
  st_value : Z;         (* the returned long *)
  st_end : nat;         (* endptr - nptr *)
  st_erange : bool;     (* errno == ERANGE afterwards *)
}.

(** The conversion part of [strtol]: [s] follows the white space and the
    sign, [off] characters into the string. Without digits nothing is
    converted and [endptr = nptr]; values out of range are clamped and
    flagged. *)
Definition strtol_digits (neg : bool) (off : nat) (s : list ascii)
    : strtol_result :=
  let nd := span_len c_isdigit s in
  match nd with
  | O => {| st_value := 0; st_end := O; st_erange := false |}
  | _ =>
      let v := digits_value (take nd s) in
      let v := if neg then - v else v in
      let e := (off + nd)%nat in
      if LONG_MAX <? v
      then {| st_value := LONG_MAX; st_end := e; st_erange := true |}
      else if v <? LONG_MIN
      then {| st_value := LONG_MIN; st_end := e; st_erange := true |}
      else {| st_value := v; st_end := e; st_erange := false |}
  end.

(** [strtol(nptr, &endptr, 10)] with [errno] cleared before the call:
    white space, an optional sign, then decimal digits. *)
Definition strtol10 (nptr : list ascii) : strtol_result :=
  let ws := span_len isspace nptr in
  match drop ws nptr with
  | c :: s =>
      if Ascii.eqb c "-" then strtol_digits true (S ws) s
      else if Ascii.eqb c "+" then strtol_digits false (S ws) s
      else strtol_digits false ws (c :: s)
  | [] => strtol_digits false ws []
  end.

(** Digits of [n], least significant first. *)
Fixpoint rev_digits (fuel : nat) (n : Z) : list Z :=
  match fuel with
  | O => []
  | S fuel' => (n mod 10) :: (if n <? 10 then [] else rev_digits fuel' (n / 10))
  end.

(** The ["%u"] conversion of [printf] for an [unsigned int] (at most ten
    digits). *)
Definition fmt_u (n : Z) : list ascii :=
  rev (map digit_char (rev_digits 10 n)).

End CString.
Import CString.

(* ===================================================================== *)
(** * parsehelp.c                                                         *)
(* ===================================================================== *)

Module Version.

(** [struct dpkg_version]: an [unsigned int] epoch and two string
    pointers, either of which may be NULL ([None]). *)
Record dpkg_version := {
  epoch : Z;
  version : option (list ascii);
  revision : option (list ascii);
}.

Inductive versiondisplayepochwhen := vdew_never | vdew_nonambig | vdew_always.

Inductive dpkg_msg_type := DPKG_MSG_NONE | DPKG_MSG_WARN | DPKG_MSG_ERROR.

#[global] Instance dpkg_msg_type_eq_dec : EqDecision dpkg_msg_type.
Proof. solve_decision. Defined.

Record dpkg_error := {
  type : dpkg_msg_type;
  str : string;
}.

(** Modelled from the spec: [dpkg_put_error] and [dpkg_put_warn] of
    dpkg/error.c are not under src/; the spec separates errors from
    warning-level errors, and [parse_db_version] reads the level back as
    [err.type == DPKG_MSG_WARN]. Both return -1. *)
Definition dpkg_put_error (msg : string) : Z * dpkg_error :=
  (-1, {| type := DPKG_MSG_ERROR; str := msg |}).
Definition dpkg_put_warn (msg : string) : Z * dpkg_error :=
  (-1, {| type := DPKG_MSG_WARN; str := msg |}).

(** Modelled from the spec: [dpkg_version_is_informative] of
    dpkg/version.c is not under src/; a version is informative unless its
    epoch is zero and its upstream and revision are both unset. *)
Definition dpkg_version_is_informative (v : dpkg_version) : bool :=
  negb (epoch v =? 0) || str_is_set (version v) || str_is_set (revision v).

Definition has_colon (s : option (list ascii)) : bool :=
  match s with
  | Some s => bool_decide (is_Some (strchr s ":"))
  | None => false
  end.

(** [varbufversion]: append the rendering of [v] to the buffer [vb]. *)
Definition varbufversion (vb : list ascii) (v : dpkg_version)
    (vdew : versiondisplayepochwhen) : list ascii :=
  let with_epoch :=
    match vdew with
    | vdew_never => false
    | vdew_nonambig =>
        negb ((epoch v =? 0) && negb (has_colon (version v))
              && negb (has_colon (revision v)))
    | vdew_always => true
    end in
  let vb := if with_epoch then vb ++ fmt_u (epoch v) ++ [":"%char] else vb in
  let vb := match version v with Some s => vb ++ s | None => vb end in
  if str_is_set (revision v)
  then vb ++ "-"%char :: default [] (revision v)
  else vb.

(** The ten rotating static buffers of [versiondescribe]. *)
Record describe_state := {
  bufs : list (list ascii);
  bufnum : nat;
}.

Definition describe_init : describe_state :=
  {| bufs := replicate 10 []; bufnum := 0 |}.

(** [versiondescribe]: the returned string and the static state left
    behind. *)
Definition versiondescribe (st : describe_state) (v : dpkg_version)
    (vdew : versiondisplayepochwhen) : list ascii * describe_state :=
  if negb (dpkg_version_is_informative v) then (lit "<none>", st)
  else
    let i := bufnum st in
    let next := if decide (S i = 10%nat) then O else S i in
    let vb := varbufversion [] v vdew in
    (vb, {| bufs := <[i := vb]> (bufs st); bufnum := next |}).

(** Result of [parseversion]: the return code, the version structure as
    the call leaves it (fields are written as parsing proceeds, also when
    it fails later), and the error structure if one was put. *)
Record parse_result := {
  rc : Z;
  rversion : dpkg_version;
  err : option dpkg_error;
}.

Definition fail (rv : dpkg_version) (r : Z * dpkg_error) : parse_result :=
  {| rc := fst r; rversion := rv; err := Some (snd r) |}.

Definition valid_version_char (c : ascii) : bool :=
  c_isdigit c || c_isalpha c || bool_decide (is_Some (strchr (lit ".-+~:") c)).

Definition valid_revision_char (c : ascii) : bool :=
  c_isdigit c || c_isalpha c || bool_decide (is_Some (strchr (lit ".+~") c)).

(** Lines 243-257: the syntax checks on the two stored strings. *)
Definition check_syntax (rv : dpkg_version) (ver rev : list ascii) : parse_result :=
  match ver with
  | [] => fail rv (dpkg_put_error "version number is empty")
  | c :: ptr =>
      if negb (c_isdigit c)
      then fail rv (dpkg_put_warn "version number does not start with digit")
      else if negb (forallb valid_version_char ptr)
      then fail rv (dpkg_put_warn "invalid character in version number")
      else if negb (forallb valid_revision_char rev)
      then fail rv (dpkg_put_warn "invalid character in revision number")
      else {| rc := 0; rversion := rv; err := None |}
  end.

(** Lines 232-240: copy [string .. end) and split it at its last hyphen. *)
Definition split_revision (rv : dpkg_version) (text : list ascii) : parse_result :=
  match strrchr text "-" with
  | Some h =>
      let ver := take h text in
      let rev := drop (S h) text in
      let rv := {| epoch := epoch rv; version := Some ver; revision := revision rv |} in
      match rev with
      | [] => fail rv (dpkg_put_error "revision number is empty")
      | _ =>
          check_syntax
            {| epoch := epoch rv; version := Some ver; revision := Some rev |} ver rev
      end
  | None =>
      check_syntax
        {| epoch := epoch rv; version := Some text; revision := Some [] |} text []
  end.

(** Lines 211-231: the epoch. [string] is the text from the first
    non-blank character on, [e] the offset of [end] in it. *)
Definition parse_epoch (rv : dpkg_version) (string : list ascii) (e : nat)
    : parse_result :=
  match strchr string ":" with
  | Some colon =>
      let r := strtol10 string in
      if decide (st_end r = O)
      then fail rv (dpkg_put_error "epoch in version is empty")
      else if decide (colon <> st_end r)
      then fail rv (dpkg_put_error "epoch in version is not number")
      else if st_value r <? 0
      then fail rv (dpkg_put_error "epoch in version is negative")
      else if (INT_MAX <? st_value r) || st_erange r
      then fail rv (dpkg_put_error "epoch in version is too big")
      else
        match drop (S colon) string with
        | [] => fail rv (dpkg_put_error "nothing after colon in version number")
        | string' =>
            split_revision
              {| epoch := st_value r; version := version rv; revision := revision rv |}
              (take (e - S colon) string')
        end
  | None =>
      split_revision
        {| epoch := 0; version := version rv; revision := revision rv |}
        (take e string)
  end.

(** [parseversion(rversion, string, err)]. *)
Definition parseversion (rv : dpkg_version) (string : list ascii) : parse_result :=
  let string := drop (span_len c_isblank string) string in
  match string with
  | [] => fail rv (dpkg_put_error "version string is empty")
  | _ =>
      let e := span_len (fun c => negb (c_isblank c)) string in
      let ptr := (e + span_len c_isblank (drop e string))%nat in
      match drop ptr string with
      | _ :: _ => fail rv (dpkg_put_error "version string has embedded spaces")
      | [] => parse_epoch rv string e
      end
  end.

(** What [parse_db_version] does with the outcome: return silently, warn
    and return, or die in [parse_error] (which does not return). *)
Inductive db_outcome :=
| DbParsed (v : dpkg_version)
| DbWarned (v : dpkg_version) (msg : string)
| DbFatal (msg : string).

Record parsedb_state := {
  ps_lax_version_parser : bool;   (* ps->flags & pdb_lax_version_parser *)
}.

(** [parse_db_version(ps, version, value, fmt, ...)]; the formatted
    prefix [buf] is left out of the message. *)
Definition parse_db_version (ps : parsedb_state) (v : dpkg_version)
    (value : list ascii) : db_outcome :=
  let r := parseversion v value in
  if rc r =? 0 then DbParsed (rversion r)
  else
    match err r with
    | Some e =>
        match type e with
        | DPKG_MSG_WARN =>
            if ps_lax_version_parser ps
            then DbWarned (rversion r) (str e)
            else DbFatal (str e)
        | _ => DbFatal (str e)
        end
    | None => DbFatal ""
    end.

End Version.
Import Version.


(* ===================================================================== *)
(** * command.c                                                           *)
(* ===================================================================== *)

Module Command.

(** What can go wrong below the level of C's defined behaviour. *)
Inductive fault :=
| OutOfBounds      (* a store or load outside the allocated block *)
| IntOverflow      (* signed [int] arithmetic leaves the [int] range *)
| NullDeref        (* a NULL pointer is read through *)
| UninitRead.      (* an indeterminate value is read *)

Inductive exec (A : Type) :=
| Done (a : A)
| Fault (f : fault).
Arguments Done {A} a.
Arguments Fault {A} f.

Definition bind {A B} (m : exec A) (k : A -> exec B) : exec B :=
  match m with
  | Done a => k a
  | Fault f => Fault f
  end.

Notation "'do' x <- m ; k" := (bind m (fun x => k))
  (at level 10, x name, m at level 100, k at level 200).

(** One slot of the [argv] pointer array. *)
Inductive cell :=
| Undef                     (* never written since m_malloc/m_realloc *)
| Null                      (* the NULL pointer *)
| Arg (s : list ascii).     (* a pointer to the string [s] *)

(** [struct command]; [argv] is the allocated block, one [cell] per
    pointer, so [length argv] is the allocated number of slots. *)
Record command := {
  filename : list ascii;
  name : list ascii;
  argc : Z;
  argv_size : Z;
  argv : list cell;
}.

(** [path_basename], as [command_init] documents it: the last component of
    the filename path. *)
Definition path_basename (path : list ascii) : list ascii :=
  match strrchr path "/" with
  | Some i => drop (S i) path
  | None => path
  end.

(** [cmd->argv[i] = c]. *)
Definition store (cmd : command) (i : Z) (c : cell) : exec command :=
  if (0 <=? i) && (i <? Z.of_nat (length (argv cmd)))
  then Done {| filename := filename cmd; name := name cmd; argc := argc cmd;
               argv_size := argv_size cmd;
               argv := <[Z.to_nat i := c]> (argv cmd) |}
  else Fault OutOfBounds.

Definition set_argc (cmd : command) (n : Z) : command :=
  {| filename := filename cmd; name := name cmd; argc := n;
     argv_size := argv_size cmd; argv := argv cmd |}.

(** An [int] result, or the overflow. *)
Definition int (n : Z) : exec Z :=
  if (- INT_MAX - 1 <=? n) && (n <=? INT_MAX) then Done n else Fault IntOverflow.

Definition command_init (filename : list ascii) (name : option (list ascii))
    : exec command :=
  let cmd :=
    {| filename := filename;
       name := match name with None => path_basename filename | Some n => n end;
       argc := 0;
       argv_size := 10;
       argv := replicate 10 Undef |} in
  store cmd 0 Null.

Definition command_grow_argv (cmd : command) (need : Z) : exec command :=
  (* We need a ghost byte for the NUL character. *)
  do need <- int (need + 1);
  (* Check if we already have enough room. *)
  if need <=? argv_size cmd - argc cmd then Done cmd
  else
    do sum <- int (argv_size cmd + need);
    do size <- int (sum * 2);
    Done {| filename := filename cmd; name := name cmd; argc := argc cmd;
            argv_size := size;
            argv := argv cmd
                    ++ replicate (Z.to_nat size - length (argv cmd)) Undef |}.

(** [cmd->argv[cmd->argc++] = a]. *)
Definition push (cmd : command) (a : list ascii) : exec command :=
  do cmd <- store cmd (argc cmd) (Arg a);
  do n <- int (argc cmd + 1);
  Done (set_argc cmd n).

Definition terminate (cmd : command) : exec command :=
  store cmd (argc cmd) Null.

Definition command_add_arg (cmd : command) (arg : list ascii) : exec command :=
  do cmd <- command_grow_argv cmd 1;
  do cmd <- push cmd arg;
  terminate cmd.

(** The copying loop [for (i = 0; i < add_argc; i++)]. *)
Fixpoint push_all (cmd : command) (args : list (list ascii)) : exec command :=
  match args with
  | [] => Done cmd
  | a :: args' => do cmd <- push cmd a; push_all cmd args'
  end.

(** [command_add_argl]; [args] are the entries of the array before its
    NULL terminator. *)
Definition command_add_argl (cmd : command) (args : list (list ascii))
    : exec command :=
  do add_argc <- int (Z.of_nat (length args));
  do cmd <- command_grow_argv cmd add_argc;
  do cmd <- push_all cmd args;
  terminate cmd.

(** [command_add_argv]; [args] are the variable arguments before the
    NULL sentinel. *)
Definition command_add_argv (cmd : command) (args : list (list ascii))
    : exec command :=
  do add_argc <- int (Z.of_nat (length args));
  do cmd <- command_grow_argv cmd add_argc;
  do cmd <- push_all cmd args;
  terminate cmd.

Inductive add_op :=
| AddArg (arg : list ascii)
| AddArgl (args : list (list ascii))
| AddArgv (args : list (list ascii)).

Definition run_op (cmd : command) (op : add_op) : exec command :=
  match op with
  | AddArg a => command_add_arg cmd a
  | AddArgl l => command_add_argl cmd l
  | AddArgv l => command_add_argv cmd l
  end.

Fixpoint run_ops (cmd : command) (ops : list add_op) : exec command :=
  match ops with
  | [] => Done cmd
  | op :: ops' => do cmd <- run_op cmd op; run_ops cmd ops'
  end.

(** The arguments a sequence of calls appends, in order. *)
Definition op_args (op : add_op) : list (list ascii) :=
  match op with
  | AddArg a => [a]
  | AddArgl l => l
  | AddArgv l => l
  end.

Definition ops_args (ops : list add_op) : list (list ascii) :=
  concat (map op_args ops).

(** *** Execution *)

(** A process image replacement: the file and the argument vector handed
    to the new program. *)
Inductive execution :=
| Exec (file : list ascii) (args : list (list ascii)).

(** [command_exec]: [execvp(cmd->filename, cmd->argv)] reads the vector up
    to its NULL terminator. *)
Fixpoint read_argv (cells : list cell) : exec (list (list ascii)) :=
  match cells with
  | [] => Fault OutOfBounds
  | Undef :: _ => Fault UninitRead
  | Null :: _ => Done []
  | Arg a :: cells' => do l <- read_argv cells'; Done (a :: l)
  end.

Definition command_exec (cmd : command) : exec execution :=
  do l <- read_argv (argv cmd);
  Done (Exec (filename cmd) l).

Section Shell.

(** [DEFAULTSHELL] of dpkg/dpkg.h, and the value of [getenv("SHELL")]. *)
Variable DEFAULTSHELL : list ascii.
Variable env_SHELL : option (list ascii).

(** The helpers of [fixedCmd] that look at the file system: the path
    found for a binary name, whether the file starts with "#!", and the
    interpreter named on that line. *)
Variable searchpath : list ascii -> option (list ascii).
Variable isShellScript : list ascii -> bool.
Variable getInterpreter : list ascii -> list ascii.

(** [command_shell(cmd, name)]:
    [execlp(shell, shell, mode, cmd, NULL)]. *)
Definition command_shell (cmd : option (list ascii)) : execution :=
  let '(mode, shell) :=
    match cmd with
    | None => (lit "-i", env_SHELL)
    | Some _ => (lit "-c", None)
    end in
  let shell := if str_is_unset shell then DEFAULTSHELL else default [] shell in
  Exec shell ([shell; mode] ++ match cmd with Some c => [c] | None => [] end).

Definition NUL : ascii := "000"%char.
Definition is_space (c : ascii) : bool := Ascii.eqb c " ".

(** The C string starting at offset [o] of a block of bytes. *)
Definition cstring_at (block : list ascii) (o : nat) : list ascii :=
  let s := drop o block in
  take (span_len (fun c => negb (Ascii.eqb c NUL)) s) s.

Definition uint8 (n : Z) : Z := n mod 256.

(** [fixedCmd(cmdStr)]: the returned string. The block [cmdCpy] holds
    the copy with its terminator; [strtok] skips leading spaces and
    overwrites the space that ends the first token. Both branches taken
    when the binary is found store ['\0'] at index [commandSize + 1] of
    a block of [commandSize + 1] bytes; the second one appends to the
    block as [malloc] returned it. *)
Definition fixedCmd (cmdStr : list ascii) : exec (list ascii) :=
  let cmdCpy := cmdStr ++ [NUL] in
  let start := span_len is_space cmdStr in
  match drop start cmdStr with
  | [] => Fault NullDeref        (* strlen(cmd) with cmd == NULL *)
  | rest =>
      let len := span_len (fun c => negb (is_space c)) rest in
      let cmd := take len rest in
      let cmdCpy := <[(start + len)%nat := NUL]> cmdCpy in
      let size := uint8 (Z.of_nat (length cmd) + 1) in
      let args :=
        if decide (length cmdStr = length cmd) then None
        else Some (cstring_at cmdCpy (Z.to_nat size)) in
      match searchpath cmd with
      | Some abs_path =>
          if isShellScript abs_path then
            let interpreter := getInterpreter abs_path in
            let commandSize :=
              uint8 (Z.of_nat (length interpreter) + 1
                     + Z.of_nat (length abs_path)) in
            let commandSize :=
              match args with
              | Some a => uint8 (commandSize + (1 + Z.of_nat (length a)))
              | None => commandSize
              end in
            let rawCommand :=
              interpreter ++ lit " " ++ abs_path
              ++ match args with Some a => lit " " ++ a | None => [] end in
            let allocated := commandSize + 1 in   (* malloc(commandSize + 1) *)
            if Z.of_nat (length rawCommand) + 1 <=? allocated
            then
              (* rawCommand[commandSize + 1] = '\0' *)
              if commandSize + 1 <? allocated
              then Done rawCommand
              else Fault OutOfBounds
            else Fault OutOfBounds
          else Fault UninitRead   (* strcat onto the fresh block *)
      | None => Done (cstring_at cmdCpy 0)
      end
  end.

Definition CMDSTRING_SIZE : nat := 200.

(** [*ptr++ = c] into [char cmdstring[200]]; the block is the list of
    bytes stored so far, so [ptr - cmdstring] is its length. *)
Definition put (buf : list ascii) (c : ascii) : exec (list ascii) :=
  if decide (length buf < CMDSTRING_SIZE)%nat
  then Done (buf ++ [c])
  else Fault OutOfBounds.

(** [while ((c = *current_arg++)) *ptr++ = c;] *)
Fixpoint put_string (buf : list ascii) (s : list ascii) : exec (list ascii) :=
  match s with
  | [] => Done buf
  | c :: s' => do buf <- put buf c; put_string buf s'
  end.

(** The loop [for (i = 0; i < cmd->argc; i++)] over the slots. *)
Fixpoint join_args (buf : list ascii) (cells : list cell) (n : nat)
    {struct n} : exec (list ascii) :=
  match n with
  | O => Done buf
  | S n' =>
      match cells with
      | [] => Fault OutOfBounds
      | Undef :: _ => Fault UninitRead
      | Null :: _ => Fault NullDeref
      | Arg a :: cells' =>
          do buf <- put_string buf a;
          do buf <- put buf " "%char;
          join_args buf cells' n'
      end
  end.

(** Lines 360-372 of [runcmd]: the contents of [cmdstring] as a C
    string, once the terminator is stored. *)
Definition runcmd_cmdstring (cmd : command) : exec (list ascii) :=
  do buf <- join_args [] (argv cmd) (Z.to_nat (argc cmd));
  do buf <- put buf NUL;
  Done (cstring_at buf 0).

(** [runcmd(cmd)]: the program image that [execlp] is asked for.
    [searchpath] is taken as a function of the name: that is what it is
    for a first word with a slash, which is answered by [stat] alone. For
    a word without one the source's [searchpath] also takes PATH apart in
    place, so that [execlp] looks the shell up in a PATH cut behind its
    first entry; that effect is not part of this definition. *)
Definition runcmd (cmd : command) : exec execution :=
  do cmdstring <- runcmd_cmdstring cmd;
  do fullcmd <- fixedCmd cmdstring;
  Done (command_shell (Some fullcmd)).

End Shell.

(** *** Vocabulary of the statements *)

(** [argv] holds exactly [args], in order, then the NULL terminator, all
    inside the allocated block. *)
Definition argv_holds (cmd : command) (args : list (list ascii)) : Prop :=
  argc cmd = Z.of_nat (length args)
  /\ argv_size cmd = Z.of_nat (length (argv cmd))
  /\ argc cmd < argv_size cmd
  /\ (forall i a, args !! i = Some a -> argv cmd !! i = Some (Arg a))
  /\ argv cmd !! length args = Some Null.

(** The invariant kept between calls: [argv_holds], stated on the prefix
    of the block, and the sizes that keep the [int] arithmetic exact. *)
Definition argv_inv (cmd : command) (args : list (list ascii)) : Prop :=
  argc cmd = Z.of_nat (length args)
  /\ argv_size cmd = Z.of_nat (length (argv cmd))
  /\ argc cmd < argv_size cmd
  /\ argv_size cmd <= INT_MAX
  /\ argv_size cmd <= 4 * argc cmd + 10
  /\ take (length args) (argv cmd) = Arg <$> args
  /\ argv cmd !! length args = Some Null.

(** The arguments, each followed by a space. *)
Definition join_spaces (args : list (list ascii)) : list ascii :=
  concat ((fun a => a ++ [" "%char]) <$> args).

(** From this many arguments on, [command_grow_argv] may leave the range
    of [int]. *)
Definition ARG_LIMIT : Z := 2 ^ 29.

End Command.

(* ===================================================================== *)
(** * fsys-hash.c                                                         *)
(* ===================================================================== *)

Module Fsys.

(** This must always be a prime for optimal performance. *)
Definition BINS : Z := 262139.

(** [enum fsys_hash_find_flags]; fsys.h declares the two bits under
    their former names [fnn_nocopy] and [fnn_nonew]. *)
Definition FHFF_NOCOPY : Z := 1.
Definition FHFF_NONE : Z := 2.

(** [struct file_ondisk_id]. *)
Record ondisk_id := { id_dev : Z; id_ino : Z }.
Record file_stat := { uid : Z; gid : Z; mode : Z }.

(** [struct diversion], with the nodes it points to given by name. *)
Record diversion := {
  useinstead : option (list ascii);
  camefrom : option (list ascii);
  pkgset : option (list ascii);
}.

(** [struct fsys_namenode]; [next] is the position in the bin's chain. *)
Record fsys_namenode := {
  name : list ascii;
  packages : list (list ascii);
  divert : option diversion;
  statoverride : option file_stat;
  trig_interested : list (list ascii);
  (* Fields from here on are cleared by fsys_hash_init(). *)
  flags : Z;
  oldhash : option (list ascii);
  newhash : option (list ascii);
  file_ondisk_id : option ondisk_id;
}.

(** The static [bins] array, as the chain hanging off each index, and
    [nfiles]. *)
Record table := {
  bins : Z -> list fsys_namenode;
  nfiles : Z;
}.

(** Modelled from the spec: [path_skip_slash_dotslash] of dpkg/path.c is
    not under src/; the lookup "first normalizes by stripping leading [/]
    and [./] pairs". The result is how far the pointer moves. *)
Fixpoint path_skip_slash_dotslash (path : list ascii) : nat :=
  match path with
  | c :: rest =>
      if Ascii.eqb c "/" then S (path_skip_slash_dotslash rest)
      else if Ascii.eqb c "." then
        match rest with
        | c' :: _ =>
            if Ascii.eqb c' "/" then S (path_skip_slash_dotslash rest) else O
        | [] => O
        end
      else O
  | [] => O
  end.

Section Table.

(** [str_fnv_hash] of dpkg/string.c and [EMPTYHASHFLAG] of
    dpkg/dpkg-db.h are not under src/. *)
Variable str_fnv_hash : list ascii -> Z.
Variable EMPTYHASHFLAG : list ascii.

Definition clear_node (fnn : fsys_namenode) : fsys_namenode :=
  {| name := name fnn;
     packages := packages fnn;
     divert := divert fnn;
     statoverride := statoverride fnn;
     trig_interested := trig_interested fnn;
     flags := 0;
     oldhash := None;
     newhash := Some EMPTYHASHFLAG;
     file_ondisk_id := None |}.

Definition fsys_hash_init (t : table) : table :=
  {| bins := fun i =>
       if (0 <=? i) && (i <? BINS) then map clear_node (bins t i) else bins t i;
     nfiles := nfiles t |}.

Definition fsys_hash_reset (t : table) : table :=
  {| bins := fun i => if (0 <=? i) && (i <? BINS) then [] else bins t i;
     nfiles := 0 |}.

Definition fsys_hash_entries (t : table) : Z := nfiles t.

(** Where the walk [while ( *pointerp)] of a chain stops. *)
Inductive walk_result :=
| WalkFound (pos : nat) (fnn : fsys_namenode)
| WalkEnd
| WalkInternerr (fnn : fsys_namenode).

Fixpoint walk (chain : list fsys_namenode) (pos : nat) (name' : list ascii)
    : walk_result :=
  match chain with
  | [] => WalkEnd
  | fnn :: chain' =>
      match name fnn with
      | c :: tail =>
          if negb (Ascii.eqb c "/") then WalkInternerr fnn
          else if bool_decide (tail = name') then WalkFound pos fnn
          else walk chain' (S pos) name'
      | [] => WalkInternerr fnn
      end
  end.

Inductive find_result :=
| FindNode (bin : Z) (pos : nat) (fnn : fsys_namenode) (t : table)
| FindNull (t : table)
| FindInternerr (fnn : fsys_namenode).

Definition fsys_hash_find_node (t : table) (orig_name : list ascii)
    (find_flags : Z) : find_result :=
  (* We skip initial slashes and './' pairs, and add our own single
     leading slash. *)
  let skipped := path_skip_slash_dotslash orig_name in
  let name' := drop skipped orig_name in
  let b := str_fnv_hash name' mod BINS in
  match walk (bins t b) O name' with
  | WalkInternerr fnn => FindInternerr fnn
  | WalkFound pos fnn => FindNode b pos fnn t
  | WalkEnd =>
      if negb (Z.land find_flags FHFF_NONE =? 0) then FindNull t
      else
        let newname :=
          if negb (Z.land find_flags FHFF_NOCOPY =? 0)
             && bool_decide (0 < skipped)%nat
             && bool_decide (orig_name !! (skipped - 1)%nat = Some "/"%char)
          then drop (skipped - 1) orig_name
          else "/"%char :: name' in
        let newnode :=
          {| name := newname;
             packages := [];
             divert := None;
             statoverride := None;
             trig_interested := [];
             flags := 0;
             oldhash := None;
             newhash := Some EMPTYHASHFLAG;
             file_ondisk_id := None |} in
        FindNode b (length (bins t b)) newnode
          {| bins := fun i => if i =? b then bins t b ++ [newnode] else bins t i;
             nfiles := nfiles t + 1 |}
  end.

End Table.

(** *** Vocabulary of the statements *)

(** The path with its leading slashes and [./] pairs stripped. *)
Definition normalized (path : list ascii) : list ascii :=
  drop (path_skip_slash_dotslash path) path.

(** The empty table: every bin NULL. *)
Definition empty_table : table := {| bins := fun _ => []; nfiles := 0 |}.

(** The part of a node that [fsys_hash_init] leaves alone. *)
Definition same_identity (a b : fsys_namenode) : Prop :=
  name a = name b /\ packages a = packages b /\ divert a = divert b
  /\ statoverride a = statoverride b /\ trig_interested a = trig_interested b.


End Fsys.

(* ===================================================================== *)
(** * Vocabulary of the statements                                        *)
(* ===================================================================== *)

Module Spec.

(** [c] does not occur in [s]. *)
Definition no_char (c : ascii) (s : list ascii) : bool :=
  forallb (fun x => negb (Ascii.eqb x c)) s.

Definition all_blank (s : list ascii) : bool := forallb c_isblank s.
Definition no_blank (s : list ascii) : bool :=
  forallb (fun c => negb (c_isblank c)) s.

Definition is_nil {A} (l : list A) : bool :=
  match l with [] => true | _ => false end.

Definition error (msg : string) : dpkg_error :=
  {| type := DPKG_MSG_ERROR; str := msg |}.
Definition warning (msg : string) : dpkg_error :=
  {| type := DPKG_MSG_WARN; str := msg |}.

(** The messages of [parseversion], by the level they are put at. *)
Definition epoch_errors : list string :=
  [ "epoch in version is empty"; "epoch in version is not number";
    "epoch in version is negative"; "epoch in version is too big";
    "nothing after colon in version number" ].

Definition hard_errors : list string :=
  [ "version string is empty"; "version string has embedded spaces" ]
  ++ epoch_errors
  ++ [ "revision number is empty"; "version number is empty" ].

Definition warnings : list string :=
  [ "version number does not start with digit";
    "invalid character in version number";
    "invalid character in revision number" ].

(** The upstream and revision strings of a version, NULL read as empty. *)
Definition upstream_of (v : dpkg_version) : list ascii := default [] (version v).
Definition revision_of (v : dpkg_version) : list ascii := default [] (revision v).


(** What a version needs for its rendering to read back as itself: an
    epoch that fits an [int], no blanks, a hyphen in the upstream only in
    front of a revision, none in the revision, and some text at all. *)
Definition reparsable (v : dpkg_version) : bool :=
  (0 <=? epoch v) && (epoch v <=? INT_MAX)
  && no_blank (upstream_of v) && no_blank (revision_of v)
  && no_char "-" (revision_of v)
  && (negb (is_nil (revision_of v)) || no_char "-" (upstream_of v))
  && negb (is_nil (upstream_of v) && is_nil (revision_of v)).

(** The syntax [parseversion] accepts without complaint. *)
Definition well_formed (v : dpkg_version) : bool :=
  match upstream_of v with
  | [] => false
  | c :: ptr => c_isdigit c && forallb valid_version_char ptr
  end
  && forallb valid_revision_char (revision_of v).

(** A version structure nothing has been stored in. *)
Definition blank_version : dpkg_version :=
  {| epoch := 0; version := None; revision := None |}.

(** Whether [varbufversion] prints the epoch. *)
Definition shows_epoch (v : dpkg_version) (vdew : versiondisplayepochwhen) : bool :=
  match vdew with
  | vdew_never => false
  | vdew_nonambig =>
      negb ((epoch v =? 0) && no_char ":" (upstream_of v)
            && no_char ":" (revision_of v))
  | vdew_always => true
  end.

(** The messages [parseversion] can still put once the epoch is read. *)
Definition late_errors : list string :=
  [ "revision number is empty"; "version number is empty" ] ++ warnings.

(** Every result carries either no error and return code 0, or return
    code -1 with a message of the level it belongs to. *)
Definition graded (r : parse_result) : Prop :=
  match err r with
  | None => rc r = 0
  | Some e =>
      rc r = -1
      /\ ((type e = DPKG_MSG_WARN /\ In (str e) warnings)
          \/ (type e = DPKG_MSG_ERROR /\ In (str e) hard_errors))
  end.

(** [tok] with its epoch prefix removed: no colon, epoch zero and all of
    [tok]; or a number that [strtol] reads up to the first colon, within
    [0 .. INT_MAX], and the non-empty text behind that colon. *)
Definition after_epoch (tok : list ascii) (e : Z) (rest : list ascii) : Prop :=
  (no_char ":" tok = true /\ e = 0 /\ rest = tok)
  \/ (exists pre,
        tok = pre ++ ":"%char :: rest /\ no_char ":" pre = true
        /\ pre <> [] /\ rest <> []
        /\ strtol10 pre
           = {| st_value := e; st_end := length pre; st_erange := false |}
        /\ 0 <= e <= INT_MAX).

(** [rest] cut at its last hyphen: the upstream [u] alone, when there is
    no hyphen, or [u], a hyphen and the revision [rev]. *)
Definition split_at_last_hyphen (rest u rev : list ascii) : Prop :=
  rest = u ++ (if is_nil rev then [] else "-"%char :: rev)
  /\ no_char "-" rev = true
  /\ (rev = [] -> no_char "-" u = true).

(** The parse of [s] ends in the warning [msg] with [v] stored, and
    [parse_db_version] warns and goes on under the lax flag and dies
    without it. *)
Definition warned_with (ps : parsedb_state) (rv : dpkg_version)
    (s : list ascii) (v : dpkg_version) (msg : string) : Prop :=
  parseversion rv s = {| rc := -1; rversion := v; err := Some (warning msg) |}
  /\ parse_db_version ps rv s
     = if ps_lax_version_parser ps then DbWarned v msg else DbFatal msg.

(** The text in front of the colon as [strtol] takes it apart: white
    space [ws], a sign [sg] or none, the digits [ds], and whatever is left,
    [junk]; each part as long as it can be. *)
Definition epoch_text (pre ws sg ds junk : list ascii) : Prop :=
  pre = ws ++ sg ++ ds ++ junk
  /\ forallb isspace ws = true
  /\ (sg = [] \/ sg = ["+"%char] \/ sg = ["-"%char])
  /\ forallb c_isdigit ds = true
  /\ (forall c, head (sg ++ ds ++ junk) = Some c -> isspace c = false)
  /\ (sg = [] -> head (ds ++ junk) <> Some "+"%char
                 /\ head (ds ++ junk) <> Some "-"%char)
  /\ (forall c, head junk = Some c -> c_isdigit c = false).

End Spec.
Import Spec.

(* ===================================================================== *)
(** * parsehelp.c: the remaining routines                                 *)
(* ===================================================================== *)

Module ParseHelp.

(** Modelled from the spec: [c_isalnum] of dpkg/c-ctype.h is not under
    src/; the spec speaks of "digits" and "letters". *)
Definition c_isalnum (c : ascii) : bool := c_isdigit c || c_isalpha c.

(** The characters [pkg_name_is_illegal] allows besides letters and
    digits. *)
Definition alsoallowed : list ascii := lit "-+._".

(** [pkg_name_is_illegal(p)]: NULL ([None]) for a legal name, otherwise
    the complaint. The loop stops at the first character that is neither
    alphanumeric nor in [alsoallowed]; [snprintf] names it. *)
Definition pkg_name_is_illegal (p : list ascii) : option (list ascii) :=
  match p with
  | [] => Some (lit "may not be empty string")
  | c0 :: _ =>
      if negb (c_isalnum c0)
      then Some (lit "must start with an alphanumeric character")
      else
        let n := span_len (fun c => c_isalnum c
                                    || bool_decide (is_Some (strchr alsoallowed c))) p in
        match drop n p with
        | [] => None
        | c :: _ =>
            Some (lit "character '" ++ [c]
                  ++ lit "' not allowed (only letters, digits and characters '"
                  ++ alsoallowed ++ lit "')")
        end
  end.

(** [tolower] of the C locale. *)
Definition tolower (c : ascii) : ascii :=
  if (65 <=? code c) && (code c <=? 90)
  then ascii_of_nat (nat_of_ascii c + 32)
  else c.

(** [strcasecmp(a, b)]: negative, zero or positive as the first pair of
    characters that differ once lowered compares, the terminator being the
    smallest character. *)
Fixpoint strcasecmp (a b : list ascii) : Z :=
  match a, b with
  | [], [] => 0
  | [], _ :: _ => -1
  | _ :: _, [] => 1
  | x :: a', y :: b' =>
      if code (tolower x) =? code (tolower y)
      then strcasecmp a' b'
      else if code (tolower x) <? code (tolower y) then -1 else 1
  end.

Section Fields.

(** [struct fieldinfo] and [struct arbitraryfield] are declared in
    dpkg/parsedump.h and dpkg/dpkg-db.h, not under src/; the two searches
    read only the [name] member. The table of [find_field_info] is the
    array before its entry with a NULL name, the list of
    [find_arbfield_info] the chain of [next] pointers. *)
Variable fieldinfo : Type.
Variable fieldinfo_name : fieldinfo -> list ascii.
Variable arbitraryfield : Type.
Variable arbitraryfield_name : arbitraryfield -> list ascii.

Fixpoint find_field_info (fields : list fieldinfo) (fieldname : list ascii)
    : option fieldinfo :=
  match fields with
  | [] => None
  | field :: fields' =>
      if strcasecmp (fieldinfo_name field) fieldname =? 0
      then Some field
      else find_field_info fields' fieldname
  end.

Fixpoint find_arbfield_info (arbs : list arbitraryfield) (fieldname : list ascii)
    : option arbitraryfield :=
  match arbs with
  | [] => None
  | arbfield :: arbs' =>
      if strcasecmp (arbitraryfield_name arbfield) fieldname =? 0
      then Some arbfield
      else find_arbfield_info arbs' fieldname
  end.

End Fields.

(** The ["%d"] conversion of [printf] for an [int]. *)
Definition fmt_d (n : Z) : list ascii :=
  if n <? 0 then "-"%char :: fmt_u (- n) else fmt_u n.

(** [static char msg[1024]] of [parse_error_msg]. *)
Definition MSG_SIZE : nat := 1024.

(** [parse_error_msg(ps, fmt)]: the text that [sprintf] composes in
    [msg], from the untranslated formats. [filename] is what
    [str_escape_fmt] has left in [char filename[256]], [lno] is [ps->lno],
    and [pkgname] is the escaped package name when the state has a
    package with a name. The precision of ["%.255s"] cuts each string. *)
Definition parse_error_msg (filename : list ascii) (lno : Z)
    (pkgname : option (list ascii)) (fmt : list ascii) : list ascii :=
  match pkgname with
  | Some pkgname =>
      lit "parsing file '" ++ take 255 filename ++ lit "' near line "
      ++ fmt_d lno ++ lit " package '" ++ take 255 pkgname ++ lit "':"
      ++ ["010"%char; " "%char] ++ take 255 fmt
  | None =>
      lit "parsing file '" ++ take 255 filename ++ lit "' near line "
      ++ fmt_d lno ++ lit ":" ++ ["010"%char; " "%char] ++ take 255 fmt
  end.

(** *** Vocabulary of the statements *)

(** A character [pkg_name_is_illegal] lets through. *)
Definition name_char (c : ascii) : bool :=
  c_isalnum c || bool_decide (is_Some (strchr alsoallowed c)).

(** Equal up to the case of ASCII letters. *)
Definition same_ignoring_case (a b : list ascii) : Prop :=
  map tolower a = map tolower b.

(** What follows the upstream in a rendered version. *)
Definition hyphen_tail (rev : list ascii) : list ascii :=
  if is_nil rev then [] else "-"%char :: rev.

(** A run of [versiondescribe] calls, the static buffers threaded
    through; the strings returned, in order, and the last state. *)
Fixpoint describe_calls (st : describe_state)
    (calls : list (dpkg_version * versiondisplayepochwhen))
    : list (list ascii) * describe_state :=
  match calls with
  | [] => ([], st)
  | (v, vdew) :: calls' =>
      let '(s, st1) := versiondescribe st v vdew in
      let '(ss, st2) := describe_calls st1 calls' in
      (s :: ss, st2)
  end.

(** How many calls of the run take a buffer. *)
Fixpoint informative_calls
    (calls : list (dpkg_version * versiondisplayepochwhen)) : nat :=
  match calls with
  | [] => O
  | (v, _) :: calls' =>
      if dpkg_version_is_informative v
      then S (informative_calls calls')
      else informative_calls calls'
  end.

(** No error was put, or only a warning. *)
Definition not_hard (r : parse_result) : Prop :=
  match err r with
  | None => True
  | Some e => type e = DPKG_MSG_WARN
  end.

(** The names [pkg_name_is_illegal] has nothing against. *)
Definition legal_name (p : list ascii) : bool :=
  match p with
  | [] => false
  | c :: rest => c_isalnum c && forallb name_char rest
  end.

(** The complaint about the character [c]. *)
Definition not_allowed (c : ascii) : list ascii :=
  lit "character '" ++ [c]
  ++ lit "' not allowed (only letters, digits and characters '-+._')".

End ParseHelp.

(* ===================================================================== *)
(** * command.c: the helpers of [fixedCmd]                                *)
(* ===================================================================== *)

Module Helpers.
Import Command.

(** The tokens that [strtok(s, delim)] and then [strtok(NULL, delim)]
    return until NULL, for a one-character [delim]: the non-empty runs of
    other characters, in order. [cur] is the token being scanned,
    backwards. *)
Fixpoint strtok_scan (delim : ascii) (cur s : list ascii) : list (list ascii) :=
  match s with
  | [] => match cur with [] => [] | _ => [rev cur] end
  | c :: s' =>
      if Ascii.eqb c delim
      then match cur with
           | [] => strtok_scan delim [] s'
           | _ => rev cur :: strtok_scan delim [] s'
           end
      else strtok_scan delim (c :: cur) s'
  end.

Definition strtok_tokens (delim : ascii) (s : list ascii) : list (list ascii) :=
  strtok_scan delim [] s.

(** What is left, read from its start, of a string that [strtok] has
    taken apart in place: the text up to the end of the first token, the
    delimiter behind it being overwritten by the terminator. *)
Definition strtok_cut (delim : ascii) (s : list ascii) : list ascii :=
  let lead := span_len (fun c => Ascii.eqb c delim) s in
  take (lead + span_len (fun c => negb (Ascii.eqb c delim)) (drop lead s)) s.

Definition PROC_PIDPATHINFO_MAXSIZE : nat := 1024.

(** What [searchpath] leaves behind: the path it returns, or NULL, and
    the value of PATH afterwards. *)
Record search_result := {
  found : option (list ascii);
  path_after : option (list ascii);
}.

Section Files.

(** [file_exist(filename)]: whether [stat] succeeds; and what [fopen] and
    [getline] find: the bytes of the file, or NULL. *)
Variable file_exist : list ascii -> bool.
Variable contents : list ascii -> option (list ascii).

(** The loop of [searchpath] over the directories of PATH; each candidate
    is built in [char searchpth[1024]]. *)
Fixpoint search_dirs (binaryname : list ascii) (dirs : list (list ascii))
    : exec (option (list ascii)) :=
  match dirs with
  | [] => Done None
  | dir :: dirs' =>
      let searchpth := dir ++ lit "/" ++ binaryname in
      if decide (length searchpth < PROC_PIDPATHINFO_MAXSIZE)%nat
      then if file_exist searchpth then Done (Some searchpth)
           else search_dirs binaryname dirs'
      else Fault OutOfBounds
  end.

(** [searchpath(binaryname)]. [pathvar] is the value of PATH, NULL when
    it is not set; [saved] is the text that the last [strtok] call left to
    go on with (in [fixedCmd]: what follows the first word), NULL when
    there was no such call. A name with a slash is looked up as it is.
    Otherwise [strtok] takes PATH apart in place, which cuts it behind its
    first entry; on a NULL PATH it goes on with the saved text. *)
Definition searchpath (pathvar saved : option (list ascii))
    (binaryname : list ascii) : exec search_result :=
  if bool_decide (is_Some (strchr binaryname "/"))
  then Done {| found := if file_exist binaryname then Some binaryname else None;
               path_after := pathvar |}
  else
    match pathvar with
    | Some pv =>
        do r <- search_dirs binaryname (strtok_tokens ":" pv);
        Done {| found := r; path_after := Some (strtok_cut ":" pv) |}
    | None =>
        match saved with
        | Some rest =>
            do r <- search_dirs binaryname (strtok_tokens ":" rest);
            Done {| found := r; path_after := None |}
        | None => Fault NullDeref   (* strtok(NULL, ":") with nothing saved *)
        end
    end.

(** What [getline] reads: the bytes up to and with the first newline. *)
Definition first_line (bytes : list ascii) : list ascii :=
  take (S (span_len (fun c => negb (Ascii.eqb c "010")) bytes)) bytes.

(** [getInterpreter(path)]: the C string two bytes into the first line
    (it ends at the first NUL byte of the line, if there is one), of that
    the first [strtok] token between spaces, and of that the first token
    between newlines. A NULL from either [strtok] goes to [strlen]. *)
Definition getInterpreter (path : list ascii) : exec (list ascii) :=
  match contents path with
  | None => Fault NullDeref       (* getline(&line, &size, NULL) *)
  | Some bytes =>
      let interpreterLine := first_line bytes in
      if decide (length interpreterLine < 2)%nat then Fault UninitRead
      else
        match strtok_tokens " " (cstring_at interpreterLine 2) with
        | [] => Fault NullDeref
        | rawInterpreter :: _ =>
            match strtok_tokens "010" rawInterpreter with
            | [] => Fault NullDeref
            | rawInterpreter :: _ => Done rawInterpreter
            end
        end
  end.

End Files.

(** *** Vocabulary of the statements *)

(** The candidate [searchpath] builds for a directory. *)
Definition candidate (binaryname dir : list ascii) : list ascii :=
  dir ++ lit "/" ++ binaryname.

(** The directories [searchpath] goes through for a name without a
    slash: the entries of PATH, or of the saved text when PATH is NULL;
    [None] when there is neither. *)
Definition searched (pathvar saved : option (list ascii))
    : option (list (list ascii)) :=
  match pathvar with
  | Some pv => Some (strtok_tokens ":" pv)
  | None => strtok_tokens ":" <$> saved
  end.

(** A directory that [searchpath] has tried and passed: the candidate
    fits the buffer and does not exist. *)
Definition passed (file_exist : list ascii -> bool) (binaryname dir : list ascii)
    : Prop :=
  (length (candidate binaryname dir) < PROC_PIDPATHINFO_MAXSIZE)%nat
  /\ file_exist (candidate binaryname dir) = false.

(** The first word of a command line and the spaces before it: where
    [strtok] puts the terminator in [fixedCmd]. *)
Definition first_word_end (cmdStr : list ascii) : nat :=
  (span_len is_space cmdStr
   + span_len (fun c => negb (is_space c)) (drop (span_len is_space cmdStr) cmdStr))%nat.

(** The first word itself: what [strtok] returns in [fixedCmd]. *)
Definition first_word (cmdStr : list ascii) : list ascii :=
  let rest := drop (span_len is_space cmdStr) cmdStr in
  take (span_len (fun c => negb (is_space c)) rest) rest.

(** No NUL inside: the text is a C string as it stands. *)
Definition c_string (s : list ascii) : Prop := Spec.no_char NUL s = true.

End Helpers.

(* ===================================================================== *)
(** * fsys-hash.c: the forward iterator and the tables in use             *)
(* ===================================================================== *)

Module FsysIter.
Import Fsys.

(** [struct fsys_hash_iter]. [namenode] points at the node to return
    next: the bin and the position in its chain, or NULL. *)
Record fsys_hash_iter := {
  namenode : option (Z * nat);
  nbinn : Z;
}.

Definition fsys_hash_iter_new : fsys_hash_iter :=
  {| namenode := None; nbinn := 0 |}.

(** The loop [while (!iter->namenode)], entered with [namenode] NULL;
    [left] counts the bins from [nbinn] up to [BINS], and none left is
    [iter->nbinn >= BINS]. *)
Fixpoint next_bin (t : table) (left : nat) (nbinn : Z) : fsys_hash_iter :=
  match left with
  | O => {| namenode := None; nbinn := nbinn |}
  | S left' =>
      match bins t nbinn with
      | [] => next_bin t left' (nbinn + 1)
      | _ :: _ => {| namenode := Some (nbinn, O); nbinn := nbinn + 1 |}
      end
  end.

(** [fsys_hash_iter_next(iter)] on the table [t]: the node returned, or
    NULL, and the iterator afterwards. The outer [None] is an iterator
    whose [namenode] is not a node of [t]. *)
Definition fsys_hash_iter_next (t : table) (iter : fsys_hash_iter)
    : option (option fsys_namenode * fsys_hash_iter) :=
  let iter :=
    match namenode iter with
    | Some _ => iter
    | None => next_bin t (Z.to_nat (BINS - nbinn iter)) (nbinn iter)
    end in
  match namenode iter with
  | None => Some (None, iter)
  | Some (b, pos) =>
      match bins t b !! pos with
      | Some fnn =>
          (* iter->namenode = fnn->next *)
          Some (Some fnn,
                {| namenode := if decide (S pos < length (bins t b))%nat
                               then Some (b, S pos) else None;
                   nbinn := nbinn iter |})
      | None => None
      end
  end.

(** What [n] calls of [fsys_hash_iter_next] return, one after the other. *)
Fixpoint calls (t : table) (n : nat) (iter : fsys_hash_iter)
    : list (option fsys_namenode) :=
  match n with
  | O => []
  | S n' =>
      match fsys_hash_iter_next t iter with
      | Some (r, iter') => r :: calls t n' iter'
      | None => []
      end
  end.

(** *** Vocabulary of the statements *)

(** The nodes of the table: the chains of the bins 0 to [BINS - 1], one
    after the other. *)
Definition all_nodes (t : table) : list fsys_namenode :=
  concat (bins t <$> seqZ 0 BINS).

(** A node of this name is in the table. *)
Definition stored (t : table) (nm : list ascii) : Prop :=
  nm ∈ name <$> all_nodes t.

(** The same chains of names and the same count: what is left of a table
    when callers write to the other fields of the nodes they hold. *)
Definition same_names (t t' : table) : Prop :=
  nfiles t' = nfiles t /\ forall i, name <$> bins t' i = name <$> bins t i.

(** What a lookup with [FHFF_NONE] answers on [t], told on the table
    [t']. *)
Definition answer_on (t' : table) (r : find_result) : find_result :=
  match r with
  | FindNode b pos fnn _ => FindNode b pos fnn t'
  | FindNull _ => FindNull t'
  | FindInternerr fnn => FindInternerr fnn
  end.

(** The nodes that the iterator has still to return, with the bins from
    [nbinn] up to [e]. *)
Definition pending (t : table) (e : Z) (iter : fsys_hash_iter)
    : list fsys_namenode :=
  match namenode iter with
  | Some (b, pos) => drop pos (bins t b)
  | None => []
  end ++ concat (bins t <$> seqZ (nbinn iter) (e - nbinn iter)).

(** [namenode] points into its chain. *)
Definition valid (t : table) (iter : fsys_hash_iter) : Prop :=
  match namenode iter with
  | Some (b, pos) => (pos < length (bins t b))%nat
  | None => True
  end.

(** The name begins with a slash. *)
Definition slashed (fnn : fsys_namenode) : Prop :=
  exists tail, name fnn = "/"%char :: tail.

(** A hash for the examples: the length of the name. *)
Definition length_hash (s : list ascii) : Z := Z.of_nat (length s).

(** The table after the lookups of /usr/bin and /usr/lib, whose names
    fall into the same bin under [length_hash]. *)
Definition two_nodes : table :=
  match fsys_hash_find_node length_hash (lit "-") empty_table (lit "/usr/bin") 0 with
  | FindNode _ _ _ t1 =>
      match fsys_hash_find_node length_hash (lit "-") t1 (lit "/usr/lib") 0 with
      | FindNode _ _ _ t2 => t2
      | _ => t1
      end
  | _ => empty_table
  end.

Section Reach.

Variable str_fnv_hash : list ascii -> Z.
Variable EMPTYHASHFLAG : list ascii.

(** The tables that the functions of this file lead to, from the static
    one that the program starts with. *)
Inductive reachable : table -> Prop :=
| reach_start : reachable empty_table
| reach_find t orig_name find_flags b pos fnn t' :
    reachable t ->
    fsys_hash_find_node str_fnv_hash EMPTYHASHFLAG t orig_name find_flags
    = FindNode b pos fnn t' ->
    reachable t'
| reach_init t : reachable t -> reachable (fsys_hash_init EMPTYHASHFLAG t)
| reach_reset t : reachable t -> reachable (fsys_hash_reset t)
| reach_use t t' : reachable t -> same_names t t' -> reachable t'.

(** A name as [fsys_hash_find_node] stores it in bin [b]. *)
Definition good_name (b : Z) (nm : list ascii) : Prop :=
  exists n, nm = "/"%char :: n /\ normalized n = n
            /\ str_fnv_hash n mod BINS = b.

(** The count is the number of nodes, and every chain of the array
    holds good names for its bin, each once. *)
Definition table_inv (t : table) : Prop :=
  nfiles t = Z.of_nat (length (all_nodes t))
  /\ forall b, 0 <= b < BINS ->
       Forall (good_name b) (name <$> bins t b) /\ NoDup (name <$> bins t b).

End Reach.

End FsysIter.

(* ===================================================================== *)
(** * log.c                                                               *)
(* ===================================================================== *)

Module Log.

(** What the functions of log.c have done to the outside: the calls they
    made, in order. A stream is named by the path it was opened on. *)
Inductive event :=
| Fopen (path : list ascii)
| Notice (path : list ascii)
| Setlinebuf (stream : list ascii)
| SetcloexecFile (path : list ascii)
| Fprintf (stream text : list ascii)
| SetcloexecFd (fd : Z)
| FdWrite (fd : Z) (buf : list ascii)
| Ohshite (fd : Z).

(** The global [log_file] and the static [logfd] of [log_message]. *)
Record log_state := {
  log_file : option (list ascii);
  logfd : option (list ascii);
}.

Definition log_start : log_state := {| log_file := None; logfd := None |}.

(** [log_message(fmt, ...)]. [msg] is the text that [varbuf_vprintf]
    makes of the arguments, [time_str] what [strftime] makes of the time,
    and [opens] whether [fopen] returns a stream, should it be called. *)
Definition log_message (opens : bool) (time_str msg : list ascii)
    (s : log_state) : log_state * list event :=
  match log_file s with
  | None => (s, [])
  | Some path =>
      let text := time_str ++ lit " " ++ msg ++ ["010"%char] in
      match logfd s with
      | None =>
          if opens
          then ({| log_file := Some path; logfd := Some path |},
                [Fopen path; Setlinebuf path; SetcloexecFile path;
                 Fprintf path text])
          else ({| log_file := None; logfd := None |},
                [Fopen path; Notice path])
      | Some stream => (s, [Fprintf stream text])
      end
  end.

(** What the rest of the program does with this part of log.c: it
    assigns [log_file], and it logs. *)
Inductive log_call :=
| SetLogFile (path : option (list ascii))
| LogMessage (opens : bool) (time_str msg : list ascii).

Definition log_step (c : log_call) (s : log_state) : log_state * list event :=
  match c with
  | SetLogFile path => ({| log_file := path; logfd := logfd s |}, [])
  | LogMessage opens time_str msg => log_message opens time_str msg s
  end.

Fixpoint log_run (cs : list log_call) (s : log_state)
    : log_state * list event :=
  match cs with
  | [] => (s, [])
  | c :: cs' =>
      let '(s1, e1) := log_step c s in
      let '(s2, e2) := log_run cs' s1 in
      (s2, e1 ++ e2)
  end.

(** [statusfd_add(fd)] on the list [status_pipes]. *)
Definition statusfd_add (fd : Z) (status_pipes : list Z)
    : list Z * list event :=
  (fd :: status_pipes, [SetcloexecFd fd]).

(** How a call ends: it returns, or [ohshite] takes over. *)
Inductive outcome := Returned | Fatal.

(** The loop of [statusfd_send]; [fails i] is whether the [i]-th
    [fd_write] of the call returns a negative value. *)
Fixpoint write_all (buf : list ascii) (pipes : list Z) (fails : nat -> bool)
    (i : nat) : list event * outcome :=
  match pipes with
  | [] => ([], Returned)
  | fd :: pipes' =>
      if fails i then ([FdWrite fd buf; Ohshite fd], Fatal)
      else let '(e, o) := write_all buf pipes' fails (S i) in
           (FdWrite fd buf :: e, o)
  end.

Section Send.

(** [varbuf_map_char] of dpkg/varbuf.c is not under src/. *)
Variable varbuf_map_char : ascii -> ascii -> list ascii -> list ascii.

Definition statusfd_send (msg : list ascii) (fails : nat -> bool)
    (status_pipes : list Z) : list event * outcome :=
  match status_pipes with
  | [] => ([], Returned)
  | _ =>
      let vb := varbuf_map_char "010" " " msg ++ ["010"%char] in
      write_all vb status_pipes fails O
  end.

End Send.

(** *** Vocabulary of the statements *)

(** [status_pipes] after [statusfd_add] on each of [fds] in turn. *)
Definition added (fds : list Z) : list Z :=
  foldl (fun pipes fd => fst (statusfd_add fd pipes)) [] fds.

(** One [fd_write] of [buf] to each descriptor, in order. *)
Definition writes (buf : list ascii) (fds : list Z) : list event :=
  (fun fd => FdWrite fd buf) <$> fds.

(** The streams written to. *)
Definition streams (es : list event) : list (list ascii) :=
  omap (fun e => match e with Fprintf stream _ => Some stream | _ => None end) es.

Definition is_message (c : log_call) : Prop :=
  match c with LogMessage _ _ _ => True | SetLogFile _ => False end.

End Log.

(* ===================================================================== *)
(** * Facts about the string helpers                                      *)
(* ===================================================================== *)

Section SpanFacts.

Variable p : ascii -> bool.

Lemma span_len_le s : (span_len p s <= length s)%nat.
Proof. induction s as [|c s IH]; simpl; [lia|]. destruct (p c); simpl; lia. Qed.

Lemma span_len_all s : forallb p s = true -> span_len p s = length s.
Proof.
  induction s as [|c s IH]; simpl; [done|].
  intros [-> Hs]%andb_prop. by rewrite IH.
Qed.

Lemma span_len_app_stop l c t :
  p c = false -> span_len p (l ++ c :: t) = span_len p l.
Proof.
  intros Hc. induction l as [|x l IH]; simpl; [by rewrite Hc|].
  destruct (p x); [by rewrite IH|done].
Qed.

Lemma span_len_app_all l t :
  forallb p l = true -> span_len p (l ++ t) = (length l + span_len p t)%nat.
Proof.
  induction l as [|x l IH]; simpl; [done|].
  intros [-> Hl]%andb_prop. by rewrite IH.
Qed.

Lemma span_len_none s :
  forallb (fun c => negb (p c)) s = true -> span_len p s = O.
Proof.
  destruct s as [|c s]; simpl; [done|].
  intros [Hc _]%andb_prop. apply negb_true_iff in Hc. by rewrite Hc.
Qed.

Lemma span_len_take s : forallb p (take (span_len p s) s) = true.
Proof.
  induction s as [|c s IH]; simpl; [done|].
  destruct (p c) eqn:E; simpl; [by rewrite E|done].
Qed.

Lemma span_len_drop s c t : drop (span_len p s) s = c :: t -> p c = false.
Proof.
  induction s as [|x s IH]; simpl; [done|].
  destruct (p x) eqn:E; simpl; [done|]. by intros [= <- _].
Qed.

End SpanFacts.

Section SearchFacts.

Variable c : ascii.

Lemma strchr_none s : no_char c s = true -> strchr s c = None.
Proof.
  induction s as [|x s IH]; simpl; [done|].
  intros [Hx Hs]%andb_prop. apply negb_true_iff in Hx.
  by rewrite Hx, IH.
Qed.

Lemma strchr_first pre post :
  no_char c pre = true -> strchr (pre ++ c :: post) c = Some (length pre).
Proof.
  induction pre as [|x pre IH]; simpl.
  - by rewrite Ascii.eqb_refl.
  - intros [Hx Hs]%andb_prop. apply negb_true_iff in Hx.
    by rewrite Hx, IH.
Qed.

Lemma strchr_is_Some s : is_Some (strchr s c) <-> no_char c s = false.
Proof.
  induction s as [|x s IH]; simpl.
  - split; [by intros [? ?]|done].
  - destruct (Ascii.eqb x c); simpl; [by split; eauto|].
    rewrite <- IH. rewrite fmap_is_Some. done.
Qed.

Lemma strrchr_none s : no_char c s = true -> strrchr s c = None.
Proof.
  induction s as [|x s IH]; simpl; [done|].
  intros [Hx Hs]%andb_prop. apply negb_true_iff in Hx.
  by rewrite IH, Hx.
Qed.

Lemma strrchr_last u r :
  no_char c r = true -> strrchr (u ++ c :: r) c = Some (length u).
Proof.
  intros Hr. induction u as [|x u IH]; simpl.
  - by rewrite (strrchr_none r Hr), Ascii.eqb_refl.
  - by rewrite IH.
Qed.

Lemma no_char_app s t : no_char c (s ++ t) = no_char c s && no_char c t.
Proof. apply forallb_app. Qed.

End SearchFacts.

Lemma blank_no_colon s : all_blank s = true -> no_char ":" s = true.
Proof.
  induction s as [|x s IH]; simpl; [done|].
  intros [Hx Hs]%andb_prop. rewrite (IH Hs), andb_true_r.
  destruct x as [[] [] [] [] [] [] [] []]; done.
Qed.

Lemma digit_not_space c : c_isdigit c = true -> isspace c = false.
Proof. destruct c as [[] [] [] [] [] [] [] []]; done. Qed.

Lemma digit_not_blank c : c_isdigit c = true -> c_isblank c = false.
Proof. destruct c as [[] [] [] [] [] [] [] []]; done. Qed.

Lemma digit_not_sign c :
  c_isdigit c = true -> Ascii.eqb c "-" = false /\ Ascii.eqb c "+" = false.
Proof. destruct c as [[] [] [] [] [] [] [] []]; done. Qed.

Lemma digit_not_colon c : c_isdigit c = true -> Ascii.eqb c ":" = false.
Proof. destruct c as [[] [] [] [] [] [] [] []]; done. Qed.

Lemma digit_val_range c : c_isdigit c = true -> 0 <= digit_val c <= 9.
Proof. destruct c as [[] [] [] [] [] [] [] []]; try done; vm_compute; split; discriminate. Qed.

Lemma digit_char_val d : 0 <= d <= 9 -> digit_val (digit_char d) = d.
Proof.
  intros Hd. assert (Hc : d = 0 \/ d = 1 \/ d = 2 \/ d = 3 \/ d = 4 \/ d = 5
                       \/ d = 6 \/ d = 7 \/ d = 8 \/ d = 9) by lia.
  by repeat destruct Hc as [-> | Hc]; [..| subst d].
Qed.

Lemma digit_char_isdigit d : 0 <= d <= 9 -> c_isdigit (digit_char d) = true.
Proof.
  intros Hd. assert (Hc : d = 0 \/ d = 1 \/ d = 2 \/ d = 3 \/ d = 4 \/ d = 5
                       \/ d = 6 \/ d = 7 \/ d = 8 \/ d = 9) by lia.
  by repeat destruct Hc as [-> | Hc]; [..| subst d].
Qed.

(** ** Decimal rendering and [strtol] *)

Lemma digits_value_snoc ds d :
  digits_value (ds ++ [d]) = 10 * digits_value ds + digit_val d.
Proof. unfold digits_value. by rewrite fold_left_app. Qed.

Lemma digits_value_nonneg ds : forallb c_isdigit ds = true -> 0 <= digits_value ds.
Proof.
  induction ds as [|d ds IH] using rev_ind; [done|].
  rewrite forallb_app, digits_value_snoc. simpl.
  intros [Hds [Hd _]%andb_prop]%andb_prop.
  specialize (IH Hds). pose proof (digit_val_range d Hd). lia.
Qed.

Lemma rev_digits_range fuel n :
  0 <= n -> Forall (fun d => 0 <= d <= 9) (rev_digits fuel n).
Proof.
  revert n. induction fuel as [|fuel IH]; simpl; intros n Hn; [constructor|].
  constructor; [pose proof (Z.mod_pos_bound n 10); lia|].
  destruct (n <? 10); [constructor|]. apply IH. apply Z.div_pos; lia.
Qed.

Lemma rev_digits_value fuel n :
  0 <= n < 10 ^ Z.of_nat fuel ->
  digits_value (rev (map digit_char (rev_digits fuel n))) = n.
Proof.
  revert n. induction fuel as [|fuel IH]; intros n Hn.
  - change (0 <= n < 1) in Hn. cbn. lia.
  - simpl. rewrite digits_value_snoc.
    rewrite digit_char_val by (pose proof (Z.mod_pos_bound n 10); lia).
    destruct (n <? 10) eqn:E.
    + apply Z.ltb_lt in E. rewrite Z.mod_small by lia.
      change (digits_value (rev (map digit_char []))) with 0. lia.
    + apply Z.ltb_ge in E. rewrite IH.
      * pose proof (Z.div_mod n 10). lia.
      * rewrite Nat2Z.inj_succ, Z.pow_succ_r in Hn by lia.
        split; [apply Z.div_pos; lia|]. apply Z.div_lt_upper_bound; lia.
Qed.

Lemma fmt_u_value n : 0 <= n <= UINT_MAX -> digits_value (fmt_u n) = n.
Proof. intros Hn. apply rev_digits_value. unfold UINT_MAX in Hn. simpl. lia. Qed.

Lemma fmt_u_digits n : 0 <= n -> forallb c_isdigit (fmt_u n) = true.
Proof.
  intros Hn. unfold fmt_u. apply forallb_forall. intros c Hc.
  apply in_rev, in_map_iff in Hc as (d & <- & Hd).
  apply digit_char_isdigit.
  pose proof (rev_digits_range 10 n Hn) as HF.
  rewrite Forall_forall in HF. apply HF. by apply list_elem_of_In.
Qed.

Lemma fmt_u_nonempty n : fmt_u n <> [].
Proof.
  unfold fmt_u. simpl. intros H. apply (f_equal length) in H.
  rewrite length_app in H. simpl in H. lia.
Qed.

Lemma digits_no_colon ds : forallb c_isdigit ds = true -> no_char ":" ds = true.
Proof.
  induction ds as [|d ds IH]; simpl; [done|].
  intros [Hd Hds]%andb_prop. by rewrite (digit_not_colon d Hd), IH.
Qed.

Lemma digits_no_blank ds : forallb c_isdigit ds = true -> no_blank ds = true.
Proof.
  induction ds as [|d ds IH]; simpl; [done|].
  intros [Hd Hds]%andb_prop. by rewrite (digit_not_blank d Hd), IH.
Qed.

(** [strtol] stops at a colon: what follows it does not matter. *)
Lemma strtol_digits_colon neg off s rest :
  strtol_digits neg off (s ++ ":"%char :: rest) = strtol_digits neg off s.
Proof.
  unfold strtol_digits.
  rewrite (span_len_app_stop c_isdigit s ":" rest) by done.
  pose proof (span_len_le c_isdigit s).
  by rewrite take_app_le.
Qed.

Lemma strtol10_colon pre rest :
  no_char ":" pre = true -> strtol10 (pre ++ ":"%char :: rest) = strtol10 pre.
Proof.
  intros Hpre. unfold strtol10.
  rewrite (span_len_app_stop isspace pre ":" rest) by done.
  pose proof (span_len_le isspace pre) as Hws.
  rewrite drop_app_le by done.
  destruct (drop (span_len isspace pre) pre) as [|c s1]; simpl.
  - apply (strtol_digits_colon false _ [] rest).
  - destruct (Ascii.eqb c "-"); [apply strtol_digits_colon|].
    destruct (Ascii.eqb c "+"); [apply strtol_digits_colon|].
    apply (strtol_digits_colon false _ (c :: s1) rest).
Qed.

Lemma strtol_digits_end_le neg off s :
  (st_end (strtol_digits neg off s) <= off + length s)%nat.
Proof.
  unfold strtol_digits. pose proof (span_len_le c_isdigit s).
  destruct (span_len c_isdigit s); simpl; [lia|].
  repeat case_match; simpl; lia.
Qed.

Lemma strtol10_end_le s : (st_end (strtol10 s) <= length s)%nat.
Proof.
  unfold strtol10.
  pose proof (span_len_le isspace s) as Hws.
  assert (Hlen : length (drop (span_len isspace s) s)
                 = (length s - span_len isspace s)%nat) by apply length_drop.
  destruct (drop (span_len isspace s) s) as [|c s1]; simpl in Hlen.
  - pose proof (strtol_digits_end_le false (span_len isspace s) []). simpl in *. lia.
  - destruct (Ascii.eqb c "-");
      [pose proof (strtol_digits_end_le true (S (span_len isspace s)) s1); lia|].
    destruct (Ascii.eqb c "+");
      [pose proof (strtol_digits_end_le false (S (span_len isspace s)) s1); lia|].
    pose proof (strtol_digits_end_le false (span_len isspace s) (c :: s1)).
    simpl in *. lia.
Qed.

Lemma strtol10_digits ds :
  ds <> [] -> forallb c_isdigit ds = true -> digits_value ds <= LONG_MAX ->
  strtol10 ds
  = {| st_value := digits_value ds; st_end := length ds; st_erange := false |}.
Proof.
  intros Hne Hds Hmax. unfold strtol10.
  destruct ds as [|d ds]; [done|].
  pose proof Hds as Hds'. simpl in Hds'. apply andb_prop in Hds' as [Hd _].
  simpl span_len. rewrite (digit_not_space d Hd). simpl drop.
  destruct (digit_not_sign d Hd) as [-> ->].
  unfold strtol_digits. rewrite (span_len_all _ _ Hds).
  rewrite firstn_all. simpl length.
  pose proof (digits_value_nonneg _ Hds).
  destruct (LONG_MAX <? _) eqn:E1; [apply Z.ltb_lt in E1; lia|].
  destruct (_ <? LONG_MIN) eqn:E2;
    [apply Z.ltb_lt in E2; unfold LONG_MIN in E2; lia|].
  done.
Qed.

(* ===================================================================== *)
(** * parsehelp.c: the stages of [parseversion]                           *)
(* ===================================================================== *)

(** A blank-free, non-empty token between blanks reaches the epoch stage
    with [end] right behind it. *)
Lemma parseversion_token rv b1 tok b2 :
  all_blank b1 = true -> all_blank b2 = true ->
  tok <> [] -> no_blank tok = true ->
  parseversion rv (b1 ++ tok ++ b2) = parse_epoch rv (tok ++ b2) (length tok).
Proof.
  intros Hb1 Hb2 Hne Htok. unfold parseversion.
  assert (H0 : span_len c_isblank (tok ++ b2) = O).
  { destruct tok as [|c tok]; [done|]. simpl in *.
    apply andb_prop in Htok as [Hc _]. apply negb_true_iff in Hc. by rewrite Hc. }
  rewrite (span_len_app_all c_isblank b1) by done.
  rewrite H0, Nat.add_0_r, drop_app_length.
  destruct (tok ++ b2) as [|c s] eqn:Es; [by destruct tok|]. rewrite <- Es.
  rewrite (span_len_app_all (fun c => negb (c_isblank c)) tok) by done.
  assert (H1 : span_len (fun c => negb (c_isblank c)) b2 = O).
  { destruct b2 as [|x b2]; [done|]. simpl in *.
    apply andb_prop in Hb2 as [-> _]. done. }
  rewrite H1, Nat.add_0_r, drop_app_length.
  rewrite (span_len_all c_isblank b2) by done.
  replace (length tok + length b2)%nat with (length (tok ++ b2))
    by (rewrite length_app; lia).
  by rewrite drop_all.
Qed.

(** Without a colon the epoch is zero and the whole token is split. *)
Lemma parse_epoch_no_colon rv tok b2 :
  all_blank b2 = true -> no_char ":" tok = true ->
  parse_epoch rv (tok ++ b2) (length tok)
  = split_revision
      {| epoch := 0; version := version rv; revision := revision rv |} tok.
Proof.
  intros Hb2 Htok. unfold parse_epoch.
  rewrite strchr_none by (by rewrite no_char_app, Htok, blank_no_colon).
  by rewrite take_app_length.
Qed.

(** With a colon, [strtol] is judged on the text before the first one. *)
Lemma parse_epoch_colon rv pre post b2 :
  no_char ":" pre = true ->
  parse_epoch rv ((pre ++ ":"%char :: post) ++ b2) (length (pre ++ ":"%char :: post))
  = let n := strtol10 pre in
    if decide (st_end n = O)
    then fail rv (dpkg_put_error "epoch in version is empty")
    else if decide (st_end n <> length pre)
    then fail rv (dpkg_put_error "epoch in version is not number")
    else if st_value n <? 0
    then fail rv (dpkg_put_error "epoch in version is negative")
    else if (INT_MAX <? st_value n) || st_erange n
    then fail rv (dpkg_put_error "epoch in version is too big")
    else
      match post ++ b2 with
      | [] => fail rv (dpkg_put_error "nothing after colon in version number")
      | _ =>
          split_revision
            {| epoch := st_value n; version := version rv; revision := revision rv |}
            post
      end.
Proof.
  intros Hpre. unfold parse_epoch.
  rewrite <- app_assoc. simpl app.
  rewrite strchr_first, strtol10_colon by done. simpl.
  destruct (decide (st_end (strtol10 pre) = O)); [done|].
  destruct (decide (length pre <> st_end (strtol10 pre))) as [Hd|Hd];
    destruct (decide (st_end (strtol10 pre) <> length pre)) as [Hd'|Hd'];
    try done; try congruence.
  destruct (st_value (strtol10 pre) <? 0); [done|].
  destruct ((INT_MAX <? st_value (strtol10 pre)) || st_erange (strtol10 pre)); [done|].
  replace (drop (S (length pre)) (pre ++ ":"%char :: post ++ b2)) with (post ++ b2).
  2:{ replace (S (length pre)) with (length pre + 1)%nat by lia.
      rewrite <- drop_drop, drop_app_length. done. }
  destruct (post ++ b2) eqn:E; [done|]. rewrite <- E.
  rewrite length_app. simpl length.
  replace (length pre + S (length post) - S (length pre))%nat with (length post) by lia.
  by rewrite take_app_length.
Qed.

(** The version structure that the syntax checks see is the one returned. *)
Lemma check_syntax_rversion rv ver rev : rversion (check_syntax rv ver rev) = rv.
Proof. unfold check_syntax. by repeat case_match. Qed.

Lemma split_revision_epoch rv text :
  epoch (rversion (split_revision rv text)) = epoch rv.
Proof.
  unfold split_revision. repeat case_match; subst;
    rewrite ?check_syntax_rversion; done.
Qed.

Lemma split_revision_none rv rest :
  no_char "-" rest = true ->
  split_revision rv rest
  = check_syntax {| epoch := epoch rv; version := Some rest; revision := Some [] |}
      rest [].
Proof. intros H. unfold split_revision. by rewrite strrchr_none. Qed.

Lemma split_revision_some rv u rev :
  no_char "-" rev = true -> rev <> [] ->
  split_revision rv (u ++ "-"%char :: rev)
  = check_syntax {| epoch := epoch rv; version := Some u; revision := Some rev |}
      u rev.
Proof.
  intros H Hne. unfold split_revision. rewrite strrchr_last by done.
  rewrite take_app_length.
  replace (drop (S (length u)) (u ++ "-"%char :: rev)) with rev.
  2:{ replace (S (length u)) with (length u + 1)%nat by lia.
      by rewrite <- drop_drop, drop_app_length. }
  by destruct rev.
Qed.

Lemma split_revision_empty rv u :
  split_revision rv (u ++ ["-"%char])
  = fail {| epoch := epoch rv; version := Some u; revision := revision rv |}
      (dpkg_put_error "revision number is empty").
Proof.
  unfold split_revision. rewrite strrchr_last by done.
  rewrite take_app_length.
  replace (drop (S (length u)) (u ++ ["-"%char])) with (@nil ascii); [done|].
  replace (S (length u)) with (length u + 1)%nat by lia.
  by rewrite <- drop_drop, drop_app_length.
Qed.

Lemma check_syntax_ok rv c ptr rev :
  c_isdigit c = true -> forallb valid_version_char ptr = true ->
  forallb valid_revision_char rev = true ->
  check_syntax rv (c :: ptr) rev = {| rc := 0; rversion := rv; err := None |}.
Proof. intros Hc Hp Hr. unfold check_syntax. by rewrite Hc, Hp, Hr. Qed.

(** ** Grading of the messages *)

Ltac pick_msg := simpl; repeat (first [by left | right]).

Lemma graded_error rv msg :
  In msg hard_errors -> graded (fail rv (dpkg_put_error msg)).
Proof. intros H. split; [done|]. by right. Qed.

Lemma graded_warn rv msg :
  In msg warnings -> graded (fail rv (dpkg_put_warn msg)).
Proof. intros H. split; [done|]. by left. Qed.

Lemma check_syntax_graded rv ver rev : graded (check_syntax rv ver rev).
Proof.
  unfold check_syntax.
  repeat case_match; first [done | apply graded_error | apply graded_warn]; pick_msg.
Qed.

Lemma split_revision_graded rv text : graded (split_revision rv text).
Proof.
  unfold split_revision.
  repeat case_match; first [apply check_syntax_graded | apply graded_error]; pick_msg.
Qed.

Lemma parse_epoch_graded rv s e : graded (parse_epoch rv s e).
Proof.
  unfold parse_epoch.
  repeat case_match; first [apply split_revision_graded | apply graded_error]; pick_msg.
Qed.

Lemma parseversion_graded rv s : graded (parseversion rv s).
Proof.
  unfold parseversion.
  repeat case_match; first [apply parse_epoch_graded | apply graded_error]; pick_msg.
Qed.

Lemma check_syntax_late rv ver rev e :
  err (check_syntax rv ver rev) = Some e -> In (str e) late_errors.
Proof.
  unfold check_syntax. repeat case_match; simpl; intros [= <-]; pick_msg.
Qed.

Lemma split_revision_late rv text e :
  err (split_revision rv text) = Some e -> In (str e) late_errors.
Proof.
  unfold split_revision. repeat case_match; try apply check_syntax_late.
  simpl; intros [= <-]; pick_msg.
Qed.

Lemma late_not_epoch msg : In msg late_errors -> ~ In msg epoch_errors.
Proof.
  simpl. intros H1 H2.
  repeat destruct H1 as [<- | H1]; try done;
    repeat destruct H2 as [H2 | H2]; done.
Qed.

(* ===================================================================== *)
(** * parsehelp.c: the claims                                             *)
(* ===================================================================== *)

(** ** From the token to the syntax checks *)

Lemma after_epoch_stage rv tok b2 e rest :
  all_blank b2 = true -> after_epoch tok e rest -> rest <> [] ->
  exists rv',
    parse_epoch rv (tok ++ b2) (length tok) = split_revision rv' rest
    /\ epoch rv' = e.
Proof.
  intros Hb2 [(Hnc & -> & ->)|(pre & -> & Hpre & Hpne & Hrne & Hn & He)] Hrest.
  - eexists. by rewrite parse_epoch_no_colon.
  - eexists. rewrite parse_epoch_colon, Hn by done. simpl.
    destruct (decide (length pre = O)); [by destruct pre|].
    destruct (decide (length pre <> length pre)); [done|].
    destruct (e <? 0) eqn:E1; [apply Z.ltb_lt in E1; lia|].
    destruct (INT_MAX <? e) eqn:E2; [apply Z.ltb_lt in E2; lia|].
    simpl. destruct (rest ++ b2) eqn:E; [by destruct rest|]. done.
Qed.

Lemma split_at_last_hyphen_stage rv rest u rev :
  split_at_last_hyphen rest u rev ->
  split_revision rv rest
  = check_syntax {| epoch := epoch rv; version := Some u; revision := Some rev |}
      u rev.
Proof.
  intros (-> & Hrev & Hu). destruct rev as [|c rev]; simpl.
  - rewrite app_nil_r. by apply split_revision_none, Hu.
  - by apply split_revision_some.
Qed.

Lemma forallb_witness {A} (f : A -> bool) l x :
  x ∈ l -> f x = false -> forallb f l = false.
Proof.
  intros Hx Hf. destruct (forallb f l) eqn:E; [|done].
  rewrite forallb_forall in E. rewrite <- (E x), Hf; [done|].
  by apply list_elem_of_In.
Qed.

Lemma parse_db_version_graded ps rv value :
  match err (parseversion rv value) with
  | None =>
      rc (parseversion rv value) = 0
      /\ parse_db_version ps rv value = DbParsed (rversion (parseversion rv value))
  | Some e =>
      rc (parseversion rv value) = -1
      /\ ((type e = DPKG_MSG_WARN /\ In (str e) warnings)
          \/ (type e = DPKG_MSG_ERROR /\ In (str e) hard_errors))
      /\ parse_db_version ps rv value
         = if bool_decide (type e = DPKG_MSG_WARN) && ps_lax_version_parser ps
           then DbWarned (rversion (parseversion rv value)) (str e)
           else DbFatal (str e)
  end.
Proof.
  pose proof (parseversion_graded rv value) as Hg.
  unfold graded in Hg. unfold parse_db_version.
  destruct (err (parseversion rv value)) as [e|].
  - destruct Hg as [Hrc Hlvl]. rewrite Hrc. simpl.
    split; [done|]. split; [done|].
    destruct Hlvl as [[-> _]|[-> _]]; simpl; [|done].
    by destruct (ps_lax_version_parser ps).
  - by rewrite Hg.
Qed.

(** C4. Take a blank-free token between blanks whose epoch prefix is
    accepted and whose remaining text, cut at its last hyphen, has a
    non-empty upstream [u] and the revision [rev]. If [u] does not start
    with a digit, the parse ends in the warning "version number does not
    start with digit"; if it does and a later character of [u] is not a
    digit, a letter or one of [.-+~:], in "invalid character in version
    number"; if [u] is in order and a character of [rev] is not a digit, a
    letter or one of [.+~], in "invalid character in revision number". In
    each case the return code is -1, the level is a warning, the version is
    stored, and [parse_db_version] warns and returns under the lax flag and
    is fatal without it. With none of the three, the parse succeeds. For
    any string at all, a failure is either one of these three warnings or
    an error of the other messages, and an error is fatal whatever the
    flag. *)
Theorem parse_db_version_lax ps rv b1 tok b2 e rest u rev :
  all_blank b1 = true -> all_blank b2 = true -> no_blank tok = true ->
  after_epoch tok e rest -> split_at_last_hyphen rest u rev -> u <> [] ->
  let s := b1 ++ tok ++ b2 in
  let v := {| epoch := e; version := Some u; revision := Some rev |} in
  (forall c ptr,
     u = c :: ptr -> c_isdigit c = false ->
     warned_with ps rv s v "version number does not start with digit")
  /\ (forall c ptr x,
        u = c :: ptr -> c_isdigit c = true ->
        x ∈ ptr -> valid_version_char x = false ->
        warned_with ps rv s v "invalid character in version number")
  /\ (forall c ptr x,
        u = c :: ptr -> c_isdigit c = true ->
        forallb valid_version_char ptr = true ->
        x ∈ rev -> valid_revision_char x = false ->
        warned_with ps rv s v "invalid character in revision number")
  /\ (well_formed v = true ->
      parseversion rv s = {| rc := 0; rversion := v; err := None |}
      /\ parse_db_version ps rv s = DbParsed v)
  /\ (forall value,
        match err (parseversion rv value) with
        | None =>
            rc (parseversion rv value) = 0
            /\ parse_db_version ps rv value
               = DbParsed (rversion (parseversion rv value))
        | Some e =>
            rc (parseversion rv value) = -1
            /\ ((type e = DPKG_MSG_WARN /\ In (str e) warnings)
                \/ (type e = DPKG_MSG_ERROR /\ In (str e) hard_errors))
            /\ parse_db_version ps rv value
               = if bool_decide (type e = DPKG_MSG_WARN)
                    && ps_lax_version_parser ps
                 then DbWarned (rversion (parseversion rv value)) (str e)
                 else DbFatal (str e)
        end).
Proof.
  intros Hb1 Hb2 Htok Hafter Hsplit Hu s v.
  assert (Hrest : rest <> []).
  { destruct Hsplit as (-> & _). by destruct u. }
  assert (Hne : tok <> []).
  { destruct Hafter as [(_ & _ & <-)|(pre & -> & _)]; [done|by destruct pre]. }
  assert (Hparse : parseversion rv s = check_syntax v u rev).
  { subst s. rewrite parseversion_token by done.
    destruct (after_epoch_stage rv tok b2 e rest Hb2 Hafter Hrest)
      as (rv' & -> & <-).
    by apply split_at_last_hyphen_stage. }
  assert (Hwarn : forall msg,
            check_syntax v u rev = fail v (dpkg_put_warn msg) ->
            warned_with ps rv s v msg).
  { intros msg Hc. unfold warned_with, parse_db_version.
    rewrite Hparse, Hc. simpl. done. }
  split; [|split; [|split; [|split]]].
  - intros c ptr -> Hc. apply Hwarn. unfold check_syntax. by rewrite Hc.
  - intros c ptr x -> Hc Hx Hbad. apply Hwarn. unfold check_syntax.
    by rewrite Hc, (forallb_witness _ _ _ Hx Hbad).
  - intros c ptr x -> Hc Hptr Hx Hbad. apply Hwarn. unfold check_syntax.
    by rewrite Hc, Hptr, (forallb_witness _ _ _ Hx Hbad).
  - intros Hwf. unfold parse_db_version. rewrite Hparse.
    unfold well_formed, v, upstream_of, revision_of in Hwf. simpl in Hwf.
    destruct u as [|c ptr]; [done|].
    apply andb_prop in Hwf as [[Hc Hptr]%andb_prop Hrev].
    by rewrite check_syntax_ok.
  - intros value. apply parse_db_version_graded.
Qed.

(** A witness of C4: " 1:a.0-x " under the lax flag and without it. *)
Lemma parse_db_version_lax_witness :
  let v := {| epoch := 1; version := Some (lit "a.0"); revision := Some (lit "x") |} in
  parse_db_version {| ps_lax_version_parser := true |} blank_version
    (lit " 1:a.0-x ")
  = DbWarned v "version number does not start with digit"
  /\ parse_db_version {| ps_lax_version_parser := false |} blank_version
       (lit " 1:a.0-x ")
     = DbFatal "version number does not start with digit".
Proof.
  intros v.
  assert (Hafter : after_epoch (lit "1:a.0-x") 1 (lit "a.0-x")).
  { right. exists (lit "1").
    repeat split; [discriminate | discriminate | vm_compute; discriminate
                  | vm_compute; discriminate]. }
  assert (Hsplit : split_at_last_hyphen (lit "a.0-x") (lit "a.0") (lit "x")).
  { repeat split; discriminate. }
  split.
  - destruct (parse_db_version_lax {| ps_lax_version_parser := true |}
                blank_version (lit " ") (lit "1:a.0-x") (lit " ") 1
                (lit "a.0-x") (lit "a.0") (lit "x"))
      as (H & _); [reflexivity | reflexivity | reflexivity | exact Hafter
                  | exact Hsplit | discriminate |].
    destruct (H "a"%char (lit ".0")) as [_ Hdb]; [reflexivity | reflexivity |].
    exact Hdb.
  - destruct (parse_db_version_lax {| ps_lax_version_parser := false |}
                blank_version (lit " ") (lit "1:a.0-x") (lit " ") 1
                (lit "a.0-x") (lit "a.0") (lit "x"))
      as (H & _); [reflexivity | reflexivity | reflexivity | exact Hafter
                  | exact Hsplit | discriminate |].
    destruct (H "a"%char (lit ".0")) as [_ Hdb]; [reflexivity | reflexivity |].
    exact Hdb.
Defined.

(** ** The text in front of the colon *)

Lemma strtol_digits_text neg off ds junk :
  forallb c_isdigit ds = true ->
  (forall c, head junk = Some c -> c_isdigit c = false) ->
  strtol_digits neg off (ds ++ junk)
  = match ds with
    | [] => {| st_value := 0; st_end := O; st_erange := false |}
    | _ =>
        let v := if neg then - digits_value ds else digits_value ds in
        let e := (off + length ds)%nat in
        if LONG_MAX <? v
        then {| st_value := LONG_MAX; st_end := e; st_erange := true |}
        else if v <? LONG_MIN
        then {| st_value := LONG_MIN; st_end := e; st_erange := true |}
        else {| st_value := v; st_end := e; st_erange := false |}
    end.
Proof.
  intros Hds Hjunk. unfold strtol_digits.
  assert (Hspan : span_len c_isdigit (ds ++ junk) = length ds).
  { destruct junk as [|c junk].
    - rewrite app_nil_r. by apply span_len_all.
    - rewrite span_len_app_stop by (by apply Hjunk). by apply span_len_all. }
  rewrite Hspan, take_app_length.
  by destruct ds.
Qed.

Lemma strtol10_text pre ws sg ds junk :
  epoch_text pre ws sg ds junk ->
  strtol10 pre
  = strtol_digits (bool_decide (sg = ["-"%char]))
      (length ws + length sg) (ds ++ junk).
Proof.
  intros (-> & Hws & Hsg & Hds & Hnsp & Hnsg & Hjunk). unfold strtol10.
  assert (Hspan : span_len isspace (ws ++ sg ++ ds ++ junk) = length ws).
  { rewrite span_len_app_all by done.
    destruct (sg ++ ds ++ junk) as [|c t] eqn:E; simpl; [lia|].
    rewrite (Hnsp c eq_refl). lia. }
  rewrite Hspan, drop_app_length.
  destruct Hsg as [->|[->| ->]]; simpl.
  - rewrite Nat.add_0_r. destruct (Hnsg eq_refl) as [Hplus Hminus].
    destruct (ds ++ junk) as [|c t] eqn:E; [done|].
    simpl in Hplus, Hminus.
    destruct (Ascii.eqb c "-") eqn:E1; [apply Ascii.eqb_eq in E1; by subst|].
    destruct (Ascii.eqb c "+") eqn:E2; [apply Ascii.eqb_eq in E2; by subst|].
    done.
  - f_equal. lia.
  - f_equal. lia.
Qed.

Lemma epoch_text_exists pre :
  exists ws sg ds junk, epoch_text pre ws sg ds junk.
Proof.
  set (ws := take (span_len isspace pre) pre).
  set (r1 := drop (span_len isspace pre) pre).
  assert (Hnsp : forall c, head r1 = Some c -> isspace c = false).
  { intros c Hc. destruct r1 as [|x t] eqn:E; [done|]. injection Hc as ->.
    by apply (span_len_drop isspace pre c t). }
  assert (Hshape : forall sg r2,
            r1 = sg ++ r2 ->
            (sg = [] \/ sg = ["+"%char] \/ sg = ["-"%char]) ->
            (sg = [] -> head r2 <> Some "+"%char /\ head r2 <> Some "-"%char) ->
            epoch_text pre ws sg (take (span_len c_isdigit r2) r2)
              (drop (span_len c_isdigit r2) r2)).
  { intros sg r2 Hr1 Hsg Hsign. unfold epoch_text.
    rewrite take_drop, <- Hr1. subst ws r1. rewrite take_drop.
    split; [done|]. split; [apply span_len_take|]. split; [done|].
    split; [apply span_len_take|]. split; [done|]. split; [done|].
    intros c Hc.
    destruct (drop (span_len c_isdigit r2) r2) as [|x t] eqn:E; [done|].
    injection Hc as ->. by apply (span_len_drop c_isdigit r2 c t). }
  destruct r1 as [|c t] eqn:E.
  { eexists ws, [], _, _. apply (Hshape [] []); [done|by left|by split]. }
  destruct (Ascii.eqb c "+") eqn:E1.
  { apply Ascii.eqb_eq in E1 as ->. eexists ws, ["+"%char], _, _.
    apply (Hshape ["+"%char] t); [done|by right; left|done]. }
  destruct (Ascii.eqb c "-") eqn:E2.
  { apply Ascii.eqb_eq in E2 as ->. eexists ws, ["-"%char], _, _.
    apply (Hshape ["-"%char] t); [done|by right; right|done]. }
  eexists ws, [], _, _. apply (Hshape [] (c :: t)); [done|by left|].
  intros _. simpl. split; intros [= ->]; by rewrite Ascii.eqb_refl in *.
Qed.

(** With digits read, the outcome is decided by what is left in front of
    the colon, the sign and the number. *)
Lemma parse_epoch_number rv pre post b2 ws sg ds junk :
  no_char ":" pre = true -> epoch_text pre ws sg ds junk -> ds <> [] ->
  parse_epoch rv ((pre ++ ":"%char :: post) ++ b2) (length (pre ++ ":"%char :: post))
  = if negb (is_nil junk)
    then fail rv (dpkg_put_error "epoch in version is not number")
    else if bool_decide (sg = ["-"%char]) && (0 <? digits_value ds)
    then fail rv (dpkg_put_error "epoch in version is negative")
    else if INT_MAX <? digits_value ds
    then fail rv (dpkg_put_error "epoch in version is too big")
    else
      match post ++ b2 with
      | [] => fail rv (dpkg_put_error "nothing after colon in version number")
      | _ =>
          split_revision
            {| epoch := digits_value ds; version := version rv;
               revision := revision rv |} post
      end.
Proof.
  intros Hpre Htext Hne.
  rewrite parse_epoch_colon by done.
  rewrite (strtol10_text _ _ _ _ _ Htext).
  destruct Htext as (Hshape & Hws & Hsg & Hds & Hnsp & Hnsg & Hjunk).
  rewrite (strtol_digits_text _ _ _ _ Hds Hjunk).
  assert (Hlen : length pre
                 = (length ws + length sg + length ds + length junk)%nat).
  { rewrite Hshape, !length_app. lia. }
  pose proof (digits_value_nonneg _ Hds) as Hpos.
  assert (Hdlen : (0 < length ds)%nat) by (destruct ds; [done|simpl; lia]).
  destruct ds as [|d ds']; [done|].
  remember (d :: ds') as ds eqn:Eds. clear Eds d ds'.
  set (n := digits_value ds) in *.
  set (off := (length ws + length sg + length ds)%nat).
  assert (Hoff : off <> O) by (subst off; lia).
  assert (Hjl : off = length pre <-> junk = []).
  { subst off. split; [|intros ->; simpl in Hlen; lia].
    destruct junk; [done|]. simpl in Hlen. lia. }
  assert (Hstep : forall v er,
    (let n0 := {| st_value := v; st_end := off; st_erange := er |} in
     if decide (st_end n0 = O)
     then fail rv (dpkg_put_error "epoch in version is empty")
     else if decide (st_end n0 <> length pre)
     then fail rv (dpkg_put_error "epoch in version is not number")
     else if st_value n0 <? 0
     then fail rv (dpkg_put_error "epoch in version is negative")
     else if (INT_MAX <? st_value n0) || st_erange n0
     then fail rv (dpkg_put_error "epoch in version is too big")
     else match post ++ b2 with
          | [] => fail rv (dpkg_put_error "nothing after colon in version number")
          | _ => split_revision
                   {| epoch := st_value n0; version := version rv;
                      revision := revision rv |} post
          end)
    = if negb (is_nil junk)
      then fail rv (dpkg_put_error "epoch in version is not number")
      else if v <? 0
      then fail rv (dpkg_put_error "epoch in version is negative")
      else if (INT_MAX <? v) || er
      then fail rv (dpkg_put_error "epoch in version is too big")
      else match post ++ b2 with
           | [] => fail rv (dpkg_put_error "nothing after colon in version number")
           | _ => split_revision
                    {| epoch := v; version := version rv;
                       revision := revision rv |} post
           end).
  { intros v er. cbv zeta. cbn [st_end st_value st_erange].
    destruct (decide (off = O)); [done|].
    destruct (decide (off <> length pre)) as [Hd|Hd].
    - destruct junk; [|done]. exfalso. apply Hd. by apply Hjl.
    - destruct junk; [done|]. exfalso. apply Hd. intros H. by apply Hjl in H. }
  unfold LONG_MAX, LONG_MIN, INT_MAX in *.
  assert (Hcmp : forall a b, (a <? b) = bool_decide (a < b)).
  { intros a b. destruct (Z.ltb_spec a b);
      [by rewrite bool_decide_eq_true_2|by rewrite bool_decide_eq_false_2 by lia]. }
  cbv zeta. fold n. fold off.
  destruct (bool_decide (sg = ["-"%char])) eqn:Eneg; cbn [andb].
  - destruct (2 ^ 63 - 1 <? - n) eqn:E1; [apply Z.ltb_lt in E1; lia|].
    destruct (- n <? - 2 ^ 63) eqn:E2.
    + apply Z.ltb_lt in E2. rewrite (Hstep (- 2 ^ 63) true).
      destruct (negb (is_nil junk)); [done|].
      rewrite !Hcmp. rewrite (bool_decide_eq_true_2 (0 < n)) by lia. done.
    + apply Z.ltb_ge in E2. rewrite (Hstep (- n) false).
      destruct (negb (is_nil junk)); [done|].
      rewrite !Hcmp, orb_false_r.
      destruct (decide (0 < n)) as [Hn|Hn].
      * by rewrite (bool_decide_eq_true_2 (- n < 0)),
          (bool_decide_eq_true_2 (0 < n)) by lia.
      * assert (n = 0) as -> by lia. done.
  - destruct (2 ^ 63 - 1 <? n) eqn:E1.
    + apply Z.ltb_lt in E1. rewrite (Hstep (2 ^ 63 - 1) true).
      destruct (negb (is_nil junk)); [done|].
      rewrite !Hcmp. rewrite (bool_decide_eq_true_2 (2 ^ 31 - 1 < n)) by lia.
      done.
    + apply Z.ltb_ge in E1.
      destruct (n <? - 2 ^ 63) eqn:E2; [apply Z.ltb_lt in E2; lia|].
      rewrite (Hstep n false).
      destruct (negb (is_nil junk)); [done|].
      rewrite !Hcmp, orb_false_r.
      by rewrite (bool_decide_eq_false_2 (n < 0)) by lia.
Qed.

(** C5, amended. For a blank-free token between blanks: without a colon
    the epoch is 0. With a colon, the text in front of the first one is
    read as [strtol] reads it: white space, an optional sign, then digits.
    No digit at that point is "epoch in version is empty", also when digits
    come later; digits with anything between them and the colon are "epoch
    in version is not number"; a minus sign and a number above zero are
    "epoch in version is negative"; a number above INT_MAX is "epoch in
    version is too big"; and a string that ends with the colon is "nothing
    after colon in version number". Otherwise, with text behind the colon,
    the number is the epoch and no epoch error is put; a plus sign, a minus
    sign in front of zero and white space in front of the number are
    accepted. Every text is read in one of these ways. *)
Theorem parseversion_epoch rv b1 tok b2 :
  all_blank b1 = true -> all_blank b2 = true ->
  tok <> [] -> no_blank tok = true ->
  let r := parseversion rv (b1 ++ tok ++ b2) in
  (no_char ":" tok = true -> epoch (rversion r) = 0)
  /\ (forall pre post ws sg ds junk,
        tok = pre ++ ":"%char :: post -> no_char ":" pre = true ->
        epoch_text pre ws sg ds junk ->
        (ds = [] -> err r = Some (error "epoch in version is empty"))
        /\ (ds <> [] -> junk <> [] ->
            err r = Some (error "epoch in version is not number"))
        /\ (ds <> [] -> junk = [] -> sg = ["-"%char] -> 0 < digits_value ds ->
            err r = Some (error "epoch in version is negative"))
        /\ (ds <> [] -> junk = [] -> (sg = ["-"%char] -> digits_value ds = 0) ->
            INT_MAX < digits_value ds ->
            err r = Some (error "epoch in version is too big"))
        /\ (ds <> [] -> junk = [] -> (sg = ["-"%char] -> digits_value ds = 0) ->
            digits_value ds <= INT_MAX ->
            (post ++ b2 = [] ->
             err r = Some (error "nothing after colon in version number"))
            /\ (post <> [] ->
                epoch (rversion r) = digits_value ds
                /\ forall e, err r = Some e -> ~ In (str e) epoch_errors)))
  /\ (forall pre, exists ws sg ds junk, epoch_text pre ws sg ds junk).
Proof.
  intros Hb1 Hb2 Hne Htok r. subst r.
  rewrite parseversion_token by done.
  split; [|split; [|apply epoch_text_exists]].
  { intros Hnc. rewrite parse_epoch_no_colon by done.
    apply split_revision_epoch. }
  intros pre post ws sg ds junk -> Hpre Htext.
  split.
  { intros ->. rewrite parse_epoch_colon by done.
    rewrite (strtol10_text _ _ _ _ _ Htext).
    destruct Htext as (_ & _ & _ & Hds & _ & _ & Hjunk).
    by rewrite (strtol_digits_text _ _ _ _ Hds Hjunk). }
  assert (Hnum := parse_epoch_number rv pre post b2 ws sg ds junk Hpre Htext).
  assert (Hsign : (sg = ["-"%char] -> digits_value ds = 0) ->
                  bool_decide (sg = ["-"%char]) && (0 <? digits_value ds) = false).
  { intros Hs. case_bool_decide as E; [|done]. by rewrite (Hs E). }
  split; [|split; [|split]].
  - intros Hd Hj. rewrite Hnum by done. by destruct junk.
  - intros Hd -> -> Hn. rewrite Hnum by done. simpl.
    by rewrite (proj2 (Z.ltb_lt _ _) Hn).
  - intros Hd -> Hs Hn. rewrite Hnum by done. simpl.
    by rewrite (Hsign Hs), (proj2 (Z.ltb_lt _ _) Hn).
  - intros Hd -> Hs Hn. rewrite Hnum by done. simpl.
    rewrite (Hsign Hs), (proj2 (Z.ltb_ge _ _) Hn).
    split.
    + by intros ->.
    + intros Hpost. destruct (post ++ b2) eqn:E; [by destruct post|].
      split; [apply split_revision_epoch|].
      intros e He. eapply late_not_epoch, split_revision_late, He.
Qed.

(** A witness of C5: in " +12:3.4" the text before the colon is a plus
    sign and the digits 12, and the epoch is 12. *)
Lemma parseversion_epoch_witness :
  epoch (rversion (parseversion blank_version (lit " +12:3.4"))) = 12.
Proof.
  destruct (parseversion_epoch blank_version (lit " ") (lit "+12:3.4") [])
    as (_ & H & _); [reflexivity | reflexivity | discriminate | reflexivity |].
  destruct (H (lit "+12") (lit "3.4") [] (lit "+") (lit "12") [])
    as (_ & _ & _ & _ & Hok); [reflexivity | reflexivity | |].
  { repeat split; try done.
    - by right; left.
    - by intros c [= <-]. }
  destruct Hok as [_ Hepoch];
    [discriminate | reflexivity | discriminate | vm_compute; discriminate |].
  apply Hepoch. discriminate.
Defined.

(** C5 as stated fails. In "a5:1.0" there are digits in front of the
    colon, and the failure is "epoch in version is empty" all the same; and
    "+5:1.0", whose text in front of the colon is not a run of digits, is
    accepted with epoch 5. *)
Lemma parseversion_epoch_counterexample :
  existsb c_isdigit (lit "a5") = true
  /\ err (parseversion blank_version (lit "a5:1.0"))
     = Some (error "epoch in version is empty")
  /\ forallb c_isdigit (lit "+5") = false
  /\ parseversion blank_version (lit "+5:1.0")
     = {| rc := 0;
          rversion := {| epoch := 5; version := Some (lit "1.0");
                         revision := Some [] |};
          err := None |}.
Proof. repeat split. Qed.

(** C6. Once the epoch prefix of the token is removed, the remaining text
    is split at its last hyphen: without a hyphen it is the upstream and the
    revision is the empty string; otherwise the upstream is what precedes
    the last hyphen and the revision what follows it; and a hyphen with
    nothing behind it fails with "revision number is empty". *)
Theorem parseversion_revision_split rv b1 tok b2 e rest :
  all_blank b1 = true -> all_blank b2 = true ->
  tok <> [] -> no_blank tok = true ->
  after_epoch tok e rest ->
  let r := parseversion rv (b1 ++ tok ++ b2) in
  (no_char "-" rest = true ->
     rversion r = {| epoch := e; version := Some rest; revision := Some [] |})
  /\ (forall u rev,
        rest = u ++ "-"%char :: rev -> no_char "-" rev = true -> rev <> [] ->
        rversion r = {| epoch := e; version := Some u; revision := Some rev |})
  /\ (forall u,
        rest = u ++ ["-"%char] ->
        rc r = -1 /\ err r = Some (error "revision number is empty")).
Proof.
  intros Hb1 Hb2 Hne Htok Hafter r. subst r.
  rewrite parseversion_token by done.
  assert (exists rv',
    parse_epoch rv (tok ++ b2) (length tok) = split_revision rv' rest
    /\ epoch rv' = e) as (rv' & -> & <-).
  { destruct Hafter as [(Hnc & -> & ->)|(pre & -> & Hpre & Hpne & Hrne & Hn & He)].
    - eexists. by rewrite parse_epoch_no_colon.
    - eexists. rewrite parse_epoch_colon, Hn by done. simpl.
      destruct (decide (length pre = O)); [by destruct pre|].
      destruct (decide (length pre <> length pre)); [done|].
      destruct (e <? 0) eqn:E1; [apply Z.ltb_lt in E1; lia|].
      destruct (INT_MAX <? e) eqn:E2; [apply Z.ltb_lt in E2; lia|].
      simpl. destruct (rest ++ b2) eqn:E; [by destruct rest|]. done. }
  split; [|split].
  - intros Hnh. by rewrite split_revision_none, check_syntax_rversion.
  - intros u rev -> Hnh Hrne.
    by rewrite split_revision_some, check_syntax_rversion.
  - intros u ->. by rewrite split_revision_empty.
Qed.

(** A witness of C6: "1:2.0-rc1-3" splits at its last hyphen. *)
Lemma parseversion_revision_split_witness :
  rversion (parseversion blank_version (lit "1:2.0-rc1-3"))
  = {| epoch := 1; version := Some (lit "2.0-rc1"); revision := Some (lit "3") |}.
Proof.
  destruct (parseversion_revision_split blank_version [] (lit "1:2.0-rc1-3") []
              1 (lit "2.0-rc1-3"))
    as (_ & H & _); [reflexivity | reflexivity | discriminate | reflexivity | |].
  - right. exists (lit "1").
    repeat split; [discriminate | discriminate | vm_compute; discriminate
                  | vm_compute; discriminate].
  - apply (H (lit "2.0-rc1") (lit "3")); [reflexivity | reflexivity | discriminate].
Defined.

(** ** The messages on small inputs *)

Example parseversion_warnings :
  err (parseversion blank_version (lit "a1"))
  = Some (warning "version number does not start with digit")
  /\ err (parseversion blank_version (lit "1_0"))
     = Some (warning "invalid character in version number")
  /\ err (parseversion blank_version (lit "1.0-a_b"))
     = Some (warning "invalid character in revision number").
Proof. repeat split. Qed.

Example parseversion_errors :
  err (parseversion blank_version (lit " "))
  = Some (error "version string is empty")
  /\ err (parseversion blank_version (lit "1 0"))
     = Some (error "version string has embedded spaces")
  /\ err (parseversion blank_version (lit ":1"))
     = Some (error "epoch in version is empty")
  /\ err (parseversion blank_version (lit "1a:2"))
     = Some (error "epoch in version is not number")
  /\ err (parseversion blank_version (lit "-1:2"))
     = Some (error "epoch in version is negative")
  /\ err (parseversion blank_version (lit "2147483648:1"))
     = Some (error "epoch in version is too big")
  /\ err (parseversion blank_version (lit "1:"))
     = Some (error "nothing after colon in version number")
  /\ err (parseversion blank_version (lit "1.0-"))
     = Some (error "revision number is empty")
  /\ err (parseversion blank_version (lit "-1"))
     = Some (error "version number is empty").
Proof. repeat split. Qed.

(** A blank behind the colon is something behind the colon: the epoch is
    stored and the empty upstream is what is complained about. *)
Example parseversion_colon_blank :
  parseversion blank_version (lit "1: ")
  = fail {| epoch := 1; version := Some []; revision := Some [] |}
      (dpkg_put_error "version number is empty").
Proof. reflexivity. Qed.

Example parse_db_version_levels :
  let strict := {| ps_lax_version_parser := false |} in
  let lax := {| ps_lax_version_parser := true |} in
  parse_db_version lax blank_version (lit "a1")
  = DbWarned {| epoch := 0; version := Some (lit "a1"); revision := Some [] |}
      "version number does not start with digit"
  /\ parse_db_version strict blank_version (lit "a1")
     = DbFatal "version number does not start with digit"
  /\ parse_db_version lax blank_version (lit "1.0-")
     = DbFatal "revision number is empty".
Proof. repeat split. Qed.

(** ** Rendering and reading back *)

Lemma has_colon_no_char s : has_colon s = negb (no_char ":" (default [] s)).
Proof.
  destruct s as [s|]; [|done]. simpl.
  destruct (no_char ":" s) eqn:E.
  - apply bool_decide_eq_false. rewrite strchr_is_Some. congruence.
  - apply bool_decide_eq_true. by rewrite strchr_is_Some.
Qed.

Lemma varbufversion_shape v vdew :
  varbufversion [] v vdew
  = (if shows_epoch v vdew then fmt_u (epoch v) ++ [":"%char] else [])
    ++ upstream_of v
    ++ (if is_nil (revision_of v) then [] else "-"%char :: revision_of v).
Proof.
  unfold varbufversion, shows_epoch.
  rewrite !has_colon_no_char, !negb_involutive.
  fold (upstream_of v) (revision_of v).
  set (pre := match vdew with vdew_never => _ | _ => _ end).
  unfold upstream_of, revision_of.
  destruct pre, (version v) as [u|], (revision v) as [[|c r]|]; simpl;
    rewrite ?app_nil_r, <- ?app_assoc; done.
Qed.

(** C10, amended. [versiondescribe] returns the placeholder ["<none>"]
    for every version that is not informative (zero epoch, upstream and
    revision both unset) and leaves the static buffers alone; for an
    informative version it returns the string [varbufversion] renders into
    an empty buffer under the requested epoch-display mode. The result is
    the text ["<none>"] exactly when the version is not informative, or its
    upstream is itself the text ["<none>"], its revision is unset and the
    epoch is not displayed. *)
Theorem versiondescribe_placeholder st v vdew :
  (dpkg_version_is_informative v = false ->
   versiondescribe st v vdew = (lit "<none>", st))
  /\ (dpkg_version_is_informative v = true ->
      fst (versiondescribe st v vdew) = varbufversion [] v vdew)
  /\ (fst (versiondescribe st v vdew) = lit "<none>"
      <-> dpkg_version_is_informative v = false
          \/ (shows_epoch v vdew = false /\ version v = Some (lit "<none>")
              /\ str_is_unset (revision v) = true)).
Proof.
  assert (Hcolon : forall a b, a ++ ":"%char :: b <> lit "<none>").
  { intros a b H.
    assert (Hn : no_char ":" (a ++ ":"%char :: b) = true) by (by rewrite H).
    rewrite no_char_app in Hn. simpl in Hn. by rewrite andb_false_r in Hn. }
  assert (Hhyphen : forall a b, a ++ "-"%char :: b <> lit "<none>").
  { intros a b H.
    assert (Hn : no_char "-" (a ++ "-"%char :: b) = true) by (by rewrite H).
    rewrite no_char_app in Hn. simpl in Hn. by rewrite andb_false_r in Hn. }
  unfold versiondescribe.
  destruct (dpkg_version_is_informative v) eqn:Einf; simpl.
  - split; [done|]. split; [done|].
    rewrite varbufversion_shape. split.
    + intros H. right.
      destruct (shows_epoch v vdew).
      { rewrite <- !app_assoc in H. simpl in H. by apply Hcolon in H. }
      split; [done|]. simpl in H.
      unfold upstream_of, revision_of, str_is_unset in *.
      destruct (revision v) as [[|c rev]|]; simpl in H;
        try (by apply Hhyphen in H);
        rewrite app_nil_r in H; (destruct (version v) as [u|]; [|done]);
        simpl in H; by rewrite H.
    + intros [?|(-> & Hu & Hr)]; [done|].
      unfold upstream_of, revision_of, str_is_unset in *. rewrite Hu.
      by destruct (revision v) as [[|c rev]|].
  - split; [done|]. split; [done|]. split; [by left|done].
Qed.

(** C10 as stated fails: the version with upstream "<none>", epoch 0 and
    no revision is informative, and is described by the placeholder's text
    all the same. *)
Lemma versiondescribe_placeholder_counterexample :
  let v := {| epoch := 0; version := Some (lit "<none>"); revision := None |} in
  dpkg_version_is_informative v = true
  /\ fst (versiondescribe describe_init v vdew_nonambig) = lit "<none>"
  /\ ~ (fst (versiondescribe describe_init v vdew_nonambig) = lit "<none>"
        <-> dpkg_version_is_informative v = false).
Proof.
  split; [reflexivity|]. split; [reflexivity|].
  intros [H _]. specialize (H eq_refl). discriminate.
Qed.

Lemma no_blank_app s t : no_blank (s ++ t) = no_blank s && no_blank t.
Proof. apply forallb_app. Qed.




(* ===================================================================== *)
(** * command.c: building the argument vector                             *)
(* ===================================================================== *)

Module CommandFacts.
Import Command.

Lemma int_in_range n : - INT_MAX - 1 <= n <= INT_MAX -> int n = Done n.
Proof.
  intros Hn. unfold int.
  destruct (- INT_MAX - 1 <=? n) eqn:E1; [|apply Z.leb_gt in E1; lia].
  destruct (n <=? INT_MAX) eqn:E2; [done|apply Z.leb_gt in E2; lia].
Qed.

Lemma int_fault n f : int n = Fault f -> f = IntOverflow /\ ~ (- INT_MAX - 1 <= n <= INT_MAX).
Proof.
  unfold int.
  destruct (- INT_MAX - 1 <=? n) eqn:E1; destruct (n <=? INT_MAX) eqn:E2;
    simpl; intros [= <-]; (split; [done|]);
    try apply Z.leb_gt in E1; try apply Z.leb_gt in E2; lia.
Qed.

Lemma store_in_range cmd i c :
  (i < length (argv cmd))%nat ->
  store cmd (Z.of_nat i) c
  = Done {| filename := filename cmd; name := name cmd; argc := argc cmd;
            argv_size := argv_size cmd; argv := <[i := c]> (argv cmd) |}.
Proof.
  intros Hi. unfold store.
  destruct (0 <=? Z.of_nat i) eqn:E1; [|apply Z.leb_gt in E1; lia].
  destruct (Z.of_nat i <? Z.of_nat (length (argv cmd))) eqn:E2;
    [|apply Z.ltb_ge in E2; lia].
  simpl. by rewrite Nat2Z.id.
Qed.

Lemma command_init_inv filename name :
  exists cmd, command_init filename name = Done cmd /\ argv_inv cmd [].
Proof.
  eexists. split; [reflexivity|].
  unfold argv_inv; simpl. unfold INT_MAX. repeat split; lia.
Qed.

(** [command_grow_argv] leaves room for [n] more pointers and the
    terminator, and keeps what the block holds. *)
Lemma command_grow_argv_spec cmd n :
  0 <= n -> 0 <= argc cmd < argv_size cmd ->
  argv_size cmd = Z.of_nat (length (argv cmd)) ->
  argv_size cmd <= INT_MAX -> argv_size cmd <= 4 * argc cmd + 10 ->
  match command_grow_argv cmd n with
  | Done cmd' =>
      argc cmd' = argc cmd
      /\ argv_size cmd' = Z.of_nat (length (argv cmd'))
      /\ argc cmd + n < argv_size cmd'
      /\ argv_size cmd' <= INT_MAX
      /\ argv_size cmd' <= 4 * (argc cmd + n) + 10
      /\ exists ext, argv cmd' = argv cmd ++ ext
  | Fault f => f = IntOverflow /\ ARG_LIMIT <= argc cmd + n
  end.
Proof.
  intros Hn Hargc Hlen Hmax Hbound. unfold command_grow_argv, ARG_LIMIT.
  destruct (int (n + 1)) as [need|f] eqn:E0; simpl.
  2:{ apply int_fault in E0 as [-> E0]. unfold INT_MAX in *. split; [done|lia]. }
  assert (need = n + 1) as ->.
  { unfold int in E0. by repeat case_match; simplify_eq. }
  destruct (n + 1 <=? argv_size cmd - argc cmd) eqn:E1.
  - apply Z.leb_le in E1. repeat split; try lia. exists []. by rewrite app_nil_r.
  - apply Z.leb_gt in E1.
    destruct (int (argv_size cmd + (n + 1))) as [sum|f] eqn:E2; simpl.
    2:{ apply int_fault in E2 as [-> E2]. unfold INT_MAX in *. split; [done|lia]. }
    assert (sum = argv_size cmd + (n + 1)) as ->.
    { unfold int in E2. by repeat case_match; simplify_eq. }
    destruct (int ((argv_size cmd + (n + 1)) * 2)) as [size|f] eqn:E3; simpl.
    2:{ apply int_fault in E3 as [-> E3]. unfold INT_MAX in *. split; [done|lia]. }
    assert (size = (argv_size cmd + (n + 1)) * 2) as ->.
    { unfold int in E3. by repeat case_match; simplify_eq. }
    assert (- INT_MAX - 1 <= (argv_size cmd + (n + 1)) * 2 <= INT_MAX) as Hr.
    { unfold int in E3. repeat case_match; simplify_eq. lia. }
    repeat split; try lia.
    + rewrite length_app, length_replicate. lia.
    + eauto.
Qed.

Lemma push_all_spec l : forall cmd args,
  argc cmd = Z.of_nat (length args) ->
  argv_size cmd = Z.of_nat (length (argv cmd)) ->
  argc cmd + Z.of_nat (length l) < argv_size cmd -> argv_size cmd <= INT_MAX ->
  take (length args) (argv cmd) = Arg <$> args ->
  exists cmd',
    push_all cmd l = Done cmd'
    /\ argc cmd' = argc cmd + Z.of_nat (length l)
    /\ argv_size cmd' = argv_size cmd
    /\ length (argv cmd') = length (argv cmd)
    /\ take (length (args ++ l)) (argv cmd') = Arg <$> (args ++ l).
Proof.
  induction l as [|a l IH]; intros cmd args Hargc Hsize Hroom Hmax Htake.
  - exists cmd. simpl. rewrite app_nil_r. repeat split; try done. lia.
  - simpl in Hroom. simpl push_all. unfold push.
    rewrite Hargc, store_in_range by lia. simpl.
    rewrite Hargc, int_in_range by (unfold INT_MAX in *; lia). simpl.
    set (cmd1 := set_argc _ _).
    destruct (IH cmd1 (args ++ [a])) as (cmd' & Hrun & Hc & Hs & Hl & Ht).
    + subst cmd1. simpl. rewrite length_app. simpl. lia.
    + subst cmd1. simpl. by rewrite length_insert.
    + subst cmd1. simpl. lia.
    + done.
    + subst cmd1. simpl. rewrite length_app. simpl.
      replace (length args + 1)%nat with (S (length args)) by lia.
      rewrite (take_S_r _ _ (Arg a)) by (apply list_lookup_insert_eq; lia).
      rewrite take_insert_ge, Htake, fmap_app by lia. done.
    + exists cmd'. rewrite <- app_assoc in Ht. simpl in Ht.
      subst cmd1. simpl in *. rewrite length_insert in Hl.
      repeat split; try done. lia.
Qed.

Lemma terminate_spec cmd args :
  argc cmd = Z.of_nat (length args) ->
  (length args < length (argv cmd))%nat ->
  take (length args) (argv cmd) = Arg <$> args ->
  exists cmd',
    terminate cmd = Done cmd'
    /\ argc cmd' = argc cmd /\ argv_size cmd' = argv_size cmd
    /\ length (argv cmd') = length (argv cmd)
    /\ take (length args) (argv cmd') = Arg <$> args
    /\ argv cmd' !! length args = Some Null.
Proof.
  intros Hargc Hlt Htake. unfold terminate.
  rewrite Hargc, store_in_range by done.
  eexists. split; [reflexivity|]. simpl.
  rewrite length_insert, take_insert_ge, list_lookup_insert_eq by lia.
  done.
Qed.

(** Appending [l] after growing for it: the step common to the three
    entry points. *)
Lemma append_spec cmd args l :
  argv_inv cmd args ->
  match
    (do add_argc <- int (Z.of_nat (length l));
     do cmd <- command_grow_argv cmd add_argc;
     do cmd <- push_all cmd l;
     terminate cmd)
  with
  | Done cmd' => argv_inv cmd' (args ++ l)
  | Fault f => f = IntOverflow /\ ARG_LIMIT <= Z.of_nat (length (args ++ l))
  end.
Proof.
  intros (Hargc & Hsize & Hlt & Hmax & Hbound & Htake & Hnull).
  rewrite length_app, Nat2Z.inj_add, <- Hargc.
  destruct (int (Z.of_nat (length l))) as [n|f] eqn:E0; simpl.
  2:{ apply int_fault in E0 as [-> E0]. unfold ARG_LIMIT, INT_MAX in *. split; [done|lia]. }
  assert (n = Z.of_nat (length l)) as ->.
  { unfold int in E0. by repeat case_match; simplify_eq. }
  pose proof (command_grow_argv_spec cmd (Z.of_nat (length l))) as Hgrow.
  destruct (command_grow_argv cmd (Z.of_nat (length l))) as [cmd1|f]; simpl.
  2:{ apply Hgrow; lia. }
  destruct Hgrow as (Hc1 & Hs1 & Hroom & Hmax1 & Hb1 & ext & Hext); try lia.
  destruct (push_all_spec l cmd1 args) as (cmd2 & -> & Hc2 & Hs2 & Hl2 & Ht2);
    try lia.
  { rewrite Hext, take_app_le; [done|]. lia. }
  simpl.
  destruct (terminate_spec cmd2 (args ++ l)) as (cmd3 & -> & Hc3 & Hs3 & Hl3 & Ht3 & Hn3).
  { rewrite length_app. lia. }
  { rewrite length_app. lia. }
  { done. }
  unfold argv_inv. rewrite length_app in *.
  repeat split; try done; lia.
Qed.

Lemma run_op_spec cmd args op :
  argv_inv cmd args ->
  match run_op cmd op with
  | Done cmd' => argv_inv cmd' (args ++ op_args op)
  | Fault f => f = IntOverflow /\ ARG_LIMIT <= Z.of_nat (length (args ++ op_args op))
  end.
Proof.
  intros Hinv. destruct op as [a|l|l]; simpl;
    [|apply (append_spec cmd args l Hinv)..].
  (* command_add_arg is the case of one argument *)
  pose proof (append_spec cmd args [a] Hinv) as H.
  unfold command_add_arg. simpl in H. change (Z.of_nat 1) with 1 in H.
  destruct (command_grow_argv cmd 1) as [cmd1|f]; simpl in *; [|done].
  destruct (push cmd1 a) as [cmd2|f]; simpl in *; done.
Qed.

Lemma run_ops_spec ops : forall cmd args,
  argv_inv cmd args ->
  match run_ops cmd ops with
  | Done cmd' => argv_inv cmd' (args ++ ops_args ops)
  | Fault f =>
      f = IntOverflow /\ ARG_LIMIT <= Z.of_nat (length (args ++ ops_args ops))
  end.
Proof.
  induction ops as [|op ops IH]; intros cmd args Hinv.
  - simpl. unfold ops_args. simpl. by rewrite app_nil_r.
  - simpl. unfold ops_args. simpl. fold (ops_args ops).
    pose proof (run_op_spec cmd args op Hinv) as Hop.
    destruct (run_op cmd op) as [cmd1|f]; simpl.
    + specialize (IH cmd1 _ Hop). by rewrite <- app_assoc in IH.
    + destruct Hop as [-> Hop]. split; [done|].
      rewrite !length_app in *. lia.
Qed.

Lemma read_argv_app args rest :
  read_argv ((Arg <$> args) ++ Null :: rest) = Done args.
Proof. induction args as [|a args IH]; csimpl; [done|]. by rewrite IH. Qed.

Lemma argv_inv_holds cmd args :
  argv_inv cmd args -> argv_holds cmd args /\ read_argv (argv cmd) = Done args.
Proof.
  intros (Hargc & Hsize & Hlt & Hmax & Hbound & Htake & Hnull).
  split.
  - repeat split; try done.
    intros i a Hi.
    rewrite <- (lookup_take_lt _ (length args)) by (by eapply lookup_lt_Some).
    by rewrite Htake, list_lookup_fmap, Hi.
  - rewrite <- (take_drop_middle _ _ _ Hnull), Htake.
    apply read_argv_app.
Qed.

(** C9. After [command_init] and any sequence of [command_add_arg],
    [command_add_argl] and [command_add_argv] calls that completes, [argv]
    holds exactly the appended arguments in order at indices 0..argc-1 and
    NULL at index argc, inside the allocated block, so that reading the
    vector up to its terminator gives back those arguments. No store ever
    leaves the block: the only way a sequence does not complete is [int]
    overflow in [command_grow_argv], from 2^29 arguments on. *)
Theorem command_argv_invariant filename name ops :
  match (do cmd <- command_init filename name; run_ops cmd ops) with
  | Done cmd =>
      argv_holds cmd (ops_args ops)
      /\ read_argv (argv cmd) = Done (ops_args ops)
  | Fault f =>
      f = IntOverflow /\ ARG_LIMIT <= Z.of_nat (length (ops_args ops))
  end.
Proof.
  destruct (command_init_inv filename name) as (cmd0 & -> & Hinv). simpl.
  pose proof (run_ops_spec ops cmd0 [] Hinv) as H. simpl in H.
  destruct (run_ops cmd0 ops); [by apply argv_inv_holds|done].
Qed.

(** Twelve arguments, nine added one by one and three in two arrays: the
    block of ten slots is reallocated once, to (10 + 3) * 2 slots. *)
Example command_growth :
  let one := AddArg (lit "x") in
  let ops := replicate 9 one ++ [AddArgl [lit "y"; lit "z"]; AddArgv [lit "w"]] in
  exists cmd,
    (do c <- command_init (lit "/bin/true") None; run_ops c ops) = Done cmd
    /\ argc cmd = 12 /\ argv_size cmd = 26
    /\ read_argv (argv cmd)
       = Done (replicate 9 (lit "x") ++ [lit "y"; lit "z"; lit "w"]).
Proof.
  eexists. split; [vm_compute; reflexivity|].
  repeat split; vm_compute; reflexivity.
Qed.

End CommandFacts.

(* ===================================================================== *)
(** * command.c: [runcmd]                                                 *)
(* ===================================================================== *)

Module RuncmdFacts.
Import Command.

Lemma put_spec buf c :
  put buf c
  = if decide (length buf < CMDSTRING_SIZE)%nat
    then Done (buf ++ [c]) else Fault OutOfBounds.
Proof. done. Qed.

Lemma put_string_spec s : forall buf,
  (length buf <= CMDSTRING_SIZE)%nat ->
  put_string buf s
  = if decide (length buf + length s <= CMDSTRING_SIZE)%nat
    then Done (buf ++ s)
    else Fault OutOfBounds.
Proof.
  induction s as [|c s IH]; intros buf Hbuf; simpl.
  - rewrite app_nil_r. case_decide; [done|lia].
  - rewrite put_spec. case_decide; simpl.
    + rewrite IH by (rewrite length_app; simpl; lia).
      rewrite length_app, <- app_assoc. simpl.
      repeat case_decide; try done; lia.
    + case_decide; [lia|done].
Qed.

Lemma join_args_spec args : forall buf rest,
  (length buf <= CMDSTRING_SIZE)%nat ->
  join_args buf ((Arg <$> args) ++ rest) (length args)
  = if decide (length buf + length (join_spaces args) <= CMDSTRING_SIZE)%nat
    then Done (buf ++ join_spaces args)
    else Fault OutOfBounds.
Proof.
  induction args as [|a args IH]; intros buf rest Hbuf.
  - change (join_spaces []) with (@nil ascii). simpl.
    rewrite app_nil_r, Nat.add_0_r. case_decide; [done|lia].
  - unfold join_spaces. csimpl. fold (join_spaces args).
    rewrite !length_app. simpl length.
    rewrite put_string_spec by done.
    case_decide; simpl; [|case_decide; [lia|done]].
    rewrite put_spec, length_app. case_decide; simpl; [|case_decide; [lia|done]].
    rewrite IH by (rewrite !length_app; simpl; lia).
    rewrite !length_app, <- !app_assoc. simpl.
    repeat case_decide; try done; lia.
Qed.

(** Lines 360-372 on a vector that holds [args]: in bounds exactly when
    the joined arguments and the terminator fit the 200 bytes. *)
Lemma runcmd_cmdstring_spec cmd args :
  argv_inv cmd args ->
  runcmd_cmdstring cmd
  = if decide (length (join_spaces args) < CMDSTRING_SIZE)%nat
    then Done (cstring_at (join_spaces args ++ [NUL]) 0)
    else Fault OutOfBounds.
Proof.
  intros (Hargc & Hsize & Hlt & Hmax & Hbound & Htake & Hnull).
  unfold runcmd_cmdstring.
  rewrite Hargc, Nat2Z.id.
  rewrite <- (take_drop_middle _ _ _ Hnull), Htake.
  rewrite join_args_spec by (simpl; unfold CMDSTRING_SIZE; lia). simpl.
  case_decide; simpl.
  - rewrite put_spec. repeat case_decide; try done; lia.
  - case_decide; [lia|done].
Qed.

(** The copy overruns [cmdstring] exactly from 200 joined bytes on. *)
Lemma runcmd_cmdstring_bounds cmd args :
  argv_inv cmd args ->
  runcmd_cmdstring cmd = Fault OutOfBounds
  <-> (CMDSTRING_SIZE <= length (join_spaces args))%nat.
Proof.
  intros Hinv. rewrite (runcmd_cmdstring_spec cmd args Hinv).
  case_decide; split; try done; lia.
Qed.

(** C8, at a failing input: the postinst of a package whose name has 160
    characters, called with "configure" and a version. The joined text has
    205 bytes; the loop stores past the 200 bytes of [cmdstring]. *)
Lemma runcmd_cmdstring_overflow :
  let script :=
    lit "/var/lib/dpkg/info/" ++ replicate 160 "x"%char ++ lit ".postinst" in
  let args := [script; lit "configure"; lit "1.0-1"] in
  exists cmd,
    (do c <- command_init script None; command_add_argl c args) = Done cmd
    /\ read_argv (argv cmd) = Done args
    /\ length (join_spaces args) = 205%nat
    /\ runcmd_cmdstring cmd = Fault OutOfBounds.
Proof.
  eexists. split; [vm_compute; reflexivity|].
  repeat split; vm_compute; reflexivity.
Qed.

Section Shell.

Variable DEFAULTSHELL : list ascii.
Variable env_SHELL : option (list ascii).
Variable searchpath : list ascii -> option (list ascii).
Variable isShellScript : list ascii -> bool.
Variable getInterpreter : list ascii -> list ascii.

Local Abbreviation run :=
  (runcmd DEFAULTSHELL env_SHELL searchpath isShellScript getInterpreter).

(** Whatever the files and the vector, the only program [runcmd] starts
    is the shell, on three arguments. *)
Lemma runcmd_execs_shell cmd e :
  run cmd = Done e ->
  exists s, e = Exec DEFAULTSHELL [DEFAULTSHELL; lit "-c"; s].
Proof.
  unfold runcmd.
  destruct (runcmd_cmdstring cmd) as [cmdstring|]; simpl; [|done].
  destruct (fixedCmd _ _ _ _) as [fullcmd|]; simpl; [|done].
  intros [= <-]. by exists fullcmd.
Qed.

(** A binary that is found never gets as far as the shell within defined
    behaviour. *)
Lemma fixedCmd_found cmdStr s :
  fixedCmd searchpath isShellScript getInterpreter cmdStr = Done s ->
  searchpath (take (span_len (fun c => negb (is_space c))
                      (drop (span_len is_space cmdStr) cmdStr))
                (drop (span_len is_space cmdStr) cmdStr)) = None.
Proof.
  unfold fixedCmd.
  destruct (drop (span_len is_space cmdStr) cmdStr) as [|c rest] eqn:E; [done|].
  destruct (searchpath _) as [abs_path|]; [|done].
  destruct (isShellScript abs_path); [|done].
  repeat case_match; try done;
    match goal with H : (_ <? _) = true |- _ => apply Z.ltb_lt in H; lia end.
Qed.

(** Vectors with the same joined text are not told apart. *)
Lemma runcmd_joined cmd1 args1 cmd2 args2 :
  argv_inv cmd1 args1 -> argv_inv cmd2 args2 ->
  join_spaces args1 = join_spaces args2 ->
  run cmd1 = run cmd2.
Proof.
  intros H1 H2 Hj. unfold runcmd.
  by rewrite (runcmd_cmdstring_spec _ _ H1), (runcmd_cmdstring_spec _ _ H2), Hj.
Qed.

End Shell.

(** C2, at a failing input: the postinst of a package configured for the
    first time, whose last argument is the empty string. [command_exec]
    hands the three arguments over as they are; [runcmd], where
    [searchpath] finds no such file, starts ["sh" "-c"] on the script name
    alone. *)
Lemma runcmd_argv_not_preserved :
  let script := lit "/var/lib/dpkg/info/foo.postinst" in
  let args := [script; lit "configure"; lit ""] in
  exists cmd,
    (do c <- command_init script None; command_add_argl c args) = Done cmd
    /\ command_exec cmd = Done (Exec script args)
    /\ runcmd (lit "sh") None (fun _ => None) (fun _ => false) (fun p => p) cmd
       = Done (Exec (lit "sh") [lit "sh"; lit "-c"; script]).
Proof.
  eexists. split; [vm_compute; reflexivity|].
  split; vm_compute; reflexivity.
Qed.

(** The same vector and the one with the empty argument dropped are joined
    into different texts, but two arguments and their concatenation with a
    space are not. *)
Lemma join_spaces_not_injective :
  join_spaces [lit "rm"; lit "a b"] = join_spaces [lit "rm"; lit "a"; lit "b"].
Proof. reflexivity. Qed.

End RuncmdFacts.

(* ===================================================================== *)
(** * fsys-hash.c                                                         *)
(* ===================================================================== *)

Module FsysFacts.
Import Fsys.


Lemma path_skip_le path : (path_skip_slash_dotslash path <= length path)%nat.
Proof.
  induction path as [|c rest IH]; simpl; [lia|].
  repeat case_match; simpl in *; lia.
Qed.

Section TableFacts.

Variable str_fnv_hash : list ascii -> Z.
Variable EMPTYHASHFLAG : list ascii.

Local Abbreviation find := (fsys_hash_find_node str_fnv_hash EMPTYHASHFLAG).
Local Abbreviation bin_of path := (str_fnv_hash (normalized path) mod BINS).

(** ** The walk along a chain *)

Lemma walk_found chain : forall pos name' p fnn,
  walk chain pos name' = WalkFound p fnn ->
  name fnn = "/"%char :: name'
  /\ (pos <= p)%nat /\ chain !! (p - pos)%nat = Some fnn.
Proof.
  induction chain as [|n chain IH]; intros pos name' p fnn; simpl; [done|].
  destruct (name n) as [|c tail] eqn:En; [done|].
  destruct (Ascii.eqb c "/") eqn:Ec; simpl; [|done].
  apply Ascii.eqb_eq in Ec as ->.
  case_bool_decide as Ht.
  - intros [= <- <-]. rewrite Nat.sub_diag. simpl. by rewrite En, Ht.
  - intros H. apply IH in H as (Hn & Hle & Hl).
    split; [done|]. split; [lia|].
    replace (p - pos)%nat with (S (p - S pos)) by lia. done.
Qed.



(** ** The name given to a new node *)

Lemma newname_canonical orig_name find_flags :
  (if negb (Z.land find_flags FHFF_NOCOPY =? 0)
      && bool_decide (0 < path_skip_slash_dotslash orig_name)%nat
      && bool_decide (orig_name !! (path_skip_slash_dotslash orig_name - 1)%nat
                      = Some "/"%char)
   then drop (path_skip_slash_dotslash orig_name - 1) orig_name
   else "/"%char :: normalized orig_name)
  = "/"%char :: normalized orig_name.
Proof.
  destruct (negb _); simpl; [|done].
  case_bool_decide as Hk; simpl; [|done].
  case_bool_decide as Hs; simpl; [|done].
  unfold normalized.
  rewrite (drop_S _ _ _ Hs). do 2 f_equal. lia.
Qed.

(** ** Lookups *)





(** C7, amended. [fsys_hash_init] keeps every chain of the array in
    length and order and every node's name, owning packages, diversion,
    stat override and trigger interest, and sets its flags to 0, its old
    hash to NULL, its new hash to [EMPTYHASHFLAG] and its on-disk identity
    to NULL; it keeps the count. [fsys_hash_reset] empties every bin and
    zeroes the count. *)
Theorem fsys_hash_init_frame t i :
  0 <= i < BINS ->
  length (bins (fsys_hash_init EMPTYHASHFLAG t) i) = length (bins t i)
  /\ (forall k fnn,
        bins t i !! k = Some fnn ->
        exists fnn',
          bins (fsys_hash_init EMPTYHASHFLAG t) i !! k = Some fnn'
          /\ same_identity fnn' fnn
          /\ flags fnn' = 0 /\ oldhash fnn' = None
          /\ newhash fnn' = Some EMPTYHASHFLAG /\ file_ondisk_id fnn' = None)
  /\ nfiles (fsys_hash_init EMPTYHASHFLAG t) = nfiles t
  /\ bins (fsys_hash_reset t) i = []
  /\ nfiles (fsys_hash_reset t) = 0.
Proof.
  intros Hi. unfold fsys_hash_init, fsys_hash_reset. simpl.
  destruct (0 <=? i) eqn:E1; [|apply Z.leb_gt in E1; lia].
  destruct (i <? BINS) eqn:E2; [|apply Z.ltb_ge in E2; lia]. simpl.
  split; [apply length_map|]. split; [|done].
  intros k fnn Hk. exists (clear_node EMPTYHASHFLAG fnn).
  split; [|done].
  change (map (clear_node EMPTYHASHFLAG) (bins t i))
    with (clear_node EMPTYHASHFLAG <$> bins t i).
  by rewrite list_lookup_fmap, Hk.
Qed.

End TableFacts.


Lemma fsys_hash_init_frame_witness :
  let t := {| bins := fun i =>
                if i =? 7
                then [ {| name := lit "/etc/passwd"; packages := [lit "base-files"];
                          divert := None; statoverride := None;
                          trig_interested := []; flags := 66;
                          oldhash := Some (lit "0123"); newhash := Some (lit "4567");
                          file_ondisk_id := Some {| id_dev := 1; id_ino := 2 |} |} ]
                else [];
              nfiles := 1 |} in
  length (bins (fsys_hash_init (lit "-") t) 7) = 1%nat
  /\ nfiles (fsys_hash_init (lit "-") t) = 1.
Proof.
  intros t.
  destruct (fsys_hash_init_frame (lit "-") t 7) as (Hl & _ & Hn & _);
    [unfold BINS; lia|].
  split; [exact Hl | exact Hn].
Defined.

(** C7 as stated fails for the function called reset: after
    [fsys_hash_reset] the node that a lookup has just stored is gone. *)
Lemma fsys_hash_reset_counterexample :
  let hash := fun s : list ascii => Z.of_nat (length s) in
  exists b fnn t,
    fsys_hash_find_node hash (lit "-") empty_table (lit "/usr/bin/dpkg") 0
    = FindNode b O fnn t
    /\ bins t b = [fnn]
    /\ nfiles t = 1
    /\ bins (fsys_hash_reset t) b = []
    /\ nfiles (fsys_hash_reset t) = 0.
Proof. intros hash. eexists _, _, _. repeat split. Qed.

End FsysFacts.

(* ===================================================================== *)
(** * parsehelp.c: further properties                                     *)
(* ===================================================================== *)

Module ParseHelpFacts.
Import ParseHelp.

(** ** The shape of a string *)

Lemma no_char_split c s :
  no_char c s = false ->
  exists pre post, s = pre ++ c :: post /\ no_char c pre = true.
Proof.
  induction s as [|x s IH]; simpl; [done|].
  destruct (Ascii.eqb x c) eqn:E; simpl.
  - intros _. apply Ascii.eqb_eq in E as ->. by exists [], s.
  - intros H. destruct (IH H) as (pre & post & -> & Hpre).
    exists (x :: pre), post. simpl. by rewrite E.
Qed.

Lemma strrchr_None s c : strrchr s c = None -> no_char c s = true.
Proof.
  induction s as [|x s IH]; simpl; [done|].
  destruct (strrchr s c); [done|].
  destruct (Ascii.eqb x c); [done|]. intros _. by rewrite IH.
Qed.

Lemma strrchr_Some s c h :
  strrchr s c = Some h ->
  s = take h s ++ c :: drop (S h) s /\ no_char c (drop (S h) s) = true.
Proof.
  revert h. induction s as [|x s IH]; intros h; simpl; [done|].
  destruct (strrchr s c) as [i|] eqn:E.
  - intros [= <-]. destruct (IH i eq_refl) as [Hs Hn]. simpl.
    split; [by rewrite <- Hs|done].
  - destruct (Ascii.eqb x c) eqn:Ex; [|done].
    intros [= <-]. apply Ascii.eqb_eq in Ex as ->. simpl.
    rewrite drop_0. split; [done|]. by apply strrchr_None.
Qed.

(** A string is all blanks, or one blank-free token between blanks, or a
    token followed by blanks and more text. *)
Lemma string_shape s :
  all_blank s = true
  \/ (exists b1 tok b2,
        s = b1 ++ tok ++ b2 /\ all_blank b1 = true /\ all_blank b2 = true
        /\ tok <> [] /\ no_blank tok = true)
  \/ (exists b1 tok b2 c rest,
        s = b1 ++ tok ++ b2 ++ c :: rest /\ all_blank b1 = true
        /\ tok <> [] /\ no_blank tok = true
        /\ all_blank b2 = true /\ b2 <> [] /\ c_isblank c = false).
Proof.
  set (k := span_len c_isblank s).
  pose proof (span_len_take c_isblank s) as Hb1. fold k in Hb1.
  rewrite <- (take_drop k s).
  destruct (drop k s) as [|c0 string'] eqn:Estr.
  { left. rewrite app_nil_r. exact Hb1. }
  right.
  pose proof (span_len_drop _ _ _ _ Estr) as Hc0.
  set (string := c0 :: string') in *.
  set (e := span_len (fun c => negb (c_isblank c)) string).
  pose proof (span_len_take (fun c => negb (c_isblank c)) string) as Htok.
  fold e in Htok.
  assert (Htne : take e string <> []).
  { subst e string. simpl. by rewrite Hc0. }
  rewrite <- (take_drop e string).
  destruct (drop e string) as [|c1 r1'] eqn:Er1.
  { left. exists (take k s), (take e string), []. by rewrite app_nil_r. }
  pose proof (span_len_drop _ _ _ _ Er1) as Hc1. apply negb_false_iff in Hc1.
  set (r1 := c1 :: r1') in *.
  set (m := span_len c_isblank r1).
  pose proof (span_len_take c_isblank r1) as Hb2. fold m in Hb2.
  assert (Hb2ne : take m r1 <> []).
  { subst m r1. simpl. by rewrite Hc1. }
  rewrite <- (take_drop m r1).
  destruct (drop m r1) as [|c2 rest] eqn:Erest.
  - left. exists (take k s), (take e string), (take m r1).
    by rewrite app_nil_r.
  - right. exists (take k s), (take e string), (take m r1), c2, rest.
    pose proof (span_len_drop _ _ _ _ Erest). done.
Qed.

Lemma parseversion_blank rv s :
  all_blank s = true ->
  parseversion rv s = fail rv (dpkg_put_error "version string is empty").
Proof.
  intros Hs. unfold parseversion.
  by rewrite (span_len_all c_isblank s Hs), drop_all.
Qed.

Lemma parseversion_embedded rv b1 tok b2 c rest :
  all_blank b1 = true -> tok <> [] -> no_blank tok = true ->
  all_blank b2 = true -> b2 <> [] -> c_isblank c = false ->
  parseversion rv (b1 ++ tok ++ b2 ++ c :: rest)
  = fail rv (dpkg_put_error "version string has embedded spaces").
Proof.
  intros Hb1 Hne Htok Hb2 Hb2ne Hc. unfold parseversion.
  assert (H0 : span_len c_isblank (tok ++ b2 ++ c :: rest) = O).
  { destruct tok as [|x tok]; [done|]. simpl in *.
    apply andb_prop in Htok as [Hx _]. apply negb_true_iff in Hx. by rewrite Hx. }
  rewrite (span_len_app_all c_isblank b1) by done.
  rewrite H0, Nat.add_0_r, drop_app_length.
  destruct (tok ++ b2 ++ c :: rest) as [|x0 s0] eqn:Es; [by destruct tok|].
  rewrite <- Es.
  rewrite (span_len_app_all (fun c => negb (c_isblank c)) tok) by done.
  assert (H1 : span_len (fun c => negb (c_isblank c)) (b2 ++ c :: rest) = O).
  { destruct b2 as [|x b2]; [done|]. simpl in *.
    apply andb_prop in Hb2 as [-> _]. done. }
  rewrite H1, Nat.add_0_r, drop_app_length.
  rewrite (span_len_app_all c_isblank b2) by done.
  simpl span_len. rewrite Hc, Nat.add_0_r.
  rewrite <- drop_drop, drop_app_length, drop_app_length. done.
Qed.

Lemma all_blank_app s t : all_blank (s ++ t) = all_blank s && all_blank t.
Proof. apply forallb_app. Qed.

(** Blanks behind the token only matter to the test for text after the
    colon. *)
Lemma parse_epoch_trailing rv tok x y :
  all_blank x = true -> all_blank y = true ->
  err (parse_epoch rv (tok ++ x) (length tok))
  <> Some (error "nothing after colon in version number") ->
  parse_epoch rv (tok ++ x ++ y) (length tok)
  = parse_epoch rv (tok ++ x) (length tok).
Proof.
  intros Hx Hy Hnot.
  destruct (no_char ":" tok) eqn:Ec.
  - rewrite !parse_epoch_no_colon; try done.
    by rewrite all_blank_app, Hx, Hy.
  - destruct (no_char_split _ _ Ec) as (pre & post & -> & Hpre).
    revert Hnot. rewrite !parse_epoch_colon by done. simpl.
    repeat case_match; try done; simplify_list_eq; try done.
    exfalso.
    match goal with
    | H : _ ++ _ ++ _ = [] |- _ =>
        apply app_eq_nil in H as [-> H]; apply app_eq_nil in H as [-> ->]
    end.
    done.
Qed.

(** ** Leading and trailing blanks *)

(** Blanks in front of the string and behind it change nothing, unless
    the string ends in the colon of its epoch: then the blank behind the
    colon is taken for text after it. *)
Theorem parseversion_trim rv b1 s b2 :
  all_blank b1 = true -> all_blank b2 = true ->
  err (parseversion rv s)
  <> Some (error "nothing after colon in version number") ->
  parseversion rv (b1 ++ s ++ b2) = parseversion rv s.
Proof.
  intros Hb1 Hb2 Hnot.
  destruct (string_shape s)
    as [Hs|[(a1 & tok & a2 & -> & Ha1 & Ha2 & Hne & Htok)
           |(a1 & tok & a2 & c & rest & -> & Ha1 & Hne & Htok & Ha2 & Ha2ne & Hc)]].
  - rewrite !parseversion_blank; try done.
    by rewrite !all_blank_app, Hb1, Hs, Hb2.
  - rewrite parseversion_token in Hnot by done.
    rewrite (parseversion_token rv a1 tok a2) by done.
    replace (b1 ++ (a1 ++ tok ++ a2) ++ b2)
      with ((b1 ++ a1) ++ tok ++ (a2 ++ b2)) by (by rewrite <- !app_assoc).
    rewrite parseversion_token; try done.
    + by apply parse_epoch_trailing.
    + by rewrite all_blank_app, Hb1, Ha1.
    + by rewrite all_blank_app, Ha2, Hb2.
  - replace (b1 ++ (a1 ++ tok ++ a2 ++ c :: rest) ++ b2)
      with ((b1 ++ a1) ++ tok ++ a2 ++ c :: (rest ++ b2))
      by (by rewrite <- !app_assoc).
    rewrite !parseversion_embedded; try done.
    by rewrite all_blank_app, Hb1, Ha1.
Qed.

Lemma parseversion_trim_witness :
  parseversion blank_version (lit "  1:2.0-3 ")
  = parseversion blank_version (lit "1:2.0-3").
Proof.
  apply (parseversion_trim blank_version (lit "  ") (lit "1:2.0-3") (lit " "));
    [reflexivity | reflexivity | vm_compute; discriminate].
Defined.

(** ** What a result that is not a hard error has stored *)

Lemma check_syntax_not_hard rv ver rev :
  not_hard (check_syntax rv ver rev) -> ver <> [].
Proof. unfold check_syntax, not_hard. by destruct ver. Qed.

Lemma split_revision_not_hard rv text :
  not_hard (split_revision rv text) ->
  exists u rev,
    text = u ++ hyphen_tail rev
    /\ split_revision rv text
       = check_syntax {| epoch := epoch rv; version := Some u; revision := Some rev |}
           u rev
    /\ u <> [] /\ no_char "-" rev = true
    /\ (rev = [] -> no_char "-" u = true).
Proof.
  unfold split_revision.
  destruct (strrchr text "-") as [h|] eqn:Eh.
  - destruct (strrchr_Some _ _ _ Eh) as [Htext Hrev].
    destruct (drop (S h) text) as [|c rev'] eqn:Erev; [done|].
    intros Hsoft. exists (take h text), (c :: rev').
    split; [done|]. split; [done|].
    split; [by eapply check_syntax_not_hard|]. done.
  - intros Hsoft. exists text, [].
    unfold hyphen_tail. simpl. rewrite app_nil_r.
    split; [done|]. split; [done|].
    split; [by eapply check_syntax_not_hard|].
    split; [done|]. intros _. by apply strrchr_None.
Qed.

Lemma parse_epoch_not_hard rv tok b2 :
  all_blank b2 = true ->
  not_hard (parse_epoch rv (tok ++ b2) (length tok)) ->
  exists e u rev,
    after_epoch tok e (u ++ hyphen_tail rev)
    /\ parse_epoch rv (tok ++ b2) (length tok)
       = check_syntax {| epoch := e; version := Some u; revision := Some rev |} u rev
    /\ u <> [] /\ no_char "-" rev = true
    /\ (rev = [] -> no_char "-" u = true).
Proof.
  intros Hb2.
  destruct (no_char ":" tok) eqn:Ec.
  - rewrite parse_epoch_no_colon by done. intros Hsoft.
    destruct (split_revision_not_hard _ _ Hsoft) as (u & rev & Ht & Hs & Hu & Hr & Hur).
    exists 0, u, rev. split; [left; by rewrite <- Ht|]. done.
  - destruct (no_char_split _ _ Ec) as (pre & post & -> & Hpre).
    rewrite parse_epoch_colon by done. simpl.
    destruct (strtol10 pre) as [v e er] eqn:En. simpl.
    destruct (decide (e = O)); [done|].
    destruct (decide (e <> length pre)) as [|He]; [done|].
    destruct (v <? 0) eqn:E1; [done|].
    destruct (INT_MAX <? v) eqn:E2; [done|].
    destruct er; [done|]. simpl.
    destruct (post ++ b2) eqn:Epb; [done|].
    intros Hsoft.
    destruct (split_revision_not_hard _ _ Hsoft) as (u & rev & Ht & Hs & Hu & Hr & Hur).
    simpl in Hs. exists v, u, rev.
    split; [|done].
    right. exists pre. rewrite <- Ht.
    apply Z.ltb_ge in E1. apply Z.ltb_ge in E2.
    assert (e = length pre) as -> by (destruct (decide (e = length pre)); done).
    repeat split; try done; try lia.
    + by destruct pre.
    + rewrite Ht. by destruct u.
Qed.

Lemma parseversion_not_hard rv s :
  not_hard (parseversion rv s) ->
  exists b1 tok b2 e u rev,
    s = b1 ++ tok ++ b2 /\ all_blank b1 = true /\ all_blank b2 = true
    /\ no_blank tok = true
    /\ after_epoch tok e (u ++ hyphen_tail rev)
    /\ parseversion rv s
       = check_syntax {| epoch := e; version := Some u; revision := Some rev |} u rev
    /\ u <> [] /\ no_char "-" rev = true
    /\ (rev = [] -> no_char "-" u = true).
Proof.
  destruct (string_shape s)
    as [Hs|[(a1 & tok & a2 & -> & Ha1 & Ha2 & Hne & Htok)
           |(a1 & tok & a2 & c & rest & -> & Ha1 & Hne & Htok & Ha2 & Ha2ne & Hc)]].
  - by rewrite parseversion_blank.
  - rewrite parseversion_token by done. intros Hsoft.
    destruct (parse_epoch_not_hard _ _ _ Ha2 Hsoft)
      as (e & u & rev & Hafter & Hp & Hrest).
    exists a1, tok, a2, e, u, rev. done.
  - by rewrite parseversion_embedded.
Qed.

(** Whenever [parseversion] succeeds or only warns, the string is one
    blank-free token between blanks, and the version stored is the exact
    split of that token: the epoch read off in front of the first colon (0
    without one), then the upstream, then a hyphen and the revision unless
    the revision is empty; the upstream is not empty, the revision has no
    hyphen, and without a revision neither has the upstream. *)
Theorem parseversion_stores_split rv s :
  not_hard (parseversion rv s) ->
  exists b1 tok b2 u rev,
    s = b1 ++ tok ++ b2 /\ all_blank b1 = true /\ all_blank b2 = true
    /\ no_blank tok = true
    /\ after_epoch tok (epoch (rversion (parseversion rv s))) (u ++ hyphen_tail rev)
    /\ version (rversion (parseversion rv s)) = Some u
    /\ revision (rversion (parseversion rv s)) = Some rev
    /\ u <> [] /\ no_char "-" rev = true
    /\ (rev = [] -> no_char "-" u = true).
Proof.
  intros Hsoft.
  destruct (parseversion_not_hard _ _ Hsoft)
    as (b1 & tok & b2 & e & u & rev & Hs & Hb1 & Hb2 & Htok & Hafter & -> & Hrest).
  exists b1, tok, b2, u, rev. rewrite check_syntax_rversion. simpl. done.
Qed.

Lemma parseversion_stores_split_witness :
  exists b1 tok b2 u rev,
    lit " 1:a.0-x " = b1 ++ tok ++ b2 /\ all_blank b1 = true /\ all_blank b2 = true
    /\ no_blank tok = true
    /\ after_epoch tok
         (epoch (rversion (parseversion blank_version (lit " 1:a.0-x "))))
         (u ++ hyphen_tail rev)
    /\ version (rversion (parseversion blank_version (lit " 1:a.0-x "))) = Some u
    /\ revision (rversion (parseversion blank_version (lit " 1:a.0-x "))) = Some rev
    /\ u <> [] /\ no_char "-" rev = true
    /\ (rev = [] -> no_char "-" u = true).
Proof.
  apply (parseversion_stores_split blank_version (lit " 1:a.0-x ")).
  reflexivity.
Defined.

(** ** Rendering what was parsed *)

Lemma check_syntax_rc_0 rv ver rev :
  rc (check_syntax rv ver rev) = 0 ->
  well_formed {| epoch := epoch rv; version := Some ver; revision := Some rev |} = true
  /\ check_syntax rv ver rev = {| rc := 0; rversion := rv; err := None |}.
Proof.
  unfold check_syntax, well_formed, upstream_of, revision_of. simpl.
  destruct ver as [|c ptr]; [done|].
  destruct (c_isdigit c); [|done].
  destruct (forallb valid_version_char ptr); [|done].
  destruct (forallb valid_revision_char rev); [|done]. simpl. done.
Qed.

(** The rendering of a reparsable version reaches the syntax checks with
    the three components it was rendered from. *)
Lemma render_parse rv v vdew :
  vdew <> vdew_never -> reparsable v = true ->
  parseversion rv (varbufversion [] v vdew)
  = check_syntax
      {| epoch := epoch v; version := Some (upstream_of v);
         revision := Some (revision_of v) |}
      (upstream_of v) (revision_of v).
Proof.
  intros Hmode Hv. unfold reparsable in Hv.
  rewrite !andb_true_iff in Hv.
  destruct Hv as ((((((He0 & He1) & Hnbu) & Hnbr) & Hhr) & Hhu) & Hne).
  apply Z.leb_le in He0, He1.
  rewrite varbufversion_shape.
  set (u := upstream_of v) in *. set (rev := revision_of v) in *.
  fold (hyphen_tail rev).
  assert (Hnb : no_blank (u ++ hyphen_tail rev) = true).
  { rewrite no_blank_app, Hnbu. unfold hyphen_tail. by destruct rev. }
  assert (Hrne : u ++ hyphen_tail rev <> []).
  { unfold hyphen_tail. destruct u, rev; simpl in *; done. }
  assert (Hsplit : forall rv',
    split_revision rv' (u ++ hyphen_tail rev)
    = check_syntax {| epoch := epoch rv'; version := Some u; revision := Some rev |}
        u rev).
  { intros rv'. unfold hyphen_tail. destruct rev as [|c rev'] eqn:Erev; simpl.
    - rewrite app_nil_r. by apply split_revision_none.
    - by apply split_revision_some. }
  destruct (shows_epoch v vdew) eqn:Eshow.
  - rewrite <- app_assoc. simpl app.
    pose proof (fmt_u_digits (epoch v) He0) as Hds.
    pose proof (fmt_u_nonempty (epoch v)) as Hfne.
    pose proof (parseversion_token rv []
                  (fmt_u (epoch v) ++ ":"%char :: u ++ hyphen_tail rev) []) as Ht.
    rewrite app_nil_r in Ht. simpl app in Ht. rewrite Ht; clear Ht; try done.
    2:{ by destruct (fmt_u (epoch v)). }
    2:{ rewrite no_blank_app, (digits_no_blank _ Hds). simpl. done. }
    pose proof (parse_epoch_colon rv (fmt_u (epoch v)) (u ++ hyphen_tail rev) []
                  (digits_no_colon _ Hds)) as Hep.
    rewrite !app_nil_r in Hep. rewrite Hep; clear Hep.
    rewrite strtol10_digits; try done.
    2:{ rewrite fmt_u_value; unfold UINT_MAX, LONG_MAX, INT_MAX in *; lia. }
    rewrite fmt_u_value by (unfold UINT_MAX, INT_MAX in *; lia). simpl.
    destruct (decide (length (fmt_u (epoch v)) = O)) as [Hl|_];
      [by destruct (fmt_u (epoch v))|].
    destruct (decide (length (fmt_u (epoch v)) <> length (fmt_u (epoch v)))); [done|].
    destruct (epoch v <? 0) eqn:E1; [apply Z.ltb_lt in E1; lia|].
    destruct (INT_MAX <? epoch v) eqn:E2; [apply Z.ltb_lt in E2; lia|].
    simpl. destruct (u ++ hyphen_tail rev) eqn:E; [by destruct Hrne|].
    by rewrite Hsplit.
  - simpl app.
    assert (Hnc : epoch v = 0 /\ no_char ":" u = true /\ no_char ":" rev = true).
    { unfold shows_epoch in Eshow. destruct vdew; [done| |done].
      apply negb_false_iff in Eshow.
      rewrite !andb_true_iff in Eshow. destruct Eshow as [[E0 ?] ?].
      apply Z.eqb_eq in E0. done. }
    destruct Hnc as (He & Hcu & Hcr).
    pose proof (parseversion_token rv [] (u ++ hyphen_tail rev) []) as Ht.
    rewrite app_nil_r in Ht. simpl app in Ht. rewrite Ht; clear Ht; try done.
    pose proof (parse_epoch_no_colon rv (u ++ hyphen_tail rev) []) as Hep.
    rewrite app_nil_r in Hep. rewrite Hep; clear Hep; try done.
    2:{ rewrite no_char_app, Hcu. unfold hyphen_tail. by destruct rev. }
    rewrite Hsplit. simpl. by rewrite He.
Qed.

Lemma after_epoch_range tok e rest : after_epoch tok e rest -> 0 <= e <= INT_MAX.
Proof.
  intros [(_ & -> & _)|(pre & _ & _ & _ & _ & _ & He)]; [|done].
  unfold INT_MAX. lia.
Qed.

Lemma after_epoch_no_blank tok e rest :
  after_epoch tok e rest -> no_blank tok = true -> no_blank rest = true.
Proof.
  intros [(_ & _ & ->)|(pre & -> & _)]; [done|].
  rewrite no_blank_app. intros [_ H]%andb_prop.
  change (true && no_blank rest = true) in H. done.
Qed.

(** A version that [parseversion] returns with code 0 is rendered by
    [varbufversion], under [vdew_nonambig] or [vdew_always], into a string
    that [parseversion] reads back, again with code 0, as the very same
    version. *)
Theorem parseversion_render_stable rv rv' s vdew :
  rc (parseversion rv s) = 0 -> vdew <> vdew_never ->
  parseversion rv' (varbufversion [] (rversion (parseversion rv s)) vdew)
  = {| rc := 0; rversion := rversion (parseversion rv s); err := None |}.
Proof.
  intros Hrc Hmode.
  assert (Hsoft : not_hard (parseversion rv s)).
  { pose proof (parseversion_graded rv s) as Hg. unfold graded, not_hard in *.
    destruct (err (parseversion rv s)); [|done]. destruct Hg as [Hg _]. lia. }
  destruct (parseversion_not_hard _ _ Hsoft)
    as (b1 & tok & b2 & e & u & rev & Hs & Hb1 & Hb2 & Htok & Hafter & Hp
        & Hu & Hr & Hur).
  rewrite Hp in Hrc |- *.
  destruct (check_syntax_rc_0 _ _ _ Hrc) as [Hwf Hcs]. simpl in Hwf.
  rewrite Hcs. simpl.
  set (v := {| epoch := e; version := Some u; revision := Some rev |}) in *.
  pose proof (after_epoch_range _ _ _ Hafter) as He.
  pose proof (after_epoch_no_blank _ _ _ Hafter Htok) as Hnb.
  rewrite no_blank_app in Hnb. apply andb_prop in Hnb as [Hnbu Hnbt].
  assert (Hrep : reparsable v = true).
  { unfold reparsable, v, upstream_of, revision_of. simpl.
    destruct He as [He0 He1]. apply Z.leb_le in He0, He1.
    rewrite He0, He1, Hnbu, Hr. simpl.
    assert (no_blank rev = true) as ->.
    { unfold hyphen_tail in Hnbt. by destruct rev. }
    simpl. destruct rev; simpl.
    - rewrite Hur by done. by destruct u.
    - by rewrite andb_false_r. }
  rewrite (render_parse rv' v vdew Hmode Hrep).
  unfold v, upstream_of, revision_of. simpl.
  unfold well_formed, upstream_of, revision_of in Hwf. simpl in Hwf.
  destruct u as [|c ptr]; [done|].
  apply andb_prop in Hwf as [[Hc Hptr]%andb_prop Hrev].
  by rewrite check_syntax_ok.
Qed.

Lemma parseversion_render_stable_witness :
  parseversion blank_version
    (varbufversion [] (rversion (parseversion blank_version (lit " 0:1:2-3 ")))
       vdew_nonambig)
  = {| rc := 0;
       rversion := rversion (parseversion blank_version (lit " 0:1:2-3 "));
       err := None |}.
Proof.
  apply (parseversion_render_stable blank_version blank_version (lit " 0:1:2-3 ")
           vdew_nonambig); [reflexivity | discriminate].
Defined.

(** ** The static buffers of [versiondescribe] *)

(** Linear arithmetic with remainders. *)
Ltac mod_vars :=
  repeat match goal with
  | |- context [Nat.modulo ?a ?b] =>
      pose proof (Nat.div_mod_eq a b);
      pose proof (Nat.mod_upper_bound a b ltac:(lia));
      generalize dependent (Nat.modulo a b);
      generalize dependent (Nat.div a b); intros
  | H : context [Nat.modulo ?a ?b] |- _ =>
      pose proof (Nat.div_mod_eq a b);
      pose proof (Nat.mod_upper_bound a b ltac:(lia));
      generalize dependent (Nat.modulo a b);
      generalize dependent (Nat.div a b); intros
  end.
Ltac mod_lia := mod_vars; lia.
#[local] Arguments Nat.modulo : simpl never.

Lemma versiondescribe_plain st v vdew :
  dpkg_version_is_informative v = false ->
  versiondescribe st v vdew = (lit "<none>", st).
Proof. intros H. unfold versiondescribe. by rewrite H. Qed.

Lemma versiondescribe_takes st v vdew :
  dpkg_version_is_informative v = true ->
  versiondescribe st v vdew
  = (varbufversion [] v vdew,
     {| bufs := <[bufnum st := varbufversion [] v vdew]> (bufs st);
        bufnum := if decide (S (bufnum st) = 10%nat) then O else S (bufnum st) |}).
Proof. intros H. unfold versiondescribe. by rewrite H. Qed.

(** The buffer [i] handed out [d] calls ago stays as it is while no more
    than ten buffers have been taken since. *)
Lemma describe_calls_keeps calls : forall st i d,
  (i < 10)%nat -> (1 <= d <= 10)%nat ->
  bufnum st = ((i + d) mod 10)%nat -> length (bufs st) = 10%nat ->
  (informative_calls calls + d <= 10)%nat ->
  bufs (snd (describe_calls st calls)) !! i = bufs st !! i.
Proof.
  induction calls as [|[v vdew] calls IH]; intros st i d Hi Hd Hnum Hlen Hcount;
    [done|].
  simpl in Hcount |- *.
  destruct (dpkg_version_is_informative v) eqn:Ev.
  - rewrite (versiondescribe_takes _ _ _ Ev).
    destruct (describe_calls _ calls) as [ss st2] eqn:Ecalls. simpl.
    change st2 with (snd (ss, st2)). rewrite <- Ecalls.
    assert (Hne : bufnum st <> i) by mod_lia.
    rewrite (IH _ i (S d)); cbn [bufs bufnum]; try lia.
    + by rewrite list_lookup_insert_ne.
    + case_decide; mod_lia.
    + by rewrite length_insert.
  - rewrite (versiondescribe_plain _ _ _ Ev).
    destruct (describe_calls st calls) as [ss st2] eqn:Ecalls. simpl.
    change st2 with (snd (ss, st2)). rewrite <- Ecalls.
    by apply (IH st i d).
Qed.

Lemma describe_calls_state calls : forall st,
  (bufnum st < 10)%nat -> length (bufs st) = 10%nat ->
  bufnum (snd (describe_calls st calls))
  = ((bufnum st + informative_calls calls) mod 10)%nat
  /\ length (bufs (snd (describe_calls st calls))) = 10%nat.
Proof.
  induction calls as [|[v vdew] calls IH]; intros st Hnum Hlen; simpl.
  - split; [mod_lia|done].
  - destruct (dpkg_version_is_informative v) eqn:Ev.
    + rewrite (versiondescribe_takes _ _ _ Ev).
      destruct (describe_calls _ calls) as [ss st2] eqn:Ecalls. simpl.
      change st2 with (snd (ss, st2)). rewrite <- Ecalls.
      destruct (IH {| bufs := <[bufnum st := varbufversion [] v vdew]> (bufs st);
                      bufnum := if decide (S (bufnum st) = 10%nat)
                                then O else S (bufnum st) |})
        as [-> ->]; cbn [bufs bufnum].
      * case_decide; lia.
      * by rewrite length_insert.
      * split; [|done]. case_decide; mod_lia.
    + rewrite (versiondescribe_plain _ _ _ Ev).
      destruct (describe_calls st calls) as [ss st2] eqn:Ecalls. simpl.
      change st2 with (snd (ss, st2)). rewrite <- Ecalls.
      by apply IH.
Qed.

Lemma describe_calls_app calls1 calls2 st :
  snd (describe_calls st (calls1 ++ calls2))
  = snd (describe_calls (snd (describe_calls st calls1)) calls2).
Proof.
  revert st. induction calls1 as [|[v vdew] calls1 IH]; intros st; simpl; [done|].
  destruct (versiondescribe st v vdew) as [s st1].
  specialize (IH st1).
  destruct (describe_calls st1 (calls1 ++ calls2)) as [ss st2].
  destruct (describe_calls st1 calls1) as [ss' st2']. simpl in *.
  done.
Qed.

(** The string [versiondescribe] returns for an informative version lives
    in one of ten static buffers: it is still there after any run of calls
    of which at most nine take a buffer, and the tenth such call stores its
    own rendering over it. *)
Theorem versiondescribe_buffer_lifetime st v vdew later :
  (bufnum st < 10)%nat -> length (bufs st) = 10%nat ->
  dpkg_version_is_informative v = true ->
  let st1 := snd (versiondescribe st v vdew) in
  fst (versiondescribe st v vdew) = varbufversion [] v vdew
  /\ ((informative_calls later <= 9)%nat ->
      bufs (snd (describe_calls st1 later)) !! bufnum st
      = Some (varbufversion [] v vdew))
  /\ (forall v' vdew',
        informative_calls later = 9%nat ->
        dpkg_version_is_informative v' = true ->
        bufs (snd (describe_calls st1 (later ++ [(v', vdew')]))) !! bufnum st
        = Some (varbufversion [] v' vdew')).
Proof.
  intros Hnum Hlen Hv st1. subst st1.
  rewrite (versiondescribe_takes _ _ _ Hv). simpl.
  set (st1 := {| bufs := _; bufnum := _ |}).
  assert (Hnum1 : bufnum st1 = ((bufnum st + 1) mod 10)%nat).
  { subst st1. cbn [bufnum]. case_decide; mod_lia. }
  assert (Hlen1 : length (bufs st1) = 10%nat).
  { subst st1. simpl. by rewrite length_insert. }
  split; [done|]. split.
  - intros Hcount.
    rewrite (describe_calls_keeps later st1 (bufnum st) 1); try done; try lia.
    subst st1. simpl. apply list_lookup_insert_eq. lia.
  - intros v' vdew' Hcount Hv'.
    rewrite describe_calls_app. simpl.
    assert (Hlt1 : (bufnum st1 < 10)%nat) by mod_lia.
    destruct (describe_calls_state later st1 Hlt1 Hlen1) as [Hn2 Hl2].
    rewrite (versiondescribe_takes _ _ _ Hv'). simpl.
    assert (bufnum (snd (describe_calls st1 later)) = bufnum st) as ->.
    { rewrite Hn2, Hnum1, Hcount. mod_lia. }
    apply list_lookup_insert_eq. lia.
Qed.

Lemma versiondescribe_buffer_lifetime_witness :
  let v := {| epoch := 1; version := Some (lit "2.0"); revision := None |} in
  let w := {| epoch := 0; version := Some (lit "3"); revision := None |} in
  let st1 := snd (versiondescribe describe_init v vdew_nonambig) in
  bufs (snd (describe_calls st1 (replicate 9 (w, vdew_never)))) !! O
  = Some (lit "1:2.0")
  /\ bufs (snd (describe_calls st1 (replicate 9 (w, vdew_never)
                                     ++ [(w, vdew_never)]))) !! O
     = Some (lit "3").
Proof.
  intros v w st1.
  destruct (versiondescribe_buffer_lifetime describe_init v vdew_nonambig
              (replicate 9 (w, vdew_never)))
    as (_ & Hkeep & Hover); [simpl; lia | reflexivity | reflexivity |].
  split.
  - apply Hkeep. simpl. lia.
  - apply (Hover w vdew_never); reflexivity.
Defined.

(** ** Package names *)

Lemma span_len_all_inv p s : span_len p s = length s -> forallb p s = true.
Proof.
  induction s as [|c s IH]; simpl; [done|].
  destruct (p c); simpl; [|done]. intros [= H]. by apply IH.
Qed.

Lemma pkg_name_scan c0 rest :
  c_isalnum c0 = true ->
  pkg_name_is_illegal (c0 :: rest)
  = match drop (span_len name_char rest) rest with
    | [] => None
    | c :: _ => Some (not_allowed c)
    end.
Proof.
  intros H0. unfold pkg_name_is_illegal. rewrite H0. cbn [negb].
  change (fun c => c_isalnum c || bool_decide (is_Some (strchr alsoallowed c)))
    with name_char.
  cbn [span_len].
  assert (name_char c0 = true) as -> by (unfold name_char; by rewrite H0).
  cbn [drop]. by destruct (drop (span_len name_char rest) rest).
Qed.

(** [pkg_name_is_illegal] returns NULL exactly for the non-empty names that
    start with a letter or digit and go on with letters, digits and
    [-+._]; the empty name and a bad first character have their own
    complaints, and otherwise the complaint names the first character that
    is not allowed. *)
Theorem pkg_name_is_illegal_spec p :
  (pkg_name_is_illegal p = None <-> legal_name p = true)
  /\ (p = [] -> pkg_name_is_illegal p = Some (lit "may not be empty string"))
  /\ (forall c rest,
        p = c :: rest -> c_isalnum c = false ->
        pkg_name_is_illegal p
        = Some (lit "must start with an alphanumeric character"))
  /\ (forall good c rest,
        p = good ++ c :: rest -> legal_name good = true -> name_char c = false ->
        pkg_name_is_illegal p = Some (not_allowed c)).
Proof.
  split; [|split; [|split]].
  - destruct p as [|c0 rest]; [done|].
    unfold legal_name.
    destruct (c_isalnum c0) eqn:E0; [|unfold pkg_name_is_illegal; by rewrite E0].
    rewrite (pkg_name_scan _ _ E0). cbn [andb].
    destruct (drop (span_len name_char rest) rest) as [|c t] eqn:Ed.
    + split; [intros _|done]. apply span_len_all_inv.
      pose proof (span_len_le name_char rest).
      apply (f_equal length) in Ed. rewrite length_drop in Ed. simpl in Ed. lia.
    + split; [done|]. intros Hall.
      rewrite (span_len_all _ _ Hall), drop_all in Ed. done.
  - by intros ->.
  - intros c rest -> Hc. unfold pkg_name_is_illegal. by rewrite Hc.
  - intros good c rest -> Hgood Hc. unfold legal_name in Hgood.
    destruct good as [|c0 good]; [done|]. cbn [app].
    apply andb_prop in Hgood as [Hc0 Hgood].
    rewrite (pkg_name_scan _ _ Hc0).
    rewrite (span_len_app_stop name_char good c rest Hc).
    by rewrite (span_len_all _ _ Hgood), drop_app_length.
Qed.

Lemma pkg_name_is_illegal_spec_witness :
  pkg_name_is_illegal (lit "libfoo2.0-dev") = None
  /\ pkg_name_is_illegal (lit "lib/foo") = Some (not_allowed "/").
Proof.
  destruct (pkg_name_is_illegal_spec (lit "libfoo2.0-dev")) as ([_ H1] & _).
  destruct (pkg_name_is_illegal_spec (lit "lib/foo")) as (_ & _ & _ & H2).
  split; [apply H1; reflexivity|].
  apply (H2 (lit "lib") "/"%char (lit "foo")); reflexivity.
Defined.

(** ** Field tables *)

Lemma code_inj x y : code x = code y -> x = y.
Proof.
  unfold code. intros H. apply Nat2Z.inj in H.
  rewrite <- (ascii_nat_embedding x), <- (ascii_nat_embedding y). by rewrite H.
Qed.

Lemma strcasecmp_zero a : forall b,
  strcasecmp a b = 0 <-> same_ignoring_case a b.
Proof.
  unfold same_ignoring_case.
  induction a as [|x a IH]; intros [|y b]; simpl; try done.
  destruct (code (tolower x) =? code (tolower y)) eqn:E.
  - apply Z.eqb_eq, code_inj in E. rewrite E, IH.
    split; [by intros ->|by intros [= ->]].
  - apply Z.eqb_neq in E. split.
    + by destruct (code (tolower x) <? code (tolower y)).
    + intros [= H _]. by rewrite H in E.
Qed.

Section FieldFacts.

Context {fieldinfo arbitraryfield : Type}.
Variable fieldinfo_name : fieldinfo -> list ascii.
Variable arbitraryfield_name : arbitraryfield -> list ascii.

Lemma find_field_info_first fields fieldname :
  match find_field_info fieldinfo fieldinfo_name fields fieldname with
  | Some field =>
      exists before after,
        fields = before ++ field :: after
        /\ same_ignoring_case (fieldinfo_name field) fieldname
        /\ Forall (fun g => ~ same_ignoring_case (fieldinfo_name g) fieldname) before
  | None =>
      Forall (fun g => ~ same_ignoring_case (fieldinfo_name g) fieldname) fields
  end.
Proof.
  induction fields as [|g fields IH]; simpl; [constructor|].
  destruct (strcasecmp (fieldinfo_name g) fieldname =? 0) eqn:E.
  - apply Z.eqb_eq, strcasecmp_zero in E. exists [], fields. by split.
  - apply Z.eqb_neq in E. rewrite strcasecmp_zero in E.
    destruct (find_field_info _ _ fields fieldname) as [field|].
    + destruct IH as (before & after & -> & Hm & Hb).
      exists (g :: before), after. split; [done|]. split; [done|].
      by constructor.
    + by constructor.
Qed.

Lemma find_field_info_case fields q q' :
  same_ignoring_case q q' ->
  find_field_info fieldinfo fieldinfo_name fields q
  = find_field_info fieldinfo fieldinfo_name fields q'.
Proof.
  intros Hq. induction fields as [|g fields IH]; simpl; [done|].
  rewrite IH.
  assert (Heq : (strcasecmp (fieldinfo_name g) q =? 0)
                = (strcasecmp (fieldinfo_name g) q' =? 0)); [|by rewrite Heq].
  unfold same_ignoring_case in Hq.
  destruct (strcasecmp (fieldinfo_name g) q =? 0) eqn:E1;
    destruct (strcasecmp (fieldinfo_name g) q' =? 0) eqn:E2; try done.
  - apply Z.eqb_eq, strcasecmp_zero in E1. apply Z.eqb_neq in E2.
    rewrite strcasecmp_zero in E2. unfold same_ignoring_case in *. congruence.
  - apply Z.eqb_eq, strcasecmp_zero in E2. apply Z.eqb_neq in E1.
    rewrite strcasecmp_zero in E1. unfold same_ignoring_case in *. congruence.
Qed.

Lemma find_arbfield_info_eq arbs fieldname :
  find_arbfield_info arbitraryfield arbitraryfield_name arbs fieldname
  = find_field_info arbitraryfield arbitraryfield_name arbs fieldname.
Proof. induction arbs as [|g arbs IH]; simpl; [done|]. by rewrite IH. Qed.

(** [find_field_info] and [find_arbfield_info] return the first entry
    whose name equals the field name up to the case of letters, no entry
    before it doing so, and NULL when no entry does; the case in which the
    field name is written does not matter. *)
Theorem find_field_info_spec fields arbs fieldname :
  match find_field_info fieldinfo fieldinfo_name fields fieldname with
  | Some field =>
      exists before after,
        fields = before ++ field :: after
        /\ same_ignoring_case (fieldinfo_name field) fieldname
        /\ Forall (fun g => ~ same_ignoring_case (fieldinfo_name g) fieldname) before
  | None =>
      Forall (fun g => ~ same_ignoring_case (fieldinfo_name g) fieldname) fields
  end
  /\ match find_arbfield_info arbitraryfield arbitraryfield_name arbs fieldname with
     | Some arb =>
         exists before after,
           arbs = before ++ arb :: after
           /\ same_ignoring_case (arbitraryfield_name arb) fieldname
           /\ Forall (fun g => ~ same_ignoring_case (arbitraryfield_name g) fieldname)
                before
     | None =>
         Forall (fun g => ~ same_ignoring_case (arbitraryfield_name g) fieldname) arbs
     end
  /\ (forall other,
        same_ignoring_case fieldname other ->
        find_field_info fieldinfo fieldinfo_name fields fieldname
        = find_field_info fieldinfo fieldinfo_name fields other
        /\ find_arbfield_info arbitraryfield arbitraryfield_name arbs fieldname
           = find_arbfield_info arbitraryfield arbitraryfield_name arbs other).
Proof.
  split; [apply find_field_info_first|]. split.
  - rewrite find_arbfield_info_eq.
    clear fields. revert arbs. clear fieldinfo_name.
    intros arbs. induction arbs as [|g arbs IH]; simpl; [constructor|].
    destruct (strcasecmp (arbitraryfield_name g) fieldname =? 0) eqn:E.
    + apply Z.eqb_eq, strcasecmp_zero in E. exists [], arbs. by split.
    + apply Z.eqb_neq in E. rewrite strcasecmp_zero in E.
      destruct (find_field_info _ _ arbs fieldname) as [field|].
      * destruct IH as (before & after & -> & Hm & Hb).
        exists (g :: before), after. split; [done|]. split; [done|].
        by constructor.
      * by constructor.
  - intros other Hq. split; [by apply find_field_info_case|].
    rewrite !find_arbfield_info_eq.
    clear fields. induction arbs as [|g arbs IH]; simpl; [done|].
    rewrite IH.
    assert (Heq : (strcasecmp (arbitraryfield_name g) fieldname =? 0)
                  = (strcasecmp (arbitraryfield_name g) other =? 0));
      [|by rewrite Heq].
    unfold same_ignoring_case in Hq.
    destruct (strcasecmp (arbitraryfield_name g) fieldname =? 0) eqn:E1;
      destruct (strcasecmp (arbitraryfield_name g) other =? 0) eqn:E2; try done.
    + apply Z.eqb_eq, strcasecmp_zero in E1. apply Z.eqb_neq in E2.
      rewrite strcasecmp_zero in E2. unfold same_ignoring_case in *. congruence.
    + apply Z.eqb_eq, strcasecmp_zero in E2. apply Z.eqb_neq in E1.
      rewrite strcasecmp_zero in E1. unfold same_ignoring_case in *. congruence.
Qed.

End FieldFacts.

Lemma find_field_info_spec_witness :
  let fields := [lit "Package"; lit "Version"; lit "version"] in
  find_field_info (list ascii) id fields (lit "VERSION") = Some (lit "Version")
  /\ find_field_info (list ascii) id fields (lit "version")
     = find_field_info (list ascii) id fields (lit "VERSION").
Proof.
  intros fields.
  destruct (find_field_info_spec (fieldinfo := list ascii)
              (arbitraryfield := list ascii) id id fields [] (lit "version"))
    as (_ & _ & H).
  destruct (H (lit "VERSION") eq_refl) as [Hcase _].
  split; [reflexivity | exact Hcase].
Defined.

(** ** The message buffer of [parse_error_msg] *)

Lemma rev_digits_length fuel : forall n, (length (rev_digits fuel n) <= fuel)%nat.
Proof.
  induction fuel as [|fuel IH]; intros n; simpl; [lia|].
  destruct (n <? 10); simpl; [lia|]. specialize (IH (n / 10)). lia.
Qed.

Lemma fmt_d_length n : (1 <= length (fmt_d n) <= 11)%nat.
Proof.
  assert (Hu : forall m, (1 <= length (fmt_u m) <= 10)%nat).
  { intros m. unfold fmt_u. rewrite length_rev, length_map.
    pose proof (rev_digits_length 10 m). split; [|done]. simpl. lia. }
  unfold fmt_d. destruct (n <? 0); simpl; [specialize (Hu (- n))|specialize (Hu n)]; lia.
Qed.

(** In range, ["%d"] writes the number: a minus sign for a negative one,
    and the digits of the absolute value. *)
Lemma fmt_d_value n :
  - INT_MAX - 1 <= n <= INT_MAX ->
  exists ds, forallb c_isdigit ds = true /\ digits_value ds = Z.abs n
             /\ fmt_d n = if n <? 0 then "-"%char :: ds else ds.
Proof.
  intros Hn. unfold fmt_d. unfold INT_MAX in Hn.
  destruct (n <? 0) eqn:E; [apply Z.ltb_lt in E|apply Z.ltb_ge in E].
  - exists (fmt_u (- n)). split; [apply fmt_u_digits; lia|]. split; [|done].
    rewrite fmt_u_value by (unfold UINT_MAX; lia). lia.
  - exists (fmt_u n). split; [by apply fmt_u_digits|]. split; [|done].
    rewrite fmt_u_value by (unfold UINT_MAX; lia). lia.
Qed.

(** With the untranslated formats, [sprintf] stays inside [msg]: the
    text and its terminator take at most 817 of the 1024 bytes, however
    long the file name, the package name and the caller's format are; and
    the caller's format is at the end of the text, whole when it has at
    most 255 characters. *)
Theorem parse_error_msg_fits filename lno pkgname fmt :
  (length (parse_error_msg filename lno pkgname fmt) + 1 <= 817)%nat
  /\ (817 <= MSG_SIZE)%nat
  /\ exists head,
       parse_error_msg filename lno pkgname fmt = head ++ take 255 fmt
       /\ ((length fmt <= 255)%nat ->
           parse_error_msg filename lno pkgname fmt = head ++ fmt).
Proof.
  pose proof (fmt_d_length lno) as Hd.
  assert (Ht : forall s : list ascii, (length (take 255 s) <= 255)%nat).
  { intros s. rewrite length_take. lia. }
  pose proof (Ht filename) as Hf. pose proof (Ht fmt) as Hm.
  split; [|split; [unfold MSG_SIZE; lia|]].
  - unfold parse_error_msg. destruct pkgname as [pkgname|].
    + pose proof (Ht pkgname) as Hp.
      rewrite !length_app. change (length (lit "parsing file '")) with 14%nat.
      change (length (lit "' near line ")) with 12%nat.
      change (length (lit " package '")) with 10%nat.
      change (length (lit "':")) with 2%nat.
      change (length ["010"%char; " "%char]) with 2%nat. lia.
    + rewrite !length_app. change (length (lit "parsing file '")) with 14%nat.
      change (length (lit "' near line ")) with 12%nat.
      change (length (lit ":")) with 1%nat.
      change (length ["010"%char; " "%char]) with 2%nat. lia.
  - unfold parse_error_msg. destruct pkgname as [pkgname|].
    + eexists. split; [by rewrite !app_assoc|].
      intros Hlen. rewrite (take_ge fmt) by lia. by rewrite !app_assoc.
    + eexists. split; [by rewrite !app_assoc|].
      intros Hlen. rewrite (take_ge fmt) by lia. by rewrite !app_assoc.
Qed.

End ParseHelpFacts.

(* ===================================================================== *)
(** * command.c: further properties                                       *)
(* ===================================================================== *)

Module CommandMoreFacts.
Import Command Helpers.

(** ** What the calls leave alone *)

Lemma store_names cmd i c cmd' :
  store cmd i c = Done cmd' ->
  filename cmd' = filename cmd /\ name cmd' = name cmd.
Proof. unfold store. case_match; [|done]. by intros [= <-]. Qed.

Lemma command_grow_argv_names cmd need cmd' :
  command_grow_argv cmd need = Done cmd' ->
  filename cmd' = filename cmd /\ name cmd' = name cmd.
Proof.
  unfold command_grow_argv.
  destruct (int (need + 1)) as [n|]; simpl; [|done].
  case_match; [by intros [= <-]|].
  destruct (int (argv_size cmd + n)) as [sum|]; simpl; [|done].
  destruct (int (sum * 2)) as [size|]; simpl; [|done].
  by intros [= <-].
Qed.

Lemma push_names cmd a cmd' :
  push cmd a = Done cmd' ->
  filename cmd' = filename cmd /\ name cmd' = name cmd.
Proof.
  unfold push.
  destruct (store cmd (argc cmd) (Arg a)) as [cmd1|] eqn:E1; simpl; [|done].
  destruct (int (argc cmd1 + 1)) as [n|]; simpl; [|done].
  intros [= <-]. simpl. by apply store_names in E1.
Qed.

Lemma push_all_names args : forall cmd cmd',
  push_all cmd args = Done cmd' ->
  filename cmd' = filename cmd /\ name cmd' = name cmd.
Proof.
  induction args as [|a args IH]; intros cmd cmd'; simpl; [by intros [= <-]|].
  destruct (push cmd a) as [cmd1|] eqn:E1; simpl; [|done].
  intros H. apply IH in H as [-> ->]. by apply push_names in E1.
Qed.

Lemma run_op_names cmd op cmd' :
  run_op cmd op = Done cmd' ->
  filename cmd' = filename cmd /\ name cmd' = name cmd.
Proof.
  destruct op as [a|l|l]; simpl;
    unfold command_add_arg, command_add_argl, command_add_argv, terminate.
  - destruct (command_grow_argv cmd 1) as [cmd1|] eqn:E1; simpl; [|done].
    destruct (push cmd1 a) as [cmd2|] eqn:E2; simpl; [|done].
    intros [-> ->]%store_names.
    apply push_names in E2 as [-> ->]. by apply command_grow_argv_names in E1.
  - destruct (int _) as [n|]; simpl; [|done].
    destruct (command_grow_argv cmd n) as [cmd1|] eqn:E1; simpl; [|done].
    destruct (push_all cmd1 l) as [cmd2|] eqn:E2; simpl; [|done].
    intros [-> ->]%store_names.
    apply push_all_names in E2 as [-> ->]. by apply command_grow_argv_names in E1.
  - destruct (int _) as [n|]; simpl; [|done].
    destruct (command_grow_argv cmd n) as [cmd1|] eqn:E1; simpl; [|done].
    destruct (push_all cmd1 l) as [cmd2|] eqn:E2; simpl; [|done].
    intros [-> ->]%store_names.
    apply push_all_names in E2 as [-> ->]. by apply command_grow_argv_names in E1.
Qed.

Lemma run_ops_names ops : forall cmd cmd',
  run_ops cmd ops = Done cmd' ->
  filename cmd' = filename cmd /\ name cmd' = name cmd.
Proof.
  induction ops as [|op ops IH]; intros cmd cmd'; simpl; [by intros [= <-]|].
  destruct (run_op cmd op) as [cmd1|] eqn:E1; simpl; [|done].
  intros H. apply IH in H as [-> ->]. by apply run_op_names in E1.
Qed.

(** A command built from fewer than 2^29 arguments is complete, and
    [command_exec] replaces the process with [cmd->filename] on exactly the
    appended arguments, in order. The description is the name given to
    [command_init], or the last component of the filename; the block of
    pointers never has more than four slots per argument, and ten. *)
Theorem command_exec_built filename name ops :
  Z.of_nat (length (ops_args ops)) < ARG_LIMIT ->
  exists cmd,
    (do c <- command_init filename name; run_ops c ops) = Done cmd
    /\ command_exec cmd = Done (Exec filename (ops_args ops))
    /\ Command.name cmd = default (path_basename filename) name
    /\ argv_size cmd <= 4 * argc cmd + 10.
Proof.
  intros Hlim.
  destruct (CommandFacts.command_init_inv filename name) as (cmd0 & Hinit & Hinv).
  rewrite Hinit. simpl.
  pose proof (CommandFacts.run_ops_spec ops cmd0 [] Hinv) as H. simpl in H.
  destruct (run_ops cmd0 ops) as [cmd|f] eqn:Erun; [|lia].
  exists cmd. split; [done|].
  destruct (run_ops_names _ _ _ Erun) as [Hf Hn].
  assert (Hf0 : Command.filename cmd0 = filename /\ Command.name cmd0
                = default (path_basename filename) name).
  { unfold command_init in Hinit. apply store_names in Hinit as [-> ->].
    by destruct name. }
  destruct Hf0 as [Hf0 Hn0].
  destruct (CommandFacts.argv_inv_holds _ _ H) as [_ Hread].
  unfold command_exec. rewrite Hread. simpl.
  rewrite Hf, Hf0, Hn, Hn0.
  split; [done|]. split; [done|].
  by destruct H as (_ & _ & _ & _ & Hb & _).
Qed.

Lemma command_exec_built_witness :
  exists cmd,
    (do c <- command_init (lit "/usr/bin/dpkg-deb") None;
     run_ops c [AddArg (lit "dpkg-deb"); AddArgl [lit "--fsys-tarfile"; lit "x.deb"]])
    = Done cmd
    /\ command_exec cmd
       = Done (Exec (lit "/usr/bin/dpkg-deb")
                 [lit "dpkg-deb"; lit "--fsys-tarfile"; lit "x.deb"])
    /\ Command.name cmd = lit "dpkg-deb"
    /\ argv_size cmd <= 4 * argc cmd + 10.
Proof.
  apply (command_exec_built (lit "/usr/bin/dpkg-deb") None
           [AddArg (lit "dpkg-deb"); AddArgl [lit "--fsys-tarfile"; lit "x.deb"]]).
  vm_compute. reflexivity.
Defined.

(** ** [fixedCmd] when the binary is not found *)

Lemma cstring_at_terminated t r :
  no_char NUL t = true -> cstring_at (t ++ NUL :: r) 0 = t.
Proof.
  intros Ht. unfold cstring_at. rewrite drop_0.
  rewrite (span_len_app_all (fun c => negb (Ascii.eqb c NUL)) t) by done.
  simpl. by rewrite Nat.add_0_r, take_app_length.
Qed.

Lemma no_char_take c n s : no_char c s = true -> no_char c (take n s) = true.
Proof.
  revert n. induction s as [|x s IH]; intros [|n]; simpl; try done.
  intros [-> Hs]%andb_prop. by rewrite IH.
Qed.

Lemma cstring_at_cut s k :
  no_char NUL s = true -> (k <= length s)%nat ->
  cstring_at (<[k := NUL]> (s ++ [NUL])) 0 = take k s.
Proof.
  intros Hs Hk.
  rewrite insert_take_drop by (rewrite length_app; simpl; lia).
  rewrite take_app_le by done.
  apply cstring_at_terminated. by apply no_char_take.
Qed.

Lemma join_spaces_c_string args :
  Forall c_string args -> c_string (join_spaces args).
Proof.
  unfold c_string, join_spaces.
  induction 1 as [|a args Ha _ IH]; [done|]. csimpl.
  rewrite !no_char_app, Ha, IH. done.
Qed.

Lemma built_inv filename name ops :
  Z.of_nat (length (ops_args ops)) < ARG_LIMIT ->
  exists cmd,
    (do c <- command_init filename name; run_ops c ops) = Done cmd
    /\ argv_inv cmd (ops_args ops).
Proof.
  intros Hlim.
  destruct (CommandFacts.command_init_inv filename name) as (cmd0 & -> & Hinv).
  simpl.
  pose proof (CommandFacts.run_ops_spec ops cmd0 [] Hinv) as H. simpl in H.
  destruct (run_ops cmd0 ops) as [cmd|f]; [by exists cmd|lia].
Qed.

(** For a command built from fewer than 2^29 arguments, the loop of
    [runcmd] stores past the 200 bytes of [cmdstring] exactly when the
    arguments, each with the space after it, take 200 bytes or more. *)
Theorem runcmd_cmdstring_built filename name ops :
  Z.of_nat (length (ops_args ops)) < ARG_LIMIT ->
  exists cmd,
    (do c <- command_init filename name; run_ops c ops) = Done cmd
    /\ (runcmd_cmdstring cmd = Fault OutOfBounds
        <-> (CMDSTRING_SIZE <= length (join_spaces (ops_args ops)))%nat)
    /\ (Forall c_string (ops_args ops) ->
        (length (join_spaces (ops_args ops)) < CMDSTRING_SIZE)%nat ->
        runcmd_cmdstring cmd = Done (join_spaces (ops_args ops))).
Proof.
  intros Hlim. destruct (built_inv filename name ops Hlim) as (cmd & Hb & Hinv).
  exists cmd. split; [done|].
  rewrite (RuncmdFacts.runcmd_cmdstring_spec cmd _ Hinv).
  split.
  - case_decide; split; try done; lia.
  - intros Hc Hlen. rewrite decide_True by done. f_equal.
    apply (cstring_at_terminated _ []). by apply join_spaces_c_string.
Qed.

Section RunFacts.

Variable DEFAULTSHELL : list ascii.
Variable env_SHELL : option (list ascii).
Variable searchpath : list ascii -> option (list ascii).
Variable isShellScript : list ascii -> bool.
Variable getInterpreter : list ascii -> list ascii.

Local Abbreviation run :=
  (runcmd DEFAULTSHELL env_SHELL searchpath isShellScript getInterpreter).
Local Abbreviation fixed := (fixedCmd searchpath isShellScript getInterpreter).

Lemma fixedCmd_cut cmdStr :
  c_string cmdStr ->
  (span_len is_space cmdStr < length cmdStr)%nat ->
  searchpath (first_word cmdStr) = None ->
  fixed cmdStr = Done (take (first_word_end cmdStr) cmdStr).
Proof.
  intros Hnul Hword Hsearch. unfold fixedCmd, first_word_end.
  unfold first_word in Hsearch. cbv zeta in Hsearch.
  destruct (drop (span_len is_space cmdStr) cmdStr) as [|c rest] eqn:Ed.
  { apply (f_equal length) in Ed. rewrite length_drop in Ed. simpl in Ed. lia. }
  rewrite Hsearch. f_equal.
  apply cstring_at_cut; [done|].
  pose proof (span_len_le (fun c => negb (is_space c)) (c :: rest)) as Hle.
  assert (length (c :: rest) = length cmdStr - span_len is_space cmdStr)%nat
    by (by rewrite <- Ed, length_drop).
  lia.
Qed.

Lemma fixedCmd_word cmdStr s :
  fixed cmdStr = Done s -> (span_len is_space cmdStr < length cmdStr)%nat.
Proof.
  unfold fixedCmd.
  destruct (drop (span_len is_space cmdStr) cmdStr) as [|c rest] eqn:Ed; [done|].
  intros _. apply (f_equal length) in Ed. rewrite length_drop in Ed.
  simpl in Ed. lia.
Qed.

(** [fixedCmd] has a result in one case only: the command line has a
    first word and [searchpath] does not find it. The result is then the
    copy that [strtok] has cut: the line up to the end of its first word,
    without the arguments. *)
Theorem fixedCmd_defined cmdStr s :
  c_string cmdStr ->
  fixed cmdStr = Done s
  <-> (span_len is_space cmdStr < length cmdStr)%nat
      /\ searchpath (first_word cmdStr) = None
      /\ s = take (first_word_end cmdStr) cmdStr.
Proof.
  intros Hnul. split.
  - intros H.
    pose proof (fixedCmd_word _ _ H) as Hword.
    pose proof (RuncmdFacts.fixedCmd_found _ _ _ _ _ H) as Hsearch.
    split; [done|]. split; [done|].
    rewrite (fixedCmd_cut cmdStr Hnul Hword Hsearch) in H. by injection H.
  - intros (Hword & Hsearch & ->). by apply fixedCmd_cut.
Qed.

(** For a command line whose first word contains a slash, so that
    [searchpath] leaves PATH alone: whenever [runcmd] gets as far as
    [execlp], what it asks for is the shell, with [-c] and the first word of
    the joined arguments. That is the case exactly when the joined
    arguments fit [cmdstring] and [searchpath] does not find the first
    word; none of the arguments after the first word reaches the shell. *)
Theorem runcmd_first_word_only filename name ops :
  Z.of_nat (length (ops_args ops)) < ARG_LIMIT ->
  Forall c_string (ops_args ops) ->
  is_Some (strchr (first_word (join_spaces (ops_args ops))) "/") ->
  exists cmd,
    (do c <- command_init filename name; run_ops c ops) = Done cmd
    /\ forall e,
         run cmd = Done e
         <-> (length (join_spaces (ops_args ops)) < CMDSTRING_SIZE)%nat
             /\ searchpath (first_word (join_spaces (ops_args ops))) = None
             /\ e = Exec DEFAULTSHELL
                      [DEFAULTSHELL; lit "-c";
                       take (first_word_end (join_spaces (ops_args ops)))
                         (join_spaces (ops_args ops))].
Proof.
  intros Hlim Hc Hslash.
  destruct (built_inv filename name ops Hlim) as (cmd & Hb & Hinv).
  exists cmd. split; [done|]. intros e.
  pose proof (join_spaces_c_string _ Hc) as Hline.
  unfold runcmd. rewrite (RuncmdFacts.runcmd_cmdstring_spec cmd _ Hinv).
  set (line := join_spaces (ops_args ops)) in *.
  assert (Hword : (span_len is_space line < length line)%nat).
  { unfold first_word in Hslash. cbv zeta in Hslash.
    pose proof (span_len_le is_space line) as Hle.
    destruct (decide (span_len is_space line = length line)) as [E|E]; [|lia].
    rewrite E, drop_all in Hslash. simpl in Hslash. by destruct Hslash. }
  case_decide as Hlen; simpl; [|split; [done|intros [? _]; lia]].
  replace (cstring_at (line ++ [NUL]) 0) with line
    by (symmetry; by apply cstring_at_terminated).
  destruct (fixed line) as [s|f] eqn:Ef; simpl.
  - pose proof (RuncmdFacts.fixedCmd_found _ _ _ _ _ Ef) as Hsearch.
    rewrite (fixedCmd_cut line Hline Hword Hsearch) in Ef. injection Ef as <-.
    split; [intros [= <-]; done|]. by intros (_ & _ & ->).
  - split; [done|]. intros (_ & Hsearch & _).
    by rewrite (fixedCmd_cut line Hline Hword Hsearch) in Ef.
Qed.

End RunFacts.

Lemma fixedCmd_defined_witness :
  fixedCmd (fun _ => None) (fun _ => false) (fun p => p)
    (lit "/var/lib/dpkg/info/foo.prerm remove ")
  = Done (lit "/var/lib/dpkg/info/foo.prerm")
  <-> (span_len is_space (lit "/var/lib/dpkg/info/foo.prerm remove ")
       < length (lit "/var/lib/dpkg/info/foo.prerm remove "))%nat
      /\ @None (list ascii) = None
      /\ lit "/var/lib/dpkg/info/foo.prerm"
         = take (first_word_end (lit "/var/lib/dpkg/info/foo.prerm remove "))
             (lit "/var/lib/dpkg/info/foo.prerm remove ").
Proof.
  apply (fixedCmd_defined (fun _ => None) (fun _ => false) (fun p => p)
           (lit "/var/lib/dpkg/info/foo.prerm remove ")
           (lit "/var/lib/dpkg/info/foo.prerm")).
  reflexivity.
Defined.

Lemma runcmd_cmdstring_built_witness :
  exists cmd,
    (do c <- command_init (lit "/usr/bin/dpkg-deb") None;
     run_ops c [AddArg (lit "dpkg-deb"); AddArgl [lit "--fsys-tarfile"; lit "x.deb"]])
    = Done cmd
    /\ (runcmd_cmdstring cmd = Fault OutOfBounds
        <-> (CMDSTRING_SIZE
             <= length (join_spaces [lit "dpkg-deb"; lit "--fsys-tarfile"; lit "x.deb"]))%nat)
    /\ (Forall c_string [lit "dpkg-deb"; lit "--fsys-tarfile"; lit "x.deb"] ->
        (length (join_spaces [lit "dpkg-deb"; lit "--fsys-tarfile"; lit "x.deb"])
         < CMDSTRING_SIZE)%nat ->
        runcmd_cmdstring cmd
        = Done (join_spaces [lit "dpkg-deb"; lit "--fsys-tarfile"; lit "x.deb"])).
Proof.
  apply (runcmd_cmdstring_built (lit "/usr/bin/dpkg-deb") None
           [AddArg (lit "dpkg-deb"); AddArgl [lit "--fsys-tarfile"; lit "x.deb"]]).
  vm_compute. reflexivity.
Defined.

Lemma runcmd_first_word_only_witness :
  exists cmd,
    (do c <- command_init (lit "/var/lib/dpkg/info/foo.postinst") None;
     run_ops c [AddArgl [lit "/var/lib/dpkg/info/foo.postinst";
                         lit "configure"; lit "1.0-1"]])
    = Done cmd
    /\ runcmd (lit "/bin/sh") None (fun _ => None) (fun _ => false) (fun p => p) cmd
       = Done (Exec (lit "/bin/sh")
                 [lit "/bin/sh"; lit "-c"; lit "/var/lib/dpkg/info/foo.postinst"]).
Proof.
  destruct (runcmd_first_word_only (lit "/bin/sh") None (fun _ => None)
              (fun _ => false) (fun p => p)
              (lit "/var/lib/dpkg/info/foo.postinst") None
              [AddArgl [lit "/var/lib/dpkg/info/foo.postinst";
                        lit "configure"; lit "1.0-1"]])
    as (cmd & Hb & Hrun);
    [vm_compute; reflexivity | repeat constructor
    | vm_compute; eexists; reflexivity |].
  exists cmd. split; [exact Hb|].
  apply Hrun. repeat split; vm_compute; try reflexivity; lia.
Defined.

(** ** [strtok] *)

Lemma strtok_scan_app delim : forall s cur t,
  strtok_scan delim cur (s ++ delim :: t)
  = strtok_scan delim cur s ++ strtok_scan delim [] t.
Proof.
  induction s as [|c s IH]; intros cur t; simpl.
  - rewrite Ascii.eqb_refl. by destruct cur.
  - destruct (Ascii.eqb c delim); [|apply IH].
    destruct cur; simpl; by rewrite IH.
Qed.

Lemma strtok_scan_plain delim : forall s cur,
  no_char delim s = true ->
  strtok_scan delim cur s = match rev cur ++ s with [] => [] | w => [w] end.
Proof.
  induction s as [|c s IH]; intros cur; simpl.
  - intros _. rewrite app_nil_r. destruct cur as [|x cur]; [done|].
    destruct (rev (x :: cur)) eqn:E; [|done].
    apply (f_equal length) in E. rewrite length_rev in E. done.
  - intros [Hc Hs]%andb_prop. apply negb_true_iff in Hc. rewrite Hc.
    rewrite IH by done. simpl. by rewrite <- app_assoc.
Qed.

(** The tokens of [a:b] are those of [a] and then those of [b]; a
    non-empty text without the delimiter is its own single token. *)
Lemma strtok_tokens_app delim s t :
  strtok_tokens delim (s ++ delim :: t)
  = strtok_tokens delim s ++ strtok_tokens delim t.
Proof. apply strtok_scan_app. Qed.

Lemma strtok_tokens_plain delim s :
  no_char delim s = true ->
  strtok_tokens delim s = match s with [] => [] | _ => [s] end.
Proof.
  intros H. unfold strtok_tokens. rewrite strtok_scan_plain by done.
  simpl. by destruct s.
Qed.

(** ** [searchpath] *)

Section SearchpathFacts.

Variable file_exist : list ascii -> bool.

Lemma search_dirs_spec binaryname dirs :
  match search_dirs file_exist binaryname dirs with
  | Done (Some p) =>
      exists before dir after,
        dirs = before ++ dir :: after /\ p = candidate binaryname dir
        /\ file_exist p = true
        /\ Forall (passed file_exist binaryname) before
  | Done None => Forall (passed file_exist binaryname) dirs
  | Fault f =>
      f = OutOfBounds
      /\ exists before dir after,
           dirs = before ++ dir :: after
           /\ (PROC_PIDPATHINFO_MAXSIZE <= length (candidate binaryname dir))%nat
           /\ Forall (passed file_exist binaryname) before
  end.
Proof.
  induction dirs as [|dir dirs IH]; cbn [search_dirs]; [constructor|].
  change (dir ++ lit "/" ++ binaryname) with (candidate binaryname dir).
  cbv zeta. case_decide as Hlen.
  - destruct (file_exist (candidate binaryname dir)) eqn:Ef.
    + exists [], dir, dirs. by split.
    + assert (Hp : passed file_exist binaryname dir) by done.
      destruct (search_dirs file_exist binaryname dirs) as [[p|]|f].
      * destruct IH as (before & d & after & -> & Hp' & He & Hb).
        exists (dir :: before), d, after. split; [done|]. split; [done|].
        split; [done|]. by constructor.
      * by constructor.
      * destruct IH as (-> & before & d & after & -> & Hl & Hb).
        split; [done|]. exists (dir :: before), d, after.
        split; [done|]. split; [done|]. by constructor.
  - split; [done|]. exists [], dir, dirs. split; [done|]. split; [lia|done].
Qed.

(** A name that contains a slash is answered without looking at PATH:
    the name itself if [stat] succeeds, else NULL, and PATH is left as it
    is. Any other name is tried in the directories of PATH in order, empty
    entries left out (in those of the text saved by the last [strtok] when
    PATH is not set, and with nothing saved NULL is read through). The
    result is [dir/name] for the first directory where that exists, no
    directory before it doing so, and NULL when there is none; a candidate
    that does not fit the 1024 bytes of [searchpth], met before any that
    exists, is written past the buffer. After a search through PATH, PATH
    is cut behind its first entry. *)
Theorem searchpath_spec pathvar saved binaryname :
  if bool_decide (is_Some (strchr binaryname "/"))
  then searchpath file_exist pathvar saved binaryname
       = Done {| found := if file_exist binaryname then Some binaryname else None;
                 path_after := pathvar |}
  else
    match searched pathvar saved with
    | None => searchpath file_exist pathvar saved binaryname = Fault NullDeref
    | Some dirs =>
        match searchpath file_exist pathvar saved binaryname with
        | Done r =>
            path_after r = strtok_cut ":" <$> pathvar
            /\ match found r with
               | Some p =>
                   exists before dir after,
                     dirs = before ++ dir :: after
                     /\ p = candidate binaryname dir
                     /\ file_exist p = true
                     /\ Forall (passed file_exist binaryname) before
               | None => Forall (passed file_exist binaryname) dirs
               end
        | Fault f =>
            f = OutOfBounds
            /\ exists before dir after,
                 dirs = before ++ dir :: after
                 /\ (PROC_PIDPATHINFO_MAXSIZE
                     <= length (candidate binaryname dir))%nat
                 /\ Forall (passed file_exist binaryname) before
        end
    end.
Proof.
  unfold searchpath, searched.
  destruct (bool_decide (is_Some (strchr binaryname "/"))); [done|].
  destruct pathvar as [pv|]; [|destruct saved as [rest|]; [|done]]; simpl.
  - pose proof (search_dirs_spec binaryname (strtok_tokens ":" pv)) as H.
    destruct (search_dirs _ _ _) as [[p|]|f]; simpl; [by split|by split|done].
  - pose proof (search_dirs_spec binaryname (strtok_tokens ":" rest)) as H.
    destruct (search_dirs _ _ _) as [[p|]|f]; simpl; [by split|by split|done].
Qed.

(** [strtok_cut] keeps what is in front of the second entry. *)
Lemma strtok_cut_entry lead dir rest :
  forallb (fun c => Ascii.eqb c ":") lead = true ->
  dir <> [] -> no_char ":" dir = true ->
  strtok_cut ":" (lead ++ dir ++ ":"%char :: rest) = lead ++ dir.
Proof.
  intros Hlead Hne Hdir. unfold strtok_cut. cbv zeta.
  assert (Hl : span_len (fun c => Ascii.eqb c ":") (lead ++ dir ++ ":"%char :: rest)
               = length lead).
  { rewrite span_len_app_all by done.
    destruct dir as [|c dir]; [done|]. simpl in *.
    apply andb_prop in Hdir as [Hc _]. apply negb_true_iff in Hc.
    rewrite Hc. lia. }
  rewrite Hl, drop_app_length.
  rewrite (span_len_app_stop (fun c => negb (Ascii.eqb c ":")) dir ":" rest) by done.
  rewrite (span_len_all (fun c => negb (Ascii.eqb c ":")) dir) by done.
  rewrite app_assoc.
  replace (length lead + length dir)%nat with (length (lead ++ dir))
    by (rewrite length_app; lia).
  apply take_app_length.
Qed.

End SearchpathFacts.

(** ** [getInterpreter] *)

Lemma strtok_scan_leading delim pad : forall s,
  forallb (fun c => Ascii.eqb c delim) pad = true ->
  strtok_scan delim [] (pad ++ s) = strtok_scan delim [] s.
Proof.
  induction pad as [|c pad IH]; intros s; simpl; [done|].
  intros [-> Hp]%andb_prop. by apply IH.
Qed.

Lemma strtok_scan_word delim word : forall cur s,
  no_char delim word = true ->
  strtok_scan delim cur (word ++ s) = strtok_scan delim (rev word ++ cur) s.
Proof.
  induction word as [|c word IH]; intros cur s; simpl; [done|].
  intros [Hc Hw]%andb_prop. apply negb_true_iff in Hc. rewrite Hc.
  rewrite IH by done. by rewrite <- app_assoc.
Qed.

(** The first token of spaces, a word, and either nothing or a delimiter
    and more. *)
Lemma strtok_tokens_first delim pad word s :
  forallb (fun c => Ascii.eqb c delim) pad = true ->
  word <> [] -> no_char delim word = true ->
  head (strtok_tokens delim (pad ++ word ++ delim :: s)) = Some word
  /\ head (strtok_tokens delim (pad ++ word)) = Some word.
Proof.
  intros Hpad Hne Hw. unfold strtok_tokens. split.
  - rewrite strtok_scan_leading, strtok_scan_word by done.
    simpl. rewrite Ascii.eqb_refl, app_nil_r.
    destruct (rev word) eqn:E.
    + apply (f_equal length) in E. rewrite length_rev in E. by destruct word.
    + rewrite <- E. simpl. by rewrite rev_involutive.
  - rewrite strtok_scan_leading by done.
    rewrite <- (app_nil_r word) at 1.
    rewrite strtok_scan_word by done. simpl. rewrite app_nil_r.
    destruct (rev word) eqn:E.
    + apply (f_equal length) in E. rewrite length_rev in E. by destruct word.
    + rewrite <- E. simpl. by rewrite rev_involutive.
Qed.

Lemma first_line_app text rest :
  no_char "010" text = true ->
  first_line (text ++ rest) = text ++ first_line rest.
Proof.
  intros Ht. unfold first_line.
  induction text as [|c text IH]; [done|].
  simpl in Ht. apply andb_prop in Ht as [Hc Ht].
  simpl. rewrite Hc. simpl. f_equal. by apply IH.
Qed.

Lemma blanks_no_newline pad :
  forallb (fun c => Ascii.eqb c " ") pad = true -> no_char "010" pad = true.
Proof.
  induction pad as [|c pad IH]; simpl; [done|].
  intros [Hc Hp]%andb_prop. apply Ascii.eqb_eq in Hc as ->. by rewrite IH.
Qed.

Lemma head_cons {A} (l : list A) x : head l = Some x -> exists r, l = x :: r.
Proof. destruct l; [done|]. intros [= ->]. by eexists. Qed.

Lemma cstring_at_app a b :
  no_char NUL a = true -> cstring_at (a ++ b) 0 = a ++ cstring_at b 0.
Proof.
  intros Ha. unfold cstring_at. rewrite !drop_0.
  rewrite (span_len_app_all (fun c => negb (Ascii.eqb c NUL)) a) by done.
  by rewrite take_app_add'.
Qed.

Lemma cstring_at_skip c1 c2 s : cstring_at (c1 :: c2 :: s) 2 = cstring_at s 0.
Proof. unfold cstring_at. simpl drop. by rewrite !drop_0. Qed.

Lemma blanks_c_string pad :
  forallb (fun c => Ascii.eqb c " ") pad = true -> no_char NUL pad = true.
Proof.
  induction pad as [|c pad IH]; simpl; [done|].
  intros [Hc Hp]%andb_prop. apply Ascii.eqb_eq in Hc as ->. by rewrite IH.
Qed.

Section InterpreterFacts.

Variable contents : list ascii -> option (list ascii).

(** For a file that starts with ["#!"], spaces, and a word without NUL
    that ends at a space, at the newline, at a NUL byte or with the file,
    [getInterpreter] returns that word: what the line passes to the
    interpreter is dropped. *)
Theorem getInterpreter_first_word path pad word tail :
  forallb (fun c => Ascii.eqb c " ") pad = true ->
  word <> [] -> no_char " " word = true -> no_char "010" word = true ->
  c_string word ->
  head tail = None \/ head tail = Some " "%char \/ head tail = Some "010"%char
  \/ head tail = Some NUL ->
  contents path = Some (lit "#!" ++ pad ++ word ++ tail) ->
  getInterpreter contents path = Done word.
Proof.
  intros Hpad Hne Hsp Hnl Hnul Htail Hc. unfold getInterpreter. rewrite Hc.
  change (lit "#!" ++ pad ++ word ++ tail)
    with ("#"%char :: "!"%char :: (pad ++ word ++ tail)).
  assert (Hline : first_line ("#"%char :: "!"%char :: (pad ++ word ++ tail))
                  = "#"%char :: "!"%char :: (pad ++ word ++ first_line tail)).
  { change ("#"%char :: "!"%char :: (pad ++ word ++ tail))
      with (lit "#!" ++ (pad ++ word ++ tail)).
    rewrite first_line_app by done.
    rewrite first_line_app by by apply blanks_no_newline.
    by rewrite first_line_app by done. }
  rewrite Hline. simpl length. rewrite decide_False by lia.
  rewrite cstring_at_skip.
  rewrite cstring_at_app by by apply blanks_c_string.
  rewrite cstring_at_app by done.
  assert (Hword : strtok_tokens "010" word = [word]).
  { rewrite strtok_tokens_plain by done. by destruct word. }
  destruct tail as [|c more].
  - change (cstring_at (first_line []) 0) with (@nil ascii).
    destruct (strtok_tokens_first " " pad word [] Hpad Hne Hsp) as [_ H].
    rewrite app_nil_r.
    apply head_cons in H as [r ->]. by rewrite Hword.
  - destruct Htail as [?|[[= ->]|[[= ->]|[= ->]]]]; [done| | |].
    + assert (Hf : exists x, cstring_at (first_line (" "%char :: more)) 0
                             = " "%char :: x).
      { unfold first_line, cstring_at. simpl. by eexists. }
      destruct Hf as [x ->].
      destruct (strtok_tokens_first " " pad word x Hpad Hne Hsp) as [H _].
      apply head_cons in H as [r ->]. by rewrite Hword.
    + change (cstring_at (first_line ("010"%char :: more)) 0) with ["010"%char].
      assert (Hw : no_char " " (word ++ ["010"%char]) = true).
      { rewrite no_char_app. by rewrite Hsp. }
      destruct (strtok_tokens_first " " pad (word ++ ["010"%char]) [] Hpad) as [_ H];
        [by destruct word|done|].
      apply head_cons in H as [r ->].
      destruct (strtok_tokens_first "010" [] word [] eq_refl Hne Hnl) as [H _].
      simpl in H. apply head_cons in H as [r' ->]. done.
    + assert (Hf : cstring_at (first_line (NUL :: more)) 0 = []).
      { unfold first_line, cstring_at. done. }
      rewrite Hf.
      destruct (strtok_tokens_first " " pad word [] Hpad Hne Hsp) as [_ H].
      rewrite app_nil_r.
      apply head_cons in H as [r ->]. by rewrite Hword.
Qed.

(** A first line that holds nothing but ["#!"] and spaces leaves
    [strtok] without a token, and the NULL goes to [strlen]. *)
Theorem getInterpreter_no_word path pad more :
  forallb (fun c => Ascii.eqb c " ") pad = true ->
  contents path = Some (lit "#!" ++ pad ++ "010"%char :: more) ->
  getInterpreter contents path = Fault NullDeref.
Proof.
  intros Hpad Hc. unfold getInterpreter. rewrite Hc.
  change (lit "#!" ++ pad ++ "010"%char :: more)
    with (lit "#!" ++ (pad ++ "010"%char :: more)).
  rewrite first_line_app by done.
  rewrite first_line_app by by apply blanks_no_newline.
  change (first_line ("010"%char :: more)) with ["010"%char].
  simpl length. rewrite decide_False by lia.
  change (lit "#!" ++ pad ++ ["010"%char])
    with ("#"%char :: "!"%char :: (pad ++ ["010"%char])).
  rewrite cstring_at_skip.
  rewrite cstring_at_app by by apply blanks_c_string.
  change (cstring_at ["010"%char] 0) with ["010"%char].
  unfold strtok_tokens. rewrite strtok_scan_leading by done.
  reflexivity.
Qed.

End InterpreterFacts.

Lemma getInterpreter_first_word_witness :
  getInterpreter
    (fun _ => Some (lit "#!  /bin/sh -e" ++ "010"%char :: lit "set -e"))
    (lit "/var/lib/dpkg/info/foo.postinst")
  = Done (lit "/bin/sh").
Proof.
  apply (getInterpreter_first_word _ (lit "/var/lib/dpkg/info/foo.postinst")
           (lit "  ") (lit "/bin/sh")
           (lit " -e" ++ "010"%char :: lit "set -e"));
    [reflexivity | discriminate | reflexivity | reflexivity | reflexivity
    | right; left; reflexivity | reflexivity].
Defined.

(** The word ends where the line has a NUL byte. *)
Example getInterpreter_nul :
  getInterpreter
    (fun _ => Some (lit "#!/bin/sh" ++ NUL :: lit "JUNK" ++ ["010"%char]))
    (lit "/var/lib/dpkg/info/foo.postinst")
  = Done (lit "/bin/sh").
Proof. reflexivity. Qed.

Lemma getInterpreter_no_word_witness :
  getInterpreter (fun _ => Some (lit "#! " ++ "010"%char :: lit "exit 0"))
    (lit "/var/lib/dpkg/info/foo.postinst")
  = Fault NullDeref.
Proof.
  apply (getInterpreter_no_word _ (lit "/var/lib/dpkg/info/foo.postinst")
           (lit " ") (lit "exit 0")); reflexivity.
Defined.

End CommandMoreFacts.

(* ===================================================================== *)
(** * fsys-hash.c: the iterator and the tables in use                     *)
(* ===================================================================== *)

Module FsysIterFacts.
Import Fsys FsysIter.

#[local] Arguments BINS : simpl never.

(** ** Normalized paths *)

Lemma path_skip_normalized path :
  path_skip_slash_dotslash (normalized path) = O.
Proof.
  unfold normalized. induction path as [|c rest IH]; [done|].
  cbn [path_skip_slash_dotslash].
  destruct (Ascii.eqb c "/") eqn:E1; [done|].
  destruct (Ascii.eqb c ".") eqn:E2.
  - destruct rest as [|c' rest']; [simpl; by rewrite E1, E2|].
    destruct (Ascii.eqb c' "/") eqn:E3; [done|].
    simpl. by rewrite E1, E2, E3.
  - simpl. by rewrite E1, E2.
Qed.

Lemma normalized_idem path : normalized (normalized path) = normalized path.
Proof. unfold normalized at 1. by rewrite path_skip_normalized. Qed.

Lemma normalized_slash path : normalized ("/"%char :: path) = normalized path.
Proof. done. Qed.

(** ** The chains of a range of bins *)

Section Chains.

Context {A : Type}.
Implicit Types (f g : Z -> list A) (l : list Z).

Lemma concat_bins_ext f g l :
  (forall i, i ∈ l -> g i = f i) -> concat (g <$> l) = concat (f <$> l).
Proof.
  induction l as [|i l IH]; intros H; [done|]. csimpl.
  rewrite H by left. f_equal. apply IH. intros j Hj. apply H. by right.
Qed.

Lemma concat_bins_nil f l : (forall i, i ∈ l -> f i = []) -> concat (f <$> l) = [].
Proof.
  induction l as [|i l IH]; intros H; [done|]. csimpl.
  rewrite H by left. apply IH. intros j Hj. apply H. by right.
Qed.

Lemma concat_bins_length f g l :
  (forall i, i ∈ l -> length (g i) = length (f i)) ->
  length (concat (g <$> l)) = length (concat (f <$> l)).
Proof.
  induction l as [|i l IH]; intros H; [done|]. csimpl.
  rewrite !length_app, H by left. f_equal. apply IH. intros j Hj. apply H. by right.
Qed.

Lemma concat_bins_insert f g l b x :
  NoDup l -> b ∈ l -> g b = f b ++ [x] -> (forall i, i <> b -> g i = f i) ->
  concat (g <$> l) ≡ₚ x :: concat (f <$> l).
Proof.
  intros Hnd Hb Hgb Hg. induction l as [|i l IH]; [by apply elem_of_nil in Hb|].
  apply NoDup_cons in Hnd as [Hi Hnd]. csimpl.
  destruct (decide (i = b)) as [->|Hne].
  - rewrite Hgb, (concat_bins_ext f g l).
    + rewrite <- app_assoc. simpl. by rewrite <- Permutation_middle.
    + intros j Hj. apply Hg. by intros ->.
  - rewrite (Hg i Hne), IH; [|done|].
    + by rewrite <- Permutation_middle.
    + apply elem_of_cons in Hb as [->|Hb]; done.
Qed.

Lemma elem_of_concat_bins f l x :
  x ∈ concat (f <$> l) <-> exists i, i ∈ l /\ x ∈ f i.
Proof.
  induction l as [|i l IH]; csimpl.
  - split; [by intros ?%elem_of_nil|]. by intros (i & ?%elem_of_nil & _).
  - rewrite elem_of_app, IH. split.
    + intros [H|(j & Hj & H)]; [exists i|exists j]; split; try done; by constructor.
    + intros (j & [->|Hj]%elem_of_cons & H); eauto.
Qed.

End Chains.

Lemma elem_of_all_nodes t fnn :
  fnn ∈ all_nodes t <-> exists b, 0 <= b < BINS /\ fnn ∈ bins t b.
Proof.
  unfold all_nodes. rewrite elem_of_concat_bins.
  split; intros (b & Hb & H); exists b; split; try done.
  - apply elem_of_seqZ in Hb. lia.
  - apply elem_of_seqZ. lia.
Qed.

Lemma all_nodes_empty : all_nodes empty_table = [].
Proof. unfold all_nodes. by apply concat_bins_nil. Qed.

(** ** The iterator *)

Lemma next_bin_spec t : forall left nb,
  valid t (next_bin t left nb)
  /\ pending t (nb + Z.of_nat left) (next_bin t left nb)
     = concat (bins t <$> seqZ nb (Z.of_nat left))
  /\ (namenode (next_bin t left nb) = None ->
      nbinn (next_bin t left nb) = nb + Z.of_nat left)
  /\ nbinn (next_bin t left nb) <= nb + Z.of_nat left.
Proof.
  induction left as [|left IH]; intros nb.
  - unfold pending. simpl. rewrite Z.add_0_r. split; [done|].
    split; [|done]. by replace (nb - nb) with 0 by lia.
  - rewrite Nat2Z.inj_succ, seqZ_cons by lia. csimpl.
    replace (Z.pred (Z.succ (Z.of_nat left))) with (Z.of_nat left) by lia.
    replace (nb + Z.succ (Z.of_nat left)) with (nb + 1 + Z.of_nat left) by lia.
    replace (Z.succ nb) with (nb + 1) by lia.
    cbn [next_bin].
    destruct (bins t nb) as [|x chain] eqn:Eb.
    + apply IH.
    + unfold valid, pending. cbn [namenode nbinn]. rewrite Eb, drop_0.
      replace (nb + 1 + Z.of_nat left - (nb + 1)) with (Z.of_nat left) by lia.
      split; [simpl; lia|]. split; [done|]. split; [done|lia].
Qed.

Lemma fsys_hash_iter_next_spec t iter :
  valid t iter -> nbinn iter <= BINS ->
  exists iter',
    fsys_hash_iter_next t iter = Some (head (pending t BINS iter), iter')
    /\ valid t iter' /\ nbinn iter' <= BINS
    /\ pending t BINS iter' = tail (pending t BINS iter).
Proof.
  intros Hv Hn. unfold fsys_hash_iter_next.
  assert (Hstep : forall it b pos,
            namenode it = Some (b, pos) -> valid t it -> nbinn it <= BINS ->
            exists iter',
              match bins t b !! pos with
              | Some fnn =>
                  Some (Some fnn,
                        {| namenode := if decide (S pos < length (bins t b))%nat
                                       then Some (b, S pos) else None;
                           nbinn := nbinn it |})
              | None => None
              end = Some (head (pending t BINS it), iter')
              /\ valid t iter' /\ nbinn iter' <= BINS
              /\ pending t BINS iter' = tail (pending t BINS it)).
  { intros it b pos E Hvalid Hle. unfold valid, pending in *. rewrite E in *.
    destruct (lookup_lt_is_Some_2 _ _ Hvalid) as [fnn Hl].
    rewrite Hl, (drop_S _ _ _ Hl). simpl.
    eexists. split; [done|]. simpl.
    case_decide as Hs; simpl; [done|].
    split; [done|]. split; [done|]. by rewrite drop_ge by lia. }
  destruct (namenode iter) as [[b pos]|] eqn:E.
  - rewrite E. by apply Hstep.
  - destruct (next_bin_spec t (Z.to_nat (BINS - nbinn iter)) (nbinn iter))
      as (Hv' & Hp & Hnone & Hle').
    rewrite Z2Nat.id in Hp, Hnone, Hle' by lia.
    replace (nbinn iter + (BINS - nbinn iter)) with BINS in Hp, Hnone, Hle' by lia.
    assert (Hpend : pending t BINS iter
                    = pending t BINS (next_bin t (Z.to_nat (BINS - nbinn iter))
                                        (nbinn iter))).
    { rewrite Hp. unfold pending. by rewrite E. }
    rewrite Hpend.
    set (it := next_bin t (Z.to_nat (BINS - nbinn iter)) (nbinn iter)) in *.
    destruct (namenode it) as [[b pos]|] eqn:E'.
    + by apply (Hstep it b pos E' Hv').
    + exists it. unfold pending. rewrite E', (Hnone eq_refl).
      replace (BINS - BINS) with 0 by lia. simpl.
      split; [done|]. split; [done|]. split; [lia|done].
Qed.

Lemma calls_spec t : forall n iter,
  valid t iter -> nbinn iter <= BINS ->
  calls t n iter
  = (Some <$> take n (pending t BINS iter))
    ++ replicate (n - length (pending t BINS iter)) None.
Proof.
  induction n as [|n IH]; intros iter Hv Hn; [done|].
  destruct (fsys_hash_iter_next_spec t iter Hv Hn) as (iter' & Hnext & Hv' & Hn' & Hp).
  cbn [calls]. rewrite Hnext, (IH iter' Hv' Hn'), Hp.
  destruct (pending t BINS iter); [|done].
  simpl. by rewrite take_nil, Nat.sub_0_r.
Qed.

(** Called again and again on a table that is left alone, a new iterator
    returns the nodes of bin 0 in the order of its chain, then those of
    bin 1, and so on up to the last bin, every node once, and from then on
    NULL at every call. *)
Theorem fsys_hash_iter_enumerates t n :
  calls t n fsys_hash_iter_new
  = (Some <$> take n (all_nodes t)) ++ replicate (n - length (all_nodes t)) None.
Proof.
  rewrite calls_spec; [|done|unfold BINS; simpl; lia].
  unfold pending, fsys_hash_iter_new. cbn [namenode nbinn].
  by rewrite Z.sub_0_r.
Qed.

(** ** The walk along a chain of good names *)

Lemma walk_outcome chain : forall pos name',
  Forall slashed chain ->
  match walk chain pos name' with
  | WalkFound p fnn =>
      name fnn = "/"%char :: name' /\ chain !! (p - pos)%nat = Some fnn
  | WalkEnd => "/"%char :: name' ∉ name <$> chain
  | WalkInternerr _ => False
  end.
Proof.
  induction chain as [|n chain IH]; intros pos name' Hs; simpl.
  - apply not_elem_of_nil.
  - apply Forall_cons in Hs as [[tail Hn] Hs]. rewrite Hn. simpl.
    case_bool_decide as Ht.
    + rewrite Nat.sub_diag. simpl. by rewrite Hn, Ht.
    + specialize (IH (S pos) name' Hs).
      destruct (walk chain (S pos) name') as [p fnn| |] eqn:Ew; [| |done].
      * destruct IH as [Hname Hl]. split; [done|].
        apply FsysFacts.walk_found in Ew as (_ & Hle & _).
        replace (p - pos)%nat with (S (p - S pos)) by lia. done.
      * intros [[= ?]|?]%elem_of_cons; done.
Qed.

Lemma walk_at chain : forall pos name' k fnn,
  Forall slashed chain -> NoDup (name <$> chain) ->
  chain !! k = Some fnn -> name fnn = "/"%char :: name' ->
  walk chain pos name' = WalkFound (pos + k) fnn.
Proof.
  induction chain as [|n chain IH]; intros pos name' k fnn Hs Hnd Hl Hname; [done|].
  apply Forall_cons in Hs as [[tail Hn] Hs].
  csimpl in Hnd. apply NoDup_cons in Hnd as [Hnotin Hnd].
  simpl. rewrite Hn. simpl.
  destruct k as [|k]; simpl in Hl.
  - injection Hl as ->. rewrite Hname in Hn. injection Hn as <-.
    rewrite bool_decide_eq_true_2 by done. by rewrite Nat.add_0_r.
  - case_bool_decide as Ht.
    + exfalso. apply Hnotin. rewrite Hn, Ht, <- Hname.
      apply list_elem_of_fmap. exists fnn. split; [done|].
      by eapply list_elem_of_lookup_2.
    + rewrite (IH (S pos) name' k fnn) by done. f_equal. lia.
Qed.

Lemma walk_other chain : forall pos name' new,
  name new <> "/"%char :: name' -> slashed new ->
  walk (chain ++ [new]) pos name' = walk chain pos name'.
Proof.
  induction chain as [|n chain IH]; intros pos name' new Hne [tail Hn]; simpl.
  - rewrite Hn. simpl. case_bool_decide as Ht; [|done].
    by rewrite Hn, Ht in Hne.
  - destruct (name n) as [|c t']; [done|].
    destruct (negb (Ascii.eqb c "/")); [done|].
    case_bool_decide; [done|]. apply IH; [done|by exists tail].
Qed.

(** ** What holds of every table in use *)

Section ReachFacts.

Variable str_fnv_hash : list ascii -> Z.
Variable EMPTYHASHFLAG : list ascii.

Local Abbreviation find := (fsys_hash_find_node str_fnv_hash EMPTYHASHFLAG).
Local Abbreviation reach := (reachable str_fnv_hash EMPTYHASHFLAG).

Local Abbreviation good_name := (FsysIter.good_name str_fnv_hash).
Local Abbreviation table_inv := (FsysIter.table_inv str_fnv_hash).

Lemma bin_in_range n : 0 <= str_fnv_hash n mod BINS < BINS.
Proof. apply Z.mod_pos_bound. by unfold BINS. Qed.

Lemma in_range_true b : 0 <= b < BINS -> (0 <=? b) && (b <? BINS) = true.
Proof.
  intros Hb. apply andb_true_intro. split; [apply Z.leb_le|apply Z.ltb_lt]; lia.
Qed.

Lemma good_chain_slashed b chain :
  Forall (good_name b) (name <$> chain) -> Forall slashed chain.
Proof.
  rewrite Forall_fmap. intros H. eapply Forall_impl; [exact H|].
  intros fnn (n & Hn & _). by exists n.
Qed.

Lemma all_nodes_length t t' :
  (forall i, name <$> bins t' i = name <$> bins t i) ->
  length (all_nodes t') = length (all_nodes t).
Proof.
  intros H. apply concat_bins_length. intros i _.
  by rewrite <- (length_fmap name (bins t' i)), H, length_fmap.
Qed.

Lemma table_inv_names t t' :
  same_names t t' -> table_inv t -> table_inv t'.
Proof.
  intros [Hn Hb] [Hcount Hbins]. split.
  - by rewrite Hn, Hcount, (all_nodes_length t t').
  - intros b Hr. rewrite Hb. by apply Hbins.
Qed.

(** What a lookup does to a table that satisfies the invariant. *)
Lemma find_outcome t orig_name find_flags :
  table_inv t ->
  let b := str_fnv_hash (normalized orig_name) mod BINS in
  let nm := "/"%char :: normalized orig_name in
  (exists pos fnn,
     find t orig_name find_flags = FindNode b pos fnn t
     /\ bins t b !! pos = Some fnn /\ name fnn = nm)
  \/ ((nm ∉ (name <$> bins t b))
      /\ (if negb (Z.land find_flags FHFF_NONE =? 0)
          then find t orig_name find_flags = FindNull t
          else exists fnn t',
                 find t orig_name find_flags
                 = FindNode b (length (bins t b)) fnn t'
                 /\ name fnn = nm
                 /\ bins t' b = bins t b ++ [fnn]
                 /\ (forall i, i <> b -> bins t' i = bins t i)
                 /\ nfiles t' = nfiles t + 1)).
Proof.
  intros [Hcount Hbins] b nm.
  destruct (Hbins b (bin_in_range _)) as [Hgood Hnd].
  pose proof (walk_outcome (bins t b) O (normalized orig_name)
                (good_chain_slashed _ _ Hgood)) as Hw.
  unfold fsys_hash_find_node. fold (normalized orig_name). fold b.
  destruct (walk (bins t b) 0 (normalized orig_name)) as [pos fnn| |]; [| |done].
  - left. exists pos, fnn. rewrite Nat.sub_0_r in Hw. by destruct Hw.
  - right. split; [done|].
    destruct (negb (Z.land find_flags FHFF_NONE =? 0)); [done|].
    eexists _, _. split; [done|]. cbn [name bins nfiles].
    rewrite FsysFacts.newname_canonical, Z.eqb_refl.
    split; [done|]. split; [done|]. split; [|done].
    intros i Hi. by rewrite (proj2 (Z.eqb_neq i b)).
Qed.

Lemma table_inv_find t orig_name find_flags b pos fnn t' :
  table_inv t ->
  find t orig_name find_flags = FindNode b pos fnn t' ->
  table_inv t'.
Proof.
  intros Hinv Hfind.
  destruct (find_outcome t orig_name find_flags Hinv)
    as [(pos' & fnn' & H & _)|[Hnot H]].
  { rewrite H in Hfind. by injection Hfind as <- <- <- <-. }
  destruct (negb (Z.land find_flags FHFF_NONE =? 0)); [by rewrite H in Hfind|].
  destruct H as (fnn' & t'' & H & Hname & Hb & Hother & Hn).
  rewrite H in Hfind. injection Hfind as <- <- <- <-.
  destruct Hinv as [Hcount Hbins].
  pose proof (bin_in_range (normalized orig_name)) as Hr.
  split.
  - rewrite Hn, Hcount.
    assert (Hperm : all_nodes t'' ≡ₚ fnn' :: all_nodes t).
    { apply (concat_bins_insert (bins t) (bins t'') _
               (str_fnv_hash (normalized orig_name) mod BINS));
        [apply NoDup_seqZ|apply elem_of_seqZ; lia|done|done]. }
    rewrite Hperm. simpl. lia.
  - intros b Hb'.
    destruct (decide (b = str_fnv_hash (normalized orig_name) mod BINS)) as [->|Hne].
    + rewrite Hb, fmap_app. csimpl. destruct (Hbins _ Hr) as [Hgood Hnd].
      split.
      * apply Forall_app. split; [done|]. apply Forall_singleton.
        exists (normalized orig_name). by rewrite Hname, normalized_idem.
      * apply NoDup_app. split; [done|]. split; [|apply NoDup_singleton].
        intros x Hx ->%list_elem_of_singleton. by rewrite Hname in Hx.
    + rewrite (Hother b Hne). by apply Hbins.
Qed.

Lemma table_inv_reachable t : reach t -> table_inv t.
Proof.
  induction 1 as [|t p f b pos fnn t' _ IH Hfind|t _ IH|t _ IH|t t' _ IH Hsame].
  - split; [by rewrite all_nodes_empty|]. intros b _. csimpl.
    split; [constructor|apply NoDup_nil_2].
  - by eapply table_inv_find.
  - apply (table_inv_names t); [|done]. split; [done|].
    intros i. cbn [fsys_hash_init bins].
    destruct ((0 <=? i) && (i <? BINS)); [|done].
    change (map (clear_node EMPTYHASHFLAG) (bins t i))
      with (clear_node EMPTYHASHFLAG <$> bins t i).
    by rewrite <- list_fmap_compose.
  - assert (Hnil : all_nodes (fsys_hash_reset t) = []).
    { apply concat_bins_nil. intros i Hi%elem_of_seqZ.
      cbn [fsys_hash_reset bins]. by rewrite in_range_true by lia. }
    split; [by rewrite Hnil|].
    intros b Hb. cbn [fsys_hash_reset bins]. rewrite in_range_true by done.
    split; [constructor|apply NoDup_nil_2].
  - by apply (table_inv_names t).
Qed.

Lemma stored_bin t n :
  table_inv t ->
  stored t ("/"%char :: n)
  <-> normalized n = n
      /\ "/"%char :: n ∈ name <$> bins t (str_fnv_hash n mod BINS).
Proof.
  intros [_ Hbins]. unfold stored. rewrite !list_elem_of_fmap. split.
  - intros (fnn & Hn & (b & Hb & Hin)%elem_of_all_nodes).
    destruct (Hbins b Hb) as [Hgood _].
    rewrite Forall_fmap, Forall_forall in Hgood.
    destruct (Hgood fnn Hin) as (n' & Hn' & Hnorm & Hhash). simpl in Hn'.
    rewrite <- Hn in Hn'. injection Hn' as <-.
    split; [done|]. exists fnn. by rewrite Hhash.
  - intros (_ & fnn & Hn & Hin). exists fnn. split; [done|].
    apply elem_of_all_nodes. eexists. split; [apply bin_in_range|done].
Qed.

(** On a table in use the walk never meets a name without its slash:
    a lookup returns a node, or NULL, and NULL only when asked not to
    create one. *)
Theorem fsys_hash_find_node_no_internerr t orig_name find_flags :
  reach t ->
  (exists b pos fnn t',
     find t orig_name find_flags = FindNode b pos fnn t'
     /\ bins t' b !! pos = Some fnn)
  \/ (find t orig_name find_flags = FindNull t
      /\ Z.land find_flags FHFF_NONE <> 0).
Proof.
  intros Hinv%table_inv_reachable.
  destruct (find_outcome t orig_name find_flags Hinv)
    as [(pos & fnn & H & Hl & _)|[_ H]].
  { left. by eexists _, pos, fnn, t. }
  destruct (Z.land find_flags FHFF_NONE =? 0) eqn:E; simpl in H.
  - destruct H as (fnn & t' & H & _ & Hb & _). left.
    eexists _, _, fnn, t'. split; [done|].
    by rewrite Hb, lookup_app_r, Nat.sub_diag.
  - right. split; [done|]. by apply Z.eqb_neq.
Qed.

(** [fsys_hash_entries] is the number of nodes in the table, which is
    the number of nodes that the iterator returns. *)
Theorem fsys_hash_entries_counts t :
  reach t -> fsys_hash_entries t = Z.of_nat (length (all_nodes t)).
Proof. by intros [H _]%table_inv_reachable. Qed.

(** No two nodes of the table have the same name. *)
Theorem fsys_hash_names_unique t : reach t -> NoDup (name <$> all_nodes t).
Proof.
  intros [_ Hbins]%table_inv_reachable. unfold all_nodes.
  assert (Hgen : forall l, NoDup l -> (forall b, b ∈ l -> 0 <= b < BINS) ->
            NoDup (name <$> concat (bins t <$> l))).
  { induction l as [|b l IH]; intros Hnd Hr; [apply NoDup_nil_2|].
    apply NoDup_cons in Hnd as [Hb Hnd]. csimpl. rewrite fmap_app.
    apply NoDup_app. split; [apply Hbins, Hr; by left|].
    split; [|apply IH; [done|]; intros; apply Hr; by right].
    intros nm Hin1 (fnn & -> & (b' & Hb' & Hin2)%elem_of_concat_bins)%list_elem_of_fmap.
    destruct (Hbins b (Hr b ltac:(by left))) as [Hg1 _].
    destruct (Hbins b' (Hr b' ltac:(by right))) as [Hg2 _].
    rewrite Forall_forall in Hg1. rewrite Forall_fmap, Forall_forall in Hg2.
    destruct (Hg1 _ Hin1) as (n1 & Hn1 & _ & Hh1).
    destruct (Hg2 _ Hin2) as (n2 & Hn2 & _ & Hh2). simpl in Hn2.
    rewrite Hn1 in Hn2. injection Hn2 as <-.
    apply Hb. by rewrite <- Hh1, Hh2. }
  apply Hgen; [apply NoDup_seqZ|]. intros b Hb%elem_of_seqZ. lia.
Qed.

(** Every node of the table is what a lookup of its own name returns,
    whatever the flags, and the lookup changes nothing. *)
Theorem fsys_hash_find_node_stored t b pos fnn find_flags :
  reach t -> 0 <= b < BINS -> bins t b !! pos = Some fnn ->
  find t (name fnn) find_flags = FindNode b pos fnn t.
Proof.
  intros [_ Hbins]%table_inv_reachable Hb Hl.
  destruct (Hbins b Hb) as [Hgood Hnd].
  pose proof Hgood as Hg. rewrite Forall_fmap, Forall_forall in Hg.
  destruct (Hg fnn (list_elem_of_lookup_2 _ _ _ Hl)) as (n & Hn & Hnorm & Hhash).
  simpl in Hn.
  unfold fsys_hash_find_node. fold (normalized (name fnn)).
  rewrite Hn, normalized_slash, Hnorm, Hhash.
  by rewrite (walk_at (bins t b) O n pos fnn (good_chain_slashed _ _ Hgood) Hnd Hl Hn).
Qed.

(** With [FHFF_NONE] a lookup answers NULL exactly when no node of the
    table has the normalized name. *)
Theorem fsys_hash_find_node_none t orig_name find_flags :
  reach t -> Z.land find_flags FHFF_NONE <> 0 ->
  find t orig_name find_flags = FindNull t
  <-> ~ stored t ("/"%char :: normalized orig_name).
Proof.
  intros Hinv%table_inv_reachable Hflag%Z.eqb_neq.
  rewrite (stored_bin t _ Hinv).
  destruct (find_outcome t orig_name find_flags Hinv)
    as [(pos & fnn & H & Hl & Hname)|[Hnot H]].
  - rewrite H. split; [done|]. intros Hns. exfalso. apply Hns.
    split; [apply normalized_idem|].
    apply list_elem_of_fmap. exists fnn. split; [done|].
    by eapply list_elem_of_lookup_2.
  - rewrite Hflag in H. simpl in H. split; [|done].
    by intros _ [_ Hin].
Qed.

(** Without [FHFF_NONE], the lookup of a name that is not in the table
    adds one node of that name, at the end of the chain of its bin, and
    nothing else: the table holds the nodes it held and the new one, and
    the count goes up by one. *)
Theorem fsys_hash_find_node_adds_one t orig_name find_flags :
  reach t -> Z.land find_flags FHFF_NONE = 0 ->
  ~ stored t ("/"%char :: normalized orig_name) ->
  exists b fnn t',
    find t orig_name find_flags = FindNode b (length (bins t b)) fnn t'
    /\ name fnn = "/"%char :: normalized orig_name
    /\ all_nodes t' ≡ₚ fnn :: all_nodes t
    /\ fsys_hash_entries t' = fsys_hash_entries t + 1.
Proof.
  intros Hinv%table_inv_reachable Hflag%Z.eqb_eq Hns.
  rewrite (stored_bin t _ Hinv) in Hns.
  destruct (find_outcome t orig_name find_flags Hinv)
    as [(pos & fnn & H & Hl & Hname)|[Hnot H]].
  - exfalso. apply Hns. split; [apply normalized_idem|].
    apply list_elem_of_fmap. exists fnn. split; [done|].
    by eapply list_elem_of_lookup_2.
  - rewrite Hflag in H. simpl in H.
    destruct H as (fnn & t' & H & Hname & Hb & Hother & Hn).
    eexists _, fnn, t'. split; [done|]. split; [done|]. split; [|done].
    pose proof (bin_in_range (normalized orig_name)) as Hr.
    apply (concat_bins_insert (bins t) (bins t') _
             (str_fnv_hash (normalized orig_name) mod BINS));
      [apply NoDup_seqZ|apply elem_of_seqZ; lia|done|done].
Qed.

(** Whatever the table: the lookup that returns a node, found or new,
    changes the answer of no later [FHFF_NONE] lookup of a path that
    normalizes to another text. *)
Theorem fsys_hash_find_node_frame t p1 f1 b pos fnn t' p2 f2 :
  find t p1 f1 = FindNode b pos fnn t' ->
  normalized p2 <> normalized p1 -> Z.land f2 FHFF_NONE <> 0 ->
  find t' p2 f2 = answer_on t' (find t p2 f2).
Proof.
  intros Hfind Hne Hflag%Z.eqb_neq.
  assert (Hsame : forall t0, answer_on t0 (find t0 p2 f2) = find t0 p2 f2).
  { intros t0. unfold fsys_hash_find_node. rewrite Hflag.
    destruct (walk _ _ _); reflexivity. }
  revert Hfind. unfold fsys_hash_find_node at 1. fold (normalized p1).
  destruct (walk _ _ _) as [p n| |] eqn:Ew; [| |done].
  { intros [= <- <- <- <-]. by rewrite Hsame. }
  destruct (negb (Z.land f1 FHFF_NONE =? 0)); [done|].
  rewrite FsysFacts.newname_canonical.
  intros [= <- <- <- <-].
  unfold fsys_hash_find_node. fold (normalized p2). rewrite Hflag.
  cbn [bins negb].
  destruct (Z.eqb_spec (str_fnv_hash (normalized p2) mod BINS)
              (str_fnv_hash (normalized p1) mod BINS)) as [->|_].
  - rewrite walk_other;
      [destruct (walk _ _ (normalized p2)); reflexivity| |by eexists].
    simpl. by intros [= ?].
  - destruct (walk _ _ (normalized p2)); reflexivity.
Qed.

End ReachFacts.

(** *** At work on a small table *)

Lemma two_nodes_reachable : reachable length_hash (lit "-") two_nodes.
Proof.
  eassert (H1 : reachable length_hash (lit "-") _).
  { eapply (reach_find _ _ empty_table (lit "/usr/bin") 0);
      [apply reach_start|reflexivity]. }
  eassert (H2 : reachable length_hash (lit "-") _).
  { eapply (reach_find _ _ _ (lit "/usr/lib") 0); [exact H1|reflexivity]. }
  exact H2.
Qed.

Lemma fsys_hash_find_node_no_internerr_witness :
  (name <$> bins two_nodes 7) = [lit "/usr/bin"; lit "/usr/lib"]
  /\ (exists fnn,
        fsys_hash_find_node length_hash (lit "-") two_nodes (lit "//usr/lib")
          FHFF_NONE
        = FindNode 7 1 fnn two_nodes)
  /\ ((exists b pos fnn t',
         fsys_hash_find_node length_hash (lit "-") two_nodes (lit "//usr/lib")
           FHFF_NONE
         = FindNode b pos fnn t'
         /\ bins t' b !! pos = Some fnn)
      \/ (fsys_hash_find_node length_hash (lit "-") two_nodes (lit "//usr/lib")
            FHFF_NONE
          = FindNull two_nodes
          /\ Z.land FHFF_NONE FHFF_NONE <> 0)).
Proof.
  split; [vm_compute; reflexivity|].
  split; [eexists; reflexivity|].
  apply (fsys_hash_find_node_no_internerr length_hash (lit "-")).
  apply two_nodes_reachable.
Defined.

Lemma fsys_hash_entries_counts_witness :
  let hash := fun s : list ascii => Z.of_nat (length s) in
  exists b pos fnn t,
    fsys_hash_find_node hash (lit "-") empty_table (lit "/usr/bin") 0
    = FindNode b pos fnn t
    /\ fsys_hash_entries t = Z.of_nat (length (all_nodes t)).
Proof.
  intros hash. eexists _, _, _, _. split; [reflexivity|].
  apply (fsys_hash_entries_counts hash (lit "-")).
  eapply (reach_find _ _ empty_table (lit "/usr/bin") 0);
    [apply reach_start|reflexivity].
Defined.

Lemma fsys_hash_names_unique_witness :
  (name <$> bins two_nodes 7) = [lit "/usr/bin"; lit "/usr/lib"]
  /\ NoDup (name <$> all_nodes two_nodes).
Proof.
  split; [vm_compute; reflexivity|].
  apply (fsys_hash_names_unique length_hash (lit "-")).
  apply two_nodes_reachable.
Defined.

Lemma fsys_hash_find_node_stored_witness :
  let hash := fun s : list ascii => Z.of_nat (length s) in
  exists fnn t,
    fsys_hash_find_node hash (lit "-") empty_table (lit "/usr/bin") 0
    = FindNode 7 O fnn t
    /\ fsys_hash_find_node hash (lit "-") t (name fnn) FHFF_NONE
       = FindNode 7 O fnn t.
Proof.
  intros hash. eexists _, _. split; [reflexivity|].
  apply (fsys_hash_find_node_stored hash (lit "-"));
    [ eapply (reach_find _ _ empty_table (lit "/usr/bin") 0);
        [apply reach_start|reflexivity]
    | unfold BINS; lia
    | reflexivity ].
Defined.

Lemma fsys_hash_find_node_none_witness :
  (name <$> bins two_nodes 7) = [lit "/usr/bin"; lit "/usr/lib"]
  /\ fsys_hash_find_node length_hash (lit "-") two_nodes (lit "/usr/etc") FHFF_NONE
     = FindNull two_nodes
  /\ (exists fnn,
        fsys_hash_find_node length_hash (lit "-") two_nodes (lit "/usr/lib")
          FHFF_NONE
        = FindNode 7 1 fnn two_nodes)
  /\ (fsys_hash_find_node length_hash (lit "-") two_nodes (lit "/usr/etc") FHFF_NONE
      = FindNull two_nodes
      <-> ~ stored two_nodes ("/"%char :: normalized (lit "/usr/etc")))
  /\ (fsys_hash_find_node length_hash (lit "-") two_nodes (lit "/usr/lib") FHFF_NONE
      = FindNull two_nodes
      <-> ~ stored two_nodes ("/"%char :: normalized (lit "/usr/lib"))).
Proof.
  split; [vm_compute; reflexivity|].
  split; [reflexivity|].
  split; [eexists; reflexivity|].
  split;
    apply (fsys_hash_find_node_none length_hash (lit "-"));
    first [apply two_nodes_reachable | vm_compute; discriminate].
Defined.

Lemma fsys_hash_find_node_adds_one_witness :
  let hash := fun s : list ascii => Z.of_nat (length s) in
  exists b fnn t',
    fsys_hash_find_node hash (lit "-") empty_table (lit "./usr/bin") 0
    = FindNode b (length (bins empty_table b)) fnn t'
    /\ name fnn = "/"%char :: normalized (lit "./usr/bin")
    /\ all_nodes t' ≡ₚ fnn :: all_nodes empty_table
    /\ fsys_hash_entries t' = fsys_hash_entries empty_table + 1.
Proof.
  intros hash.
  apply (fsys_hash_find_node_adds_one hash (lit "-"));
    [apply reach_start | reflexivity |].
  unfold stored. rewrite all_nodes_empty. apply not_elem_of_nil.
Defined.

Lemma fsys_hash_find_node_frame_witness :
  let hash := fun s : list ascii => Z.of_nat (length s) in
  exists b pos fnn t',
    fsys_hash_find_node hash (lit "-") empty_table (lit "/usr/bin") 0
    = FindNode b pos fnn t'
    /\ fsys_hash_find_node hash (lit "-") t' (lit "/usr/lib") FHFF_NONE
       = answer_on t'
           (fsys_hash_find_node hash (lit "-") empty_table (lit "/usr/lib")
              FHFF_NONE).
Proof.
  intros hash. eexists _, _, _, _. split; [reflexivity|].
  eapply (fsys_hash_find_node_frame hash (lit "-") empty_table (lit "/usr/bin") 0);
    [reflexivity | vm_compute; discriminate | vm_compute; discriminate].
Defined.

End FsysIterFacts.

(* ===================================================================== *)
(** * log.c                                                               *)
(* ===================================================================== *)

Module LogFacts.
Import Log.

Lemma streams_app e1 e2 : streams (e1 ++ e2) = streams e1 ++ streams e2.
Proof. unfold streams. apply omap_app. Qed.

Lemma log_step_streams c s :
  match logfd s with
  | Some f =>
      logfd (log_step c s).1 = Some f
      /\ Forall (fun x => x = f) (streams (log_step c s).2)
  | None =>
      match logfd (log_step c s).1 with
      | Some f => Forall (fun x => x = f) (streams (log_step c s).2)
      | None => streams (log_step c s).2 = []
      end
  end.
Proof.
  destruct c as [path|opens time_str msg]; destruct s as [[file|] [f|]]; simpl;
    try done; try destruct opens; simpl; repeat constructor.
Qed.

Lemma log_run_streams cs : forall s,
  match logfd s with
  | Some f =>
      logfd (log_run cs s).1 = Some f
      /\ Forall (fun x => x = f) (streams (log_run cs s).2)
  | None =>
      match logfd (log_run cs s).1 with
      | Some f => Forall (fun x => x = f) (streams (log_run cs s).2)
      | None => streams (log_run cs s).2 = []
      end
  end.
Proof.
  induction cs as [|c cs IH]; intros s.
  - simpl. by destruct (logfd s).
  - cbn [log_run]. pose proof (log_step_streams c s) as Hstep.
    destruct (log_step c s) as [s1 e1]. specialize (IH s1).
    destruct (log_run cs s1) as [s2 e2]. simpl in *.
    rewrite streams_app.
    destruct (logfd s) as [f|].
    + destruct Hstep as [E1 H1]. rewrite E1 in IH. destruct IH as [E2 H2].
      split; [done|]. by apply Forall_app.
    + destruct (logfd s1) as [f1|].
      * destruct IH as [E2 H2]. rewrite E2. by apply Forall_app.
      * rewrite Hstep. simpl. done.
Qed.

(** However [log_file] is assigned in between, and whatever [fopen]
    answers, every line that [log_message] writes in the life of the
    program goes to one and the same stream: the first that was opened. *)
Theorem log_message_one_stream cs :
  exists f, Forall (fun x => x = f) (streams (log_run cs log_start).2).
Proof.
  pose proof (log_run_streams cs log_start) as H. simpl in H.
  destruct (logfd (log_run cs log_start).1) as [f|]; [by exists f|].
  exists []. rewrite H. constructor.
Qed.

Lemma log_run_off cs : forall s,
  log_file s = None -> Forall is_message cs ->
  log_run cs s = (s, []).
Proof.
  induction cs as [|c cs IH]; intros s Hoff Hcs; [done|].
  apply Forall_cons in Hcs as [Hc Hcs].
  destruct c as [|opens time_str msg]; [done|].
  cbn [log_run log_step]. unfold log_message. rewrite Hoff.
  by rewrite (IH s Hoff Hcs).
Qed.

(** When [fopen] fails, [log_message] gives notice, once, and turns
    logging off: as long as [log_file] is not assigned again, no later
    message is written, and the file is not tried again. *)
Theorem log_message_failed_open path time_str msg cs :
  Forall is_message cs ->
  log_run (LogMessage false time_str msg :: cs)
    {| log_file := Some path; logfd := None |}
  = (log_start, [Fopen path; Notice path]).
Proof.
  intros Hcs. cbn [log_run log_step]. unfold log_message. simpl.
  by rewrite (log_run_off cs {| log_file := None; logfd := None |} eq_refl Hcs).
Qed.

Lemma log_message_failed_open_witness :
  log_run [LogMessage false (lit "2016-01-01 00:00:00") (lit "startup");
           LogMessage true (lit "2016-01-01 00:00:01") (lit "install foo")]
    {| log_file := Some (lit "/var/log/dpkg.log"); logfd := None |}
  = (log_start,
     [Fopen (lit "/var/log/dpkg.log"); Notice (lit "/var/log/dpkg.log")]).
Proof.
  apply (log_message_failed_open (lit "/var/log/dpkg.log")
           (lit "2016-01-01 00:00:00") (lit "startup")
           [LogMessage true (lit "2016-01-01 00:00:01") (lit "install foo")]).
  repeat constructor.
Defined.

(** ** The status file descriptors *)

Lemma added_rev fds : added fds = rev fds.
Proof.
  unfold added. rewrite <- (app_nil_r (rev fds)). generalize (@nil Z).
  induction fds as [|fd fds IH]; intros acc; simpl; [done|].
  by rewrite IH, <- app_assoc.
Qed.

Lemma write_all_ok buf pipes fails : forall i,
  (forall j, (j < length pipes)%nat -> fails (i + j)%nat = false) ->
  write_all buf pipes fails i = (writes buf pipes, Returned).
Proof.
  induction pipes as [|fd pipes IH]; intros i Hok; [done|]. simpl.
  specialize (Hok O) as H0. rewrite Nat.add_0_r in H0. rewrite H0 by (simpl; lia).
  rewrite (IH (S i)); [done|].
  intros j Hj. replace (S i + j)%nat with (i + S j)%nat by lia.
  apply Hok. simpl. lia.
Qed.

Lemma write_all_fails buf pipes fails : forall i k fd,
  pipes !! k = Some fd -> fails (i + k)%nat = true ->
  (forall j, (j < k)%nat -> fails (i + j)%nat = false) ->
  write_all buf pipes fails i
  = (writes buf (take (S k) pipes) ++ [Ohshite fd], Fatal).
Proof.
  induction pipes as [|fd' pipes IH]; intros i k fd Hk Hfail Hok; [done|].
  destruct k as [|k]; simpl in Hk.
  - injection Hk as ->. rewrite Nat.add_0_r in Hfail. simpl. by rewrite Hfail.
  - cbn [write_all].
    specialize (Hok O) as H0. rewrite Nat.add_0_r in H0. rewrite H0 by lia.
    rewrite (IH (S i) k fd); [done|done| |].
    + by replace (S i + k)%nat with (i + S k)%nat by lia.
    + intros j Hj. replace (S i + j)%nat with (i + S j)%nat by lia.
      apply Hok. lia.
Qed.

Section SendFacts.

Variable varbuf_map_char : ascii -> ascii -> list ascii -> list ascii.

Local Abbreviation send := (statusfd_send varbuf_map_char).
Local Abbreviation line msg := (varbuf_map_char "010" " " msg ++ ["010"%char]).

(** [statusfd_send] writes the same buffer, which ends in a newline, to
    every descriptor once, the one added last first. The first write that
    fails ends the call in [ohshite], on that descriptor, and the
    descriptors added before it get nothing. *)
Theorem statusfd_send_order fds msg fails :
  ((forall j, (j < length fds)%nat -> fails j = false) ->
   send msg fails (added fds) = (writes (line msg) (rev fds), Returned))
  /\ (forall k fd,
        rev fds !! k = Some fd -> fails k = true ->
        (forall j, (j < k)%nat -> fails j = false) ->
        send msg fails (added fds)
        = (writes (line msg) (take (S k) (rev fds)) ++ [Ohshite fd], Fatal)).
Proof.
  rewrite added_rev. unfold statusfd_send. split.
  - intros Hok. destruct (rev fds) as [|fd pipes] eqn:E; [done|].
    apply write_all_ok. intros j Hj. simpl. apply Hok.
    by rewrite <- length_rev, E.
  - intros k fd Hk Hfail Hok. destruct (rev fds) as [|fd' pipes] eqn:E; [done|].
    by apply write_all_fails.
Qed.

End SendFacts.

End LogFacts.
